(** * GoRedis: lists, sorted sets and documents over an ordered key-value engine

    A shallow embedding of [libs/levelredis/level_list.go] (the deque
    [LevelList]), of the sorted set [LevelZSet] and of the path-addressed
    [MapDocument], followed by the properties of these structures.

    Conventions of the embedding:
    - Go byte slices and strings are Rocq [string]s (sequences of bytes);
      a nil slice returned by a lookup is [None];
    - [int64] and [int] values are [Z] with the two's-complement wrap-around
      written out ([wrap64]);
    - the engine handle shared by all structures is passed explicitly: every
      operation takes the engine and the structure and returns both;
    - a run-time panic (index out of range, failed type assertion) is [None]. *)

From Stdlib Require Import ZArith Ascii String.
From stdpp Require Import gmap strings list fin_maps pretty sorting.

#[local] Set Warnings "-register-all".
#[local] Open Scope string_scope.
#[local] Open Scope list_scope.
#[local] Open Scope Z_scope.

(** ** Machine integers *)

Module Int64.

Definition min_int : Z := - 2 ^ 63.
Definition max_int : Z := 2 ^ 63 - 1.

(** Two's-complement reduction of a mathematical integer to [int64]. *)
Definition wrap64 (z : Z) : Z := (z + 2 ^ 63) mod 2 ^ 64 - 2 ^ 63.

Definition in_range (z : Z) : Prop := min_int <= z <= max_int.

End Int64.
Export Int64.

(** ** Byte-string helpers of the Go standard library *)

Module GoStrings.

(** [strings.Split(s, sep)] and [bytes.Split] for a one-byte separator:
    the result is never empty, [Split("", sep)] is [[""]]. *)
Fixpoint Split (s : string) (sep : ascii) : list string :=
  match s with
  | EmptyString => [EmptyString]
  | String c s' =>
      if Ascii.eqb c sep then EmptyString :: Split s' sep
      else match Split s' sep with
           | [] => [String c EmptyString]
           | w :: ws => String c w :: ws
           end
  end.

(** [strings.HasPrefix]. *)
Definition HasPrefix (s p : string) : bool := String.prefix p s.

(** [strconv.FormatInt(z, 10)] and [strconv.Itoa]. *)
Definition FormatInt (z : Z) : string := pretty z.

Definition is_digit (c : ascii) : bool :=
  let n := N_of_ascii c in ((48 <=? n) && (n <=? 57))%N.

Definition digit_val (c : ascii) : Z := Z.of_N (N_of_ascii c) - 48.

Fixpoint parse_digits (s : string) (acc : Z) : option Z :=
  match s with
  | EmptyString => Some acc
  | String c s' =>
      if is_digit c then parse_digits s' (10 * acc + digit_val c) else None
  end.

(** [strconv.ParseInt(s, 10, 64)] with the error dropped, as every caller
    does ([x, _ = strconv.ParseInt(...)]): a syntax error gives 0, a range
    error gives the nearest bound. *)
Definition ParseInt (s : string) : Z :=
  let '(neg, body) :=
    match s with
    | String "-" s' => (true, s')
    | String "+" s' => (false, s')
    | _ => (false, s)
    end in
  match body with
  | EmptyString => 0
  | _ =>
      match parse_digits body 0 with
      | None => 0
      | Some n =>
          if neg then (if 2 ^ 63 <? n then min_int else - n)
          else (if max_int <? n then max_int else n)
      end
  end.

(** Whether the byte [c] occurs in [s] ([bytes.IndexByte(s, c) >= 0]). *)
Fixpoint has_byte (c : ascii) (s : string) : bool :=
  match s with
  | EmptyString => false
  | String a s' => Ascii.eqb a c || has_byte c s'
  end.

(** The loop of [bytes.LastIndex(s, sep)]: [i] is the position of [s] in the
    whole slice, [acc] the last position found so far. *)
Fixpoint last_index_from (s sep : string) (i acc : Z) : Z :=
  let acc := if String.prefix sep s then i else acc in
  match s with
  | EmptyString => acc
  | String _ s' => last_index_from s' sep (i + 1) acc
  end.

(** [bytes.LastIndex(s, sep)]: the position of the last occurrence of [sep]
    in [s], or [-1]. *)
Definition LastIndex (s sep : string) : Z := last_index_from s sep 0 (-1).

(** The slices [s[:n]] and [s[n:]] for [0 <= n <= len(s)]. *)
Fixpoint slice_to (n : nat) (s : string) : string :=
  match n, s with
  | S n', String a s' => String a (slice_to n' s')
  | _, _ => EmptyString
  end.

Fixpoint slice_from (n : nat) (s : string) : string :=
  match n, s with
  | S n', String _ s' => slice_from n' s'
  | _, _ => s
  end.

End GoStrings.
Export GoStrings.

(** ** The ordered key-value engine *)

Module Engine.

(** An engine failure (I/O, corruption) reported by the store. *)
Inductive error := EngineError (msg : string).

(** Modelled from the spec: the engine handle [LevelRedis] and the levigo
    database behind it are not part of the sources.  The contract of
    section 6 is followed: point lookups, batches applied atomically by
    [Write], and a range enumerator.  The two fault fields say whether
    the store currently fails its reads, respectively its writes; a failed
    write applies nothing. *)
Record DB := mkDB {
  kv : gmap string string;
  rfault : option error;
  wfault : option error
}.

Inductive batch_op :=
| BPut (k v : string)
| BDelete (k : string).

(** [levigo.WriteBatch]: the operations in the order they were added. *)
Definition WriteBatch := list batch_op.

Definition apply_op (m : gmap string string) (o : batch_op) : gmap string string :=
  match o with
  | BPut k v => <[k := v]> m
  | BDelete k => delete k m
  end.

Definition apply_batch (m : gmap string string) (b : WriteBatch) : gmap string string :=
  foldl apply_op m b.

(** [db.Get(ro, key)]: the value, or nil when the key is absent. *)
Definition Get (db : DB) (k : string) : option string * option error :=
  match rfault db with
  | Some e => (None, Some e)
  | None => (kv db !! k, None)
  end.

(** [db.Write(wo, batch)]: all of the batch or nothing. *)
Definition Write (db : DB) (b : WriteBatch) : DB * option error :=
  match wfault db with
  | Some e => (db, Some e)
  | None => (mkDB (apply_batch (kv db) b) (rfault db) (wfault db), None)
  end.

(** [db.Put(wo, k, v)] and [db.Delete(wo, k)]: single-operation writes. *)
Definition Put (db : DB) (k v : string) : DB * option error := Write db [BPut k v].
Definition Delete (db : DB) (k : string) : DB * option error := Write db [BDelete k].

Inductive direction := IteratorForward | IteratorBackward.

Definition key_le (a b : string * string) : Prop := String.leb a.1 b.1 = true.

#[export] Instance key_le_dec : RelDecision key_le.
Proof. intros a b. unfold key_le. apply _. Defined.

Definition key_between (lo hi k : string) : bool :=
  String.leb lo k && String.leb k hi.

(** The entries with [lo <= key <= hi] in byte order of their keys. *)
Definition scan (db : DB) (lo hi : string) (d : direction) : list (string * string) :=
  let es := merge_sort key_le
              (filter (λ e, key_between lo hi e.1 = true) (map_to_list (kv db))) in
  match d with
  | IteratorForward => es
  | IteratorBackward => reverse es
  end.

Fixpoint enum_loop {A} (cb : nat → string → string → A → A * bool)
    (i : nat) (es : list (string * string)) (a : A) : A :=
  match es with
  | [] => a
  | (k, v) :: es' =>
      let '(a', quit) := cb i k v a in
      if quit then a' else enum_loop cb (S i) es' a'
  end.

(** Modelled from the spec: [LevelRedis.Enumerate(min, max, direction, fn)]
    is not part of the sources.  For each key of the interval, in order,
    the callback receives the sequence index, the key and the value, and
    may set the stop flag; the state the Go closure captures is [A]. *)
Definition Enumerate {A} (db : DB) (lo hi : string) (d : direction)
    (cb : nat → string → string → A → A * bool) (a : A) : A :=
  enum_loop cb 0 (scan db lo hi d) a.

End Engine.
Export Engine.

(** ** The key codec *)

Module Codec.

(** Modelled from the spec: the constants and [joinStringBytes] are declared
    in a file that is not part of the sources.  Their values are read off
    the key patterns of section 3: [__key{k}:list], [__key{k}:zset],
    [__zset{k}m#member], [__zset{k}s#score#member]. *)
Definition KEY_PREFIX : string := "__key".
Definition LIST_PREFIX : string := "__list".
Definition ZSET_PREFIX : string := "__zset".
Definition SEP_LEFT : string := "{".
Definition SEP_RIGHT : string := "}".
Definition SEP : string := "#".
Definition LIST_SUFFIX : string := ":list".
Definition ZSET_SUFFIX : string := ":zset".

(** Modelled from the spec: the sentinel byte that sorts after every byte a
    key uses; [RemoveByScore] writes it as the literal 254. *)
Definition MAXBYTE : string := String (ascii_of_N 254) EmptyString.

(** Modelled from the spec: [joinStringBytes] concatenates its arguments. *)
Definition joinStringBytes (parts : list string) : string :=
  foldr String.append EmptyString parts.

(** Modelled from the spec: [Int64ToBytes] and [BytesToInt64] are not part
    of the sources; scores are decimal text, as in the key
    [__zset[user_rank]s#1378000907596#100428] quoted by the source. *)
Definition Int64ToBytes (z : Z) : string := FormatInt z.
Definition BytesToInt64 (b : string) : Z := ParseInt b.

(** Modelled from the spec: [copyBytes] is not part of the sources; it
    returns a copy of its argument, which is the same value here. *)
Definition copyBytes (b : string) : string := b.

End Codec.
Export Codec.

(** ** The list: [level_list.go] *)

Module LevelList.

Record Element := mkElement { Value : option string }.

(** The struct [LevelList] without its engine pointer and mutex: the engine
    is threaded through every call, and calls are atomic here as the mutex
    makes them there. *)
Record t := mk {
  entryKey : string;
  start : Z;
  end_ : Z;
  inTransaction : bool
}.

Definition set_start (l : t) (s : Z) : t :=
  mk (entryKey l) s (end_ l) (inTransaction l).
Definition set_end (l : t) (e : Z) : t :=
  mk (entryKey l) (start l) e (inTransaction l).
Definition set_cursors (l : t) (s e : Z) : t :=
  mk (entryKey l) s e (inTransaction l).
Definition set_inTransaction (l : t) (b : bool) : t :=
  mk (entryKey l) (start l) (end_ l) b.

Definition infoKey (l : t) : string :=
  joinStringBytes [KEY_PREFIX; SEP_LEFT; entryKey l; SEP_RIGHT; LIST_SUFFIX].

Definition infoValue (l : t) : string :=
  FormatInt (start l) +:+ "," +:+ FormatInt (end_ l).

Definition keyPrefix (l : t) : string :=
  joinStringBytes [LIST_PREFIX; SEP_LEFT; entryKey l; SEP_RIGHT].

Definition idxKey (l : t) (idx : Z) : string :=
  joinStringBytes [LIST_PREFIX; SEP_LEFT; entryKey l; SEP_RIGHT; "idx"; ":"; FormatInt idx].

Definition initInfo (db : DB) (l : t) : t :=
  let '(data, err) := Get db (infoKey l) in
  match err with
  | Some _ => l
  | None =>
      match Split (default EmptyString data) "," with
      | p0 :: p1 :: _ => set_cursors l (ParseInt p0) (ParseInt p1)
      | _ => l
      end
  end.

Definition NewLevelList (db : DB) (entryKey : string) : t :=
  initInfo db (mk entryKey 0 (-1) false).

Definition len (l : t) : Z :=
  if end_ l <? start l then 0 else wrap64 (end_ l - start l + 1).

Definition Len (l : t) : Z := len l.

Definition BeginTransaction (l : t) : t :=
  if inTransaction l then l else set_inTransaction l true.

Definition Commit (db : DB) (l : t) : DB * t :=
  if negb (inTransaction l) then (db, l)
  else
    let db' :=
      if len l =? 0 then fst (Delete db (infoKey l))
      else fst (Put db (infoKey l) (infoValue l)) in
    (db', set_inTransaction l false).

(** The loop of [LPush]: one cursor step and one [batch.Put] per value. *)
Fixpoint lpush_loop (values : list string) (l : t) (batch : WriteBatch) : t * WriteBatch :=
  match values with
  | [] => (l, batch)
  | value :: rest =>
      let l' := set_start l (wrap64 (start l - 1)) in
      lpush_loop rest l' (batch ++ [BPut (idxKey l' (start l')) value])
  end.

Definition LPush (values : list string) (db : DB) (l : t) : DB * t * option error :=
  let oldstart := start l in
  let '(l1, batch) := lpush_loop values l [] in
  let batch := if inTransaction l1 then batch
               else batch ++ [BPut (infoKey l1) (infoValue l1)] in
  let '(db', err) := Write db batch in
  match err with
  | Some _ => (db', set_start l1 oldstart, err)
  | None => (db', l1, err)
  end.

Fixpoint rpush_loop (values : list string) (l : t) (batch : WriteBatch) : t * WriteBatch :=
  match values with
  | [] => (l, batch)
  | value :: rest =>
      let l' := set_end l (wrap64 (end_ l + 1)) in
      rpush_loop rest l' (batch ++ [BPut (idxKey l' (end_ l')) value])
  end.

Definition RPush (values : list string) (db : DB) (l : t) : DB * t * option error :=
  let oldend := end_ l in
  let '(l1, batch) := rpush_loop values l [] in
  let batch := if inTransaction l1 then batch
               else batch ++ [BPut (infoKey l1) (infoValue l1)] in
  let '(db', err) := Write db batch in
  match err with
  | Some _ => (db', set_end l1 oldend, err)
  | None => (db', l1, err)
  end.

Definition RPop (db : DB) (l : t) : DB * t * option Element * option error :=
  if len l =? 0 then (db, l, None, None)
  else
    let '(oldstart, oldend) := (start l, end_ l) in
    let idx := end_ l in
    let '(value, err) := Get db (idxKey l idx) in
    match err with
    | Some _ => (db, l, None, err)
    | None =>
        let e := mkElement value in
        let shouldReset := len l =? 1 in
        let batch := [BDelete (idxKey l idx)] in
        let '(l1, batch) :=
          if shouldReset then
            let l1 := set_cursors l 0 (-1) in (l1, batch ++ [BDelete (infoKey l1)])
          else
            let l1 := set_end l (wrap64 (end_ l - 1)) in
            (l1, batch ++ [BPut (infoKey l1) (infoValue l1)]) in
        let '(db', err) := Write db batch in
        match err with
        | Some _ => (db', set_cursors l1 oldstart oldend, Some e, err)
        | None => (db', l1, Some e, err)
        end
    end.

Definition LPop (db : DB) (l : t) : DB * t * option Element * option error :=
  if len l =? 0 then (db, l, None, None)
  else
    let '(oldstart, oldend) := (start l, end_ l) in
    let idx := start l in
    let '(value, err) := Get db (idxKey l idx) in
    match err with
    | Some _ => (db, l, None, err)
    | None =>
        let e := mkElement value in
        let shouldReset := len l =? 1 in
        let batch := [BDelete (idxKey l idx)] in
        let '(l1, batch) :=
          if shouldReset then
            let l1 := set_cursors l 0 (-1) in (l1, batch ++ [BDelete (infoKey l1)])
          else
            let l1 := set_start l (wrap64 (start l + 1)) in
            (l1, batch ++ [BPut (infoKey l1) (infoValue l1)]) in
        let '(db', err) := Write db batch in
        match err with
        | Some _ => (db', set_cursors l1 oldstart oldend, Some e, err)
        | None => (db', l1, Some e, err)
        end
    end.

(** The loop of [TrimLeft],
    [for idx := oldstart; idx < oldstart+int64(count) && idx <= oldend; idx++].
    The guard is tested before every step; [fuel] only bounds the number of
    steps and is never what ends the loop (see [trim_loop_fuel]). *)
Fixpoint trim_loop (fuel : nat) (idx bound oldend : Z) (l : t) (batch : WriteBatch)
    : t * WriteBatch :=
  match fuel with
  | O => (l, batch)
  | S fuel' =>
      if (idx <? bound) && (idx <=? oldend) then
        trim_loop fuel' (wrap64 (idx + 1)) bound oldend
          (set_start l (wrap64 (start l + 1)))
          (batch ++ [BDelete (idxKey l idx)])
      else (l, batch)
  end.

(** [count] is a Go [uint]: [0 <= count < 2^64], and [int64(count)] wraps.
    The named result [n] is returned as it was initialised. *)
Definition TrimLeft (count : Z) (db : DB) (l : t) : DB * t * Z :=
  let n := 0 in
  if len l =? 0 then (db, l, n)
  else
    let '(oldstart, oldend) := (start l, end_ l) in
    let bound := wrap64 (oldstart + wrap64 count) in
    let '(l1, batch) :=
      trim_loop (Z.to_nat (bound - oldstart)) oldstart bound oldend l [] in
    let shouldReset := len l1 =? 0 in
    let '(l2, batch) :=
      if shouldReset then
        let l2 := set_cursors l1 0 (-1) in (l2, batch ++ [BDelete (infoKey l2)])
      else (l1, batch ++ [BPut (infoKey l1) (infoValue l1)]) in
    let '(db', err) := Write db batch in
    match err with
    | Some _ => (db', set_cursors l2 oldstart oldend, n)
    | None => (db', l2, n)
    end.

Definition Index (i : Z) (db : DB) (l : t) : option Element * option error :=
  if (i <? 0) || (i >=? len l) then (None, None)
  else
    let idx := wrap64 (start l + i) in
    let '(value, err) := Get db (idxKey l idx) in
    match err with
    | Some _ => (None, err)
    | None => (Some (mkElement value), None)
    end.

Definition Drop (db : DB) (l : t) : DB * t * bool :=
  let min := keyPrefix l in
  let max := min +:+ MAXBYTE in
  let batch := Enumerate db min max IteratorForward
                 (λ _ key _ batch, (batch ++ [BDelete key], false)) [] in
  let batch := batch ++ [BDelete (infoKey l)] in
  let '(db', _) := Write db batch in
  (db', set_cursors l 0 (-1), true).

End LevelList.

(** ** The sorted set: [LevelZSet] *)

Module LevelZSet.

(** The struct [LevelZSet] without its engine pointer and mutex;
    [totalCount] is [-1] until [initOnce] has read the count record. *)
Record t := mk {
  key : string;
  totalCount : Z
}.

Definition set_totalCount (l : t) (c : Z) : t := mk (key l) c.

Definition NewLevelZSet (key : string) : t := mk key (-1).

Definition zsetKey (l : t) : string :=
  joinStringBytes [KEY_PREFIX; SEP_LEFT; key l; SEP_RIGHT; ZSET_SUFFIX].

Definition zsetValue (l : t) : string := FormatInt (totalCount l).

Definition memberKey (l : t) (member : string) : string :=
  joinStringBytes [ZSET_PREFIX; SEP_LEFT; key l; SEP_RIGHT; "m"; SEP; member].

Definition scoreKey (l : t) (member score : string) : string :=
  joinStringBytes [ZSET_PREFIX; SEP_LEFT; key l; SEP_RIGHT; "s"; SEP; score; SEP; member].

Definition scoreKeyPrefix (l : t) : string :=
  joinStringBytes [ZSET_PREFIX; SEP_LEFT; key l; SEP_RIGHT; "s"; SEP].

Definition initOnce (db : DB) (l : t) : t :=
  if totalCount l =? -1 then
    let '(data, _) := Get db (zsetKey l) in
    match data with
    | Some d => set_totalCount l (ParseInt d)
    | None => set_totalCount l 0
    end
  else l.

(** The loop of [Add] over the pairs [score, member, score, member, ...];
    every lookup reads the engine as it was before the call, the batch is
    written after the loop.  An odd number of arguments makes
    [scoreMembers[i+1]] panic. *)
Fixpoint add_loop (db : DB) (scoreMembers : list string) (l : t)
    (batch : WriteBatch) (n : Z) : option (t * WriteBatch * Z) :=
  match scoreMembers with
  | [] => Some (l, batch, n)
  | [_] => None
  | score :: member :: rest =>
      let memberkey := memberKey l member in
      let batch := batch ++ [BPut memberkey score] in
      let '(oldscore, e1) := Get db memberkey in
      let '(l, batch) :=
        match e1, oldscore with
        | None, Some old => (l, batch ++ [BDelete (scoreKey l member old)])
        | _, _ => (set_totalCount l (wrap64 (totalCount l + 1)), batch)
        end in
      let batch := batch ++ [BPut (scoreKey l member score) EmptyString] in
      add_loop db rest l batch (wrap64 (n + 1))
  end.

(** [Add] has no error result: the outcome of [Write] is dropped. *)
Definition Add (scoreMembers : list string) (db : DB) (l : t) : option (DB * t * Z) :=
  let l := initOnce db l in
  match add_loop db scoreMembers l [] 0 with
  | None => None
  | Some (l, batch, n) =>
      let batch := batch ++ [BPut (zsetKey l) (zsetValue l)] in
      let '(db', _) := Write db batch in
      Some (db', l, n)
  end.

Definition Score (db : DB) (l : t) (member : string) : option string :=
  let '(score, err) := Get db (memberKey l member) in
  match err with
  | Some _ => score
  | None => score
  end.

Definition IncrBy (member : string) (incr : Z) (db : DB) (l : t) : DB * t * string :=
  let l := initOnce db l in
  let score := Score db l member in
  let '(newscore, batch) :=
    match score with
    | None => (Int64ToBytes incr, [])
    | Some score =>
        let batch := [BDelete (scoreKey l member score)] in
        let scoreInt := BytesToInt64 score in
        (Int64ToBytes (wrap64 (scoreInt + incr)), batch)
    end in
  let batch := batch ++ [BPut (memberKey l member) newscore] in
  let batch := batch ++ [BPut (scoreKey l member newscore) EmptyString] in
  let '(db', _) := Write db batch in
  (db', l, newscore).

Fixpoint remove_loop (db : DB) (members : list string) (l : t)
    (batch : WriteBatch) (n : Z) : WriteBatch * Z :=
  match members with
  | [] => (batch, n)
  | member :: rest =>
      let '(score, err) := Get db (memberKey l member) in
      match err, score with
      | None, Some score =>
          remove_loop db rest l
            (batch ++ [BDelete (memberKey l member); BDelete (scoreKey l member score)])
            (wrap64 (n + 1))
      | _, _ => remove_loop db rest l batch n
      end
  end.

Definition Remove (members : list string) (db : DB) (l : t) : DB * t * Z :=
  let l := initOnce db l in
  let '(batch, n) := remove_loop db members l [] 0 in
  let l := set_totalCount l (wrap64 (totalCount l - n)) in
  let batch :=
    if totalCount l =? 0 then batch ++ [BDelete (zsetKey l)]
    else batch ++ [BPut (zsetKey l) (zsetValue l)] in
  let '(db', _) := Write db batch in
  (db', l, n).

Definition Len (db : DB) (l : t) : t * Z :=
  let l := initOnce db l in (l, totalCount l).

Definition Drop (db : DB) (l : t) : DB * t * bool :=
  if totalCount l =? 0 then (db, l, true)
  else
    let min := joinStringBytes [KEY_PREFIX; SEP_LEFT; key l; SEP_RIGHT] in
    let max := min +:+ MAXBYTE in
    let batch := Enumerate db min max IteratorForward
                   (λ _ key _ batch, (batch ++ [BDelete key], false)) [] in
    let batch := batch ++ [BDelete (zsetKey l)] in
    let '(db', _) := Write db batch in
    (db', set_totalCount l 0, true).

(** [splitScoreKey]: the score and the member of a score-index key, cut at
    its last two separators.  Without any separator [scorekey[:pos2]] is a
    slice with bound [-1], a panic. *)
Definition splitScoreKey (scorekey : string) : option (string * string) :=
  let pos2 := LastIndex scorekey SEP in
  if pos2 <? 0 then None
  else
    let pos1 := LastIndex (slice_to (Z.to_nat pos2) scorekey) SEP in
    let member := copyBytes (slice_from (Z.to_nat (pos2 + 1)) scorekey) in
    let score :=
      copyBytes (slice_from (Z.to_nat (pos1 + 1)) (slice_to (Z.to_nat pos2) scorekey)) in
    Some (score, member).

(** The callback of [RangeByIndex]; the slice it appends to is [None] once
    [splitScoreKey] has panicked. *)
Definition range_by_index_cb (start stop : Z) (i : nat) (key value : string)
    (scoreMembers : option (list string)) : option (list string) * bool :=
  let i := Z.of_nat i in
  if i <? start then (scoreMembers, false)
  else if (i >=? start) && ((stop =? -1) || (i <=? stop)) then
    match scoreMembers, splitScoreKey key with
    | Some sm, Some (score, member) => (Some (sm ++ [score; member]), false)
    | _, _ => (None, true)
    end
  else (scoreMembers, true).

Definition RangeByIndex (high2low : bool) (start stop : Z) (db : DB) (l : t)
    : option (list string) :=
  let direction := if high2low then IteratorBackward else IteratorForward in
  let min := scoreKeyPrefix l in
  let max := min +:+ MAXBYTE in
  Enumerate db min max direction (range_by_index_cb start stop) (Some []).

(** The callback of [RangeByScore]; [offset+count] is computed in [int]. *)
Definition range_by_score_cb (offset count : Z) (i : nat) (key value : string)
    (scoreMembers : option (list string)) : option (list string) * bool :=
  let i := Z.of_nat i in
  if i <? offset then (scoreMembers, false)
  else if negb (count =? -1) && (i >=? wrap64 (offset + count)) then (scoreMembers, true)
  else
    match scoreMembers, splitScoreKey key with
    | Some sm, Some (score, member) => (Some (sm ++ [score; member]), false)
    | _, _ => (None, true)
    end.

Definition RangeByScore (high2low : bool) (min max : string) (offset count : Z)
    (db : DB) (l : t) : option (list string) :=
  let direction := if high2low then IteratorBackward else IteratorForward in
  let min2 := scoreKeyPrefix l +:+ min in
  let max2 := scoreKeyPrefix l +:+ max +:+ MAXBYTE in
  Enumerate db min2 max2 direction (range_by_score_cb offset count) (Some []).

(** The tail shared by the three removals: the count is lowered by [n], the
    count record deleted or rewritten, the batch written (its outcome is
    dropped) and [n] returned. *)
Definition finish_remove (db : DB) (l : t) (batch : WriteBatch) (n : Z) : DB * t * Z :=
  let l := set_totalCount l (wrap64 (totalCount l - n)) in
  let batch :=
    if totalCount l =? 0 then batch ++ [BDelete (zsetKey l)]
    else batch ++ [BPut (zsetKey l) (zsetValue l)] in
  let '(db', _) := Write db batch in
  (db', l, n).

(** What the callbacks of [RemoveByIndex] and [RemoveByScore] do with an
    entry they remove. *)
Definition remove_entry (l : t) (key : string) (st : option (WriteBatch * Z))
    : option (WriteBatch * Z) * bool :=
  match st, splitScoreKey key with
  | Some (batch, n), Some (score, member) =>
      (Some (batch ++ [BDelete (memberKey l member); BDelete (scoreKey l member score)],
             wrap64 (n + 1)), false)
  | _, _ => (None, true)
  end.

Definition remove_by_index_cb (l : t) (start stop : Z) (i : nat) (key value : string)
    (st : option (WriteBatch * Z)) : option (WriteBatch * Z) * bool :=
  let i := Z.of_nat i in
  if i <? start then (st, false)
  else if (i >=? start) && ((stop =? -1) || (i <=? stop)) then remove_entry l key st
  else (st, true).

Definition RemoveByIndex (start stop : Z) (db : DB) (l : t) : option (DB * t * Z) :=
  let l := initOnce db l in
  let min := scoreKeyPrefix l in
  let max := min +:+ MAXBYTE in
  match Enumerate db min max IteratorForward (remove_by_index_cb l start stop)
          (Some ([], 0)) with
  | Some (batch, n) => Some (finish_remove db l batch n)
  | None => None
  end.

Definition RemoveByScore (min max : string) (db : DB) (l : t) : option (DB * t * Z) :=
  let l := initOnce db l in
  let min2 := scoreKeyPrefix l +:+ min in
  let max2 := scoreKeyPrefix l +:+ max +:+ String (ascii_of_N 254) EmptyString in
  match Enumerate db min2 max2 IteratorForward (λ _ key _ st, remove_entry l key st)
          (Some ([], 0)) with
  | Some (batch, n) => Some (finish_remove db l batch n)
  | None => None
  end.

End LevelZSet.

(** ** The document: [MapDocument] *)

Module MapDocument.

(** The dynamic values ([interface{}]) a decoded document holds.  A
    [float64] is its IEEE-754 bit pattern; [VMap] is
    [map[string]interface{}]. *)
Inductive value :=
| VNil
| VBool (b : bool)
| VInt (n : Z)
| VFloat (bits : Z)
| VString (s : string)
| VList (l : list value)
| VMap (m : gmap string value).

Inductive doc_error := WrongKindError | BadArgumentCount | BadArgumentType.

Definition dot : ascii := ".".

(** [reflect.TypeOf(v) == MapInterfaceType]. *)
Definition is_map (v : value) : bool :=
  match v with VMap _ => true | _ => false end.

(** [m[k]] read as a single value: nil when the key is absent. *)
Definition index (m : gmap string value) (k : string) : value :=
  default VNil (m !! k).

Definition NewMapDocument (data : option (gmap string value)) : gmap string value :=
  default ∅ data.

(** [int(f)] for a [float64] given by its bits: truncation toward zero.
    Out of range, and for infinities and NaN, Go leaves the result to the
    implementation; amd64 yields the smallest [int64]. *)
Definition float64_to_int (bits : Z) : Z :=
  let sign := Z.testbit bits 63 in
  let e := Z.land (Z.shiftr bits 52) 2047 in
  let m := Z.land bits (2 ^ 52 - 1) in
  if e =? 0 then 0
  else if e =? 2047 then min_int
  else
    let mag := Z.shiftl (2 ^ 52 + m) (e - 1075) in
    let v := if sign then - mag else mag in
    if (min_int <=? v) && (v <=? max_int) then v else min_int.

Definition toInt (obj : value) : Z * option doc_error :=
  match obj with
  | VInt n => (n, None)
  | VFloat bits => (float64_to_int bits, None)
  | _ => (0, Some BadArgumentType)
  end.

Definition is_nil (v : value) : bool :=
  match v with VNil => true | _ => false end.

Definition doIncr (parent : gmap string value) (key : string) (val : value)
    : gmap string value * option doc_error :=
  let obj := index parent key in
  if is_nil obj then (<[key := val]> parent, None)
  else
    let '(oldint, e1) := toInt obj in
    let '(incrint, e2) := toInt val in
    match e1, e2 with
    | None, None => (<[key := VInt (wrap64 (oldint + incrint))]> parent, None)
    | _, _ => (parent, Some BadArgumentType)
    end.

(** [doRpush]; appending to a value that is not a sequence panics. *)
Definition doRpush (parent : gmap string value) (key : string) (elems : list value)
    : option (gmap string value) :=
  let obj := index parent key in
  if is_nil obj then Some (<[key := VList elems]> parent)
  else
    match elems, obj with
    | [], _ => Some parent
    | _, VList old => Some (<[key := VList (old ++ elems)]> parent)
    | _, _ => None
    end.

(** The walk of [findElement] over all segments but the last.  The Go
    function returns a pointer to the parent mapping, through which its
    caller then reads or writes; here the caller's action on the parent is
    the function [use], and the mappings on the way are rebuilt around its
    result.  [absent] is what the caller gets when [exist] is false.  A
    document is a tree of values here: a Go mapping held under two keys is
    two equal values, and a write through one of them does not show under
    the other. *)
Fixpoint walk {R} (createIfMissing : bool) (inner : list string)
    (parent : gmap string value)
    (use : gmap string value → gmap string value * R) (absent : R)
    : gmap string value * R :=
  match inner with
  | [] => use parent
  | curkey :: rest =>
      match parent !! curkey with
      | Some (VMap sub) =>
          let '(sub', r) := walk createIfMissing rest sub use absent in
          (<[curkey := VMap sub']> parent, r)
      | _ =>
          if createIfMissing then
            let '(sub', r) := walk createIfMissing rest ∅ use absent in
            (<[curkey := VMap sub']> parent, r)
          else (parent, absent)
      end
  end.

(** [findElement(field, createIfMissing)] followed by [use parent key obj]. *)
Definition findElement {R} (data : gmap string value) (field : string)
    (createIfMissing : bool)
    (use : gmap string value → string → value → gmap string value * R)
    (absent : R) : gmap string value * R :=
  let pairs := Split field dot in
  let key := List.last pairs EmptyString in
  walk createIfMissing (removelast pairs) data
    (λ parent, use parent key (index parent key)) absent.

(** The state of [RichSet] while it runs: the document and the error slot. *)
Definition rs_state : Type := gmap string value * option doc_error.

Definition set_field (field : string) (v : value) (st : rs_state) : option rs_state :=
  let '(data, _) :=
    findElement st.1 field true (λ parent key _, (<[key := v]> parent, ())) () in
  Some (data, st.2).

Definition rpush_field (field : string) (v : value) (st : rs_state) : option rs_state :=
  match v with
  | VList elems =>
      let '(data, r) :=
        findElement st.1 field true
          (λ parent key _,
             match doRpush parent key elems with
             | Some parent' => (parent', true)
             | None => (parent, false)
             end) true in
      if r then Some (data, st.2) else None
  | _ => None
  end.

Definition inc_field (field : string) (v : value) (st : rs_state) : option rs_state :=
  Some (findElement st.1 field true (λ parent key _, doIncr parent key v) None).

Definition del_field (field : value) (st : rs_state) : option rs_state :=
  match field with
  | VString field =>
      let '(data, _) :=
        findElement st.1 field false (λ parent key _, (delete key parent, ())) () in
      Some (data, st.2)
  | _ => None
  end.

(** [for field, value := range argmap { step }], stopping at a panic. *)
Definition each_field (step : string → value → rs_state → option rs_state)
    (argmap : gmap string value) (st : rs_state) : option rs_state :=
  foldl (λ acc fv, st ← acc; step fv.1 fv.2 st) (Some st) (map_to_list argmap).

Definition as_map (v : value) : option (gmap string value) :=
  match v with VMap m => Some m | _ => None end.

Definition rich_entry (k : string) (v : value) (st : rs_state) : option rs_state :=
  if negb (HasPrefix k "$") then set_field k v st
  else
    let action := String.substring 1 (String.length k - 1) k in
    if String.eqb action "set" then argmap ← as_map v; each_field set_field argmap st
    else if String.eqb action "rpush" then argmap ← as_map v; each_field rpush_field argmap st
    else if String.eqb action "inc" then argmap ← as_map v; each_field inc_field argmap st
    else if String.eqb action "del" then
      match v with
      | VList arglist => foldl (λ acc field, st ← acc; del_field field st) (Some st) arglist
      | _ => None
      end
    else Some st.

(** [RichSet]: Go ranges over a map in an unspecified order; the order here
    is that of [map_to_list].  [None] is a panic. *)
Definition RichSet (input : gmap string value) (data : gmap string value)
    : option rs_state :=
  each_field rich_entry input (data, None).

(** The inner loop of [RichGet] for one field and the two statements after
    it.  [src] and [dst] are [srcparent] and [dstparent]; when the visited
    value is a mapping, [dstparent[curkey]] becomes a fresh mapping and both
    move into it, so the rest of the walk fills that fresh mapping. *)
Fixpoint get_loop (pairs : list string) (key : string)
    (src dst : gmap string value) : gmap string value :=
  match pairs with
  | [] =>
      match src !! key with
      | Some obj => <[key := obj]> dst
      | None => dst
      end
  | curkey :: rest =>
      match src !! curkey with
      | None => get_loop rest key src dst
      | Some (VMap sub) => <[curkey := VMap (get_loop rest key sub ∅)]> dst
      | Some obj => get_loop rest key src (<[curkey := obj]> dst)
      end
  end.

Definition RichGet (data : gmap string value) (fields : list string)
    : gmap string value :=
  match fields with
  | [] => data
  | _ =>
      foldl (λ result field,
               let pairs := Split field dot in
               get_loop pairs (List.last pairs EmptyString) data result)
            ∅ fields
  end.

End MapDocument.

(** ** Specification-side definitions *)

Section batches.
Import LevelList.

(** The batch [lpush_loop] builds from cursor [s]: one put per value, at
    [s-1], [s-2], ... *)
Fixpoint puts_left (l : LevelList.t) (s : Z) (values : list string) : WriteBatch :=
  match values with
  | [] => []
  | v :: rest => BPut (idxKey l (s - 1)) v :: puts_left l (s - 1) rest
  end.

(** The batch [rpush_loop] builds from cursor [e]: puts at [e+1], [e+2], ... *)
Fixpoint puts_right (l : LevelList.t) (e : Z) (values : list string) : WriteBatch :=
  match values with
  | [] => []
  | v :: rest => BPut (idxKey l (e + 1)) v :: puts_right l (e + 1) rest
  end.

(** The batch [trim_loop] builds from cursor [s]: [k] deletions, at [s],
    [s+1], ... *)
Fixpoint trims (l : LevelList.t) (s : Z) (k : nat) : WriteBatch :=
  match k with
  | O => []
  | S k' => BDelete (idxKey l s) :: trims l (s + 1) k'
  end.
End batches.

(** ** Histories of a list and the deque they describe *)

Module History.
Import LevelList.

Inductive op :=
| OpLPush (values : list string)
| OpRPush (values : list string)
| OpLPop
| OpRPop.

(** One call on the list; the elements handed back by pops are collected. *)
Definition step (o : op) (db : DB) (l : LevelList.t)
    : DB * LevelList.t * list (option Element) :=
  match o with
  | OpLPush values => let '(db', l', _) := LPush values db l in (db', l', [])
  | OpRPush values => let '(db', l', _) := RPush values db l in (db', l', [])
  | OpLPop => let '(db', l', e, _) := LPop db l in (db', l', [e])
  | OpRPop => let '(db', l', e, _) := RPop db l in (db', l', [e])
  end.

Fixpoint run (ops : list op) (db : DB) (l : LevelList.t)
    : DB * LevelList.t * list (option Element) :=
  match ops with
  | [] => (db, l, [])
  | o :: rest =>
      let '(db', l', out) := step o db l in
      let '(db'', l'', outs) := run rest db' l' in
      (db'', l'', out ++ outs)
  end.

(** The deque of the specification: a left-to-right sequence of values.  A
    left push puts each value in turn in front, a right push puts each value
    in turn behind; a pop takes the value at that end, and finds nothing in
    an empty deque. *)
Definition deque_step (o : op) (xs : list string) : list string * list (option string) :=
  match o with
  | OpLPush values => (foldl (λ acc v, v :: acc) xs values, [])
  | OpRPush values => (foldl (λ acc v, acc ++ [v]) xs values, [])
  | OpLPop =>
      match xs with
      | [] => ([], [None])
      | x :: rest => (rest, [Some x])
      end
  | OpRPop =>
      match last xs with
      | None => (xs, [None])
      | Some x => (removelast xs, [Some x])
      end
  end.

Fixpoint deque_run (ops : list op) (xs : list string) : list string * list (option string) :=
  match ops with
  | [] => (xs, [])
  | o :: rest =>
      let '(xs', out) := deque_step o xs in
      let '(xs'', outs) := deque_run rest xs' in
      (xs'', out ++ outs)
  end.

(** The number of values pushed and the number of pops of a history. *)
Definition pushed (o : op) : Z :=
  match o with
  | OpLPush values | OpRPush values => Z.of_nat (length values)
  | _ => 0
  end.

Definition popped (o : op) : Z :=
  match o with
  | OpLPop | OpRPop => 1
  | _ => 0
  end.

Definition pushes (ops : list op) : Z := foldr (λ o n, pushed o + n) 0 ops.
Definition pops (ops : list op) : Z := foldr (λ o n, popped o + n) 0 ops.

(** The running count of a history: a push adds the number of its values,
    a pop takes one away unless the count is 0. *)
Definition live (ops : list op) : Z :=
  foldl (λ n o, Z.max 0 (n + pushed o - popped o)) 0 ops.

(** What a pop reports for a value of the deque. *)
Definition reported (x : option string) : option Element :=
  (λ v, mkElement (Some v)) <$> x.

(** The store and cursors [(db, l)] hold the sequence [xs]: the window has
    the length of [xs] and position [i] is stored under cursor
    [start + i]. *)
Definition Repr (db : DB) (l : LevelList.t) (xs : list string) : Prop :=
  end_ l = start l + Z.of_nat (length xs) - 1 ∧
  ∀ i x, xs !! i = Some x → kv db !! idxKey l (start l + Z.of_nat i) = Some x.

(** [Repr] on a healthy engine, with cursors no further from 0 than the
    number [p] of values pushed so far. *)
Definition Inv (p : Z) (db : DB) (l : LevelList.t) (xs : list string) : Prop :=
  rfault db = None ∧ wfault db = None ∧
  - p ≤ start l ∧ end_ l ≤ p - 1 ∧ Z.of_nat (length xs) ≤ p ∧
  Repr db l xs.

(** The claim C7 as worded, for one history on one engine. *)
Definition length_is_pushes_minus_pops (db : DB) (entryKey : string) (ops : list op) : Prop :=
  Len (run ops db (NewLevelList db entryKey)).1.2 = Z.max 0 (pushes ops - pops ops).

End History.

(** ** Sessions: every operation of a list *)

Module Session.
Import LevelList.

Inductive op :=
| LPushOp (values : list string)
| RPushOp (values : list string)
| LPopOp
| RPopOp
| TrimLeftOp (count : N)
| BeginOp
| CommitOp
| DropOp.

(** One call on the list, results dropped. *)
Definition step (o : op) (db : DB) (l : LevelList.t) : DB * LevelList.t :=
  match o with
  | LPushOp values => (LPush values db l).1
  | RPushOp values => (RPush values db l).1
  | LPopOp => (LPop db l).1.1
  | RPopOp => (RPop db l).1.1
  | TrimLeftOp count => (TrimLeft (Z.of_N count) db l).1
  | BeginOp => (db, BeginTransaction l)
  | CommitOp => Commit db l
  | DropOp => (Drop db l).1
  end.

Definition run (ops : list op) (db : DB) (l : LevelList.t) : DB * LevelList.t :=
  foldl (λ st o, step o st.1 st.2) (db, l) ops.

(** The same calls on a plain sequence of values. *)
Definition deque_step (o : op) (xs : list string) : list string :=
  match o with
  | LPushOp values => reverse values ++ xs
  | RPushOp values => xs ++ values
  | LPopOp => tail xs
  | RPopOp => removelast xs
  | TrimLeftOp count => drop (N.to_nat count) xs
  | BeginOp | CommitOp => xs
  | DropOp => []
  end.

Definition deque_run (ops : list op) (xs : list string) : list string :=
  foldl (λ xs o, deque_step o xs) xs ops.

(** What a call may move a cursor by: the values pushed, the count trimmed. *)
Definition weight (o : op) : Z :=
  match o with
  | LPushOp values | RPushOp values => Z.of_nat (length values)
  | TrimLeftOp count => Z.of_N count
  | _ => 0
  end.

Definition total_weight (ops : list op) : Z := foldr (λ o n, weight o + n) 0 ops.

(** The info key agrees with the cursors: it holds them, or it is absent and
    the window is the canonical empty one. *)
Definition InfoOK (db : DB) (l : LevelList.t) : Prop :=
  kv db !! infoKey l = Some (infoValue l) ∨
  (kv db !! infoKey l = None ∧ start l = 0 ∧ end_ l = -1).

(** The invariant of a session on the list [entryKey]: the store holds the
    sequence [xs], an empty list has canonical cursors, and outside a
    transaction the info key agrees with the cursors. *)
Definition SInv (entryKey : string) (p : Z) (db : DB) (l : LevelList.t)
    (xs : list string) : Prop :=
  History.Inv p db l xs ∧
  LevelList.entryKey l = entryKey ∧
  (xs = [] → start l = 0) ∧
  (inTransaction l = false → InfoOK db l).

End Session.

(** ** Observations on documents *)

Module DocSpec.
Import MapDocument.

Definition numeric (v : value) : bool :=
  match v with VInt _ | VFloat _ => true | _ => false end.

(** The value under [key] inside the nested mappings named by [inner]. *)
Fixpoint leaf (inner : list string) (key : string) (m : gmap string value) : option value :=
  match inner with
  | [] => m !! key
  | curkey :: rest =>
      match m !! curkey with
      | Some (VMap sub) => leaf rest key sub
      | _ => None
      end
  end.

(** The leaf a dot-separated path addresses. *)
Definition lookup_field (data : gmap string value) (field : string) : option value :=
  let pairs := Split field dot in
  leaf (removelast pairs) (List.last pairs EmptyString) data.

(** No leaf, or a nil one. *)
Definition absent (o : option value) : Prop := o = None ∨ o = Some VNil.

(** The update [{"$inc": {field: delta}}]. *)
Definition inc_update (field : string) (delta : value) : gmap string value :=
  {[ "$inc" := VMap {[ field := delta ]} ]}.

(** The claim C5 as worded, in its last part: the update fails with the
    type-mismatch error when the existing or the incoming value is not
    numeric. *)
Definition inc_rejects_non_numeric (data : gmap string value) (field : string)
    (delta : value) : Prop :=
  (∃ o, lookup_field data field = Some o ∧ numeric o = false) ∨ numeric delta = false →
  ∃ data', RichSet (inc_update field delta) data = Some (data', Some BadArgumentType).

(** The mapping that the nested mappings named by [inner] lead to; empty
    where a segment is missing or is not a mapping. *)
Fixpoint reach (inner : list string) (m : gmap string value) : gmap string value :=
  match inner with
  | [] => m
  | curkey :: rest =>
      match m !! curkey with
      | Some (VMap sub) => reach rest sub
      | _ => reach rest ∅
      end
  end.

(** The updates [{"$set": {field: v}}], [{"$rpush": {field: elems}}] and
    [{"$del": [field]}]. *)
Definition set_update (field : string) (v : value) : gmap string value :=
  {[ "$set" := VMap {[ field := v ]} ]}.

Definition rpush_update (field : string) (elems : list value) : gmap string value :=
  {[ "$rpush" := VMap {[ field := VList elems ]} ]}.

Definition del_update (field : string) : gmap string value :=
  {[ "$del" := VList [VString field] ]}.

End DocSpec.

(** ** Observations on sorted sets *)

Module ZSetSpec.
Import LevelZSet.

(** Among the pairs [score, member, ...], how many name a member that has no
    score in the store [db], each occurrence counted. *)
Fixpoint absent_members (db : DB) (z : LevelZSet.t) (scoreMembers : list string) : Z :=
  match scoreMembers with
  | _ :: member :: rest =>
      (match kv db !! memberKey z member with Some _ => 0 | None => 1 end)
      + absent_members db z rest
  | _ => 0
  end.

(** The entries at the positions [lo <= i < hi] of a scan ([hi = None]: no
    upper bound). *)
Definition window {A} (lo : Z) (hi : option Z) (es : list A) : list A :=
  drop (Z.to_nat lo)
    match hi with
    | None => es
    | Some h => take (Z.to_nat h) es
    end.

(** The scores and members of a list of score-index entries, each entry
    giving [score; member]; [None] if a key cannot be split. *)
Definition pairs_of (es : list (string * string)) : option (list (string * string)) :=
  mapM (λ e, splitScoreKey e.1) es.

Definition flat (ps : list (string * string)) : list string :=
  concat ((λ p, [p.1; p.2]) <$> ps).

(** The engine keys that removing the pairs [ps] of a set deletes. *)
Definition removed_keys (l : LevelZSet.t) (ps : list (string * string)) : list string :=
  concat ((λ p, [memberKey l p.2; scoreKey l p.2 p.1]) <$> ps).

(** The exclusive upper bound of the positions [start .. stop] of
    [RangeByIndex] and [RemoveByIndex] ([stop = -1]: none), and of the
    positions [offset .. offset+count-1] of [RangeByScore]. *)
Definition index_bound (stop : Z) : option Z :=
  if stop =? -1 then None else Some (stop + 1).

Definition score_bound (offset count : Z) : option Z :=
  if count =? -1 then None else Some (wrap64 (offset + count)).

(** A score whose first byte sorts before the sentinel [MAXBYTE]. *)
Definition below_max (score : string) : bool :=
  match score with
  | EmptyString => true
  | String c _ => (N_of_ascii c <? 254)%N
  end.

End ZSetSpec.

(** ** Engines used as concrete inputs *)

(** A healthy engine that stores nothing. *)
Definition empty_db : DB := mkDB ∅ None None.

(** A list of two elements on a healthy engine. *)
Definition two_db : DB :=
  mkDB {[ "__list{k}idx:0" := "a"; "__list{k}idx:1" := "b"; "__key{k}:list" := "0,1" ]}
       None None.

(** An engine whose writes fail, and a list of two elements on it. *)
Definition failing_db : DB :=
  mkDB {[ "__list{k}idx:0" := "a"; "__list{k}idx:1" := "b"; "__key{k}:list" := "0,1" ]}
       None (Some (EngineError "write refused")).

(** The sorted set [k] with the one member [a] of score 7, on a healthy
    engine. *)
Definition zset_db : DB :=
  mkDB {[ "__zset{k}m#a" := "7"; "__zset{k}s#7#a" := EmptyString; "__key{k}:zset" := "1" ]}
       None None.

(** The claim C3 as worded, for [Add] of the sorted set: a failed write
    leaves the cached count at its value before the call. *)
Definition zset_Add_rolls_back (db : DB) (z : LevelZSet.t) (scoreMembers : list string) : Prop :=
  is_Some (wfault db) →
  ∀ db' z' n, LevelZSet.Add scoreMembers db z = Some (db', z', n) →
    LevelZSet.totalCount z' = LevelZSet.totalCount z.

(** * Properties *)

(** ** Machine integers and keys *)

Lemma wrap64_id (z : Z) : in_range z → wrap64 z = z.
Proof.
  unfold in_range, min_int, max_int, wrap64. intros Hz.
  rewrite Z.mod_small by lia. lia.
Qed.

Lemma wrap64_in_range (z : Z) : in_range (wrap64 z).
Proof.
  unfold in_range, min_int, max_int, wrap64.
  pose proof (Z.mod_pos_bound (z + 2 ^ 63) (2 ^ 64)). lia.
Qed.

Lemma append_empty_r (s : string) : s +:+ EmptyString = s.
Proof.
  induction s as [|c s IH]; [done|].
  change (String c (s +:+ EmptyString) = String c s). by rewrite IH.
Qed.

Section list_keys.
Import LevelList.
Context (l : LevelList.t).

(** Two cursors never share an element key. *)
Lemma idxKey_inj (a b : Z) : idxKey l a = idxKey l b → a = b.
Proof.
  unfold idxKey, joinStringBytes, FormatInt. cbn [foldr].
  intros H. repeat apply String.app_inj in H.
  rewrite !append_empty_r in H. by apply (inj pretty) in H.
Qed.

(** The info key lives under [KEY_PREFIX], the elements under [LIST_PREFIX]. *)
Lemma infoKey_idxKey (a : Z) : infoKey l ≠ idxKey l a.
Proof. unfold infoKey, idxKey, joinStringBytes. vm_compute. discriminate. Qed.

Lemma idxKey_entry (l' : LevelList.t) (a : Z) :
  entryKey l' = entryKey l → idxKey l' a = idxKey l a.
Proof. unfold idxKey. by intros ->. Qed.

End list_keys.

(** ** What the loops of the list compute *)

Section list_loops.
Import LevelList.

Lemma puts_left_entry (l l' : LevelList.t) (s : Z) (values : list string) :
  entryKey l' = entryKey l → puts_left l' s values = puts_left l s values.
Proof.
  intros He. revert s. induction values as [|v vs IH]; intros s; cbn [puts_left]; [done|].
  by rewrite IH, (idxKey_entry l l').
Qed.

Lemma puts_right_entry (l l' : LevelList.t) (e : Z) (values : list string) :
  entryKey l' = entryKey l → puts_right l' e values = puts_right l e values.
Proof.
  intros He. revert e. induction values as [|v vs IH]; intros e; cbn [puts_right]; [done|].
  by rewrite IH, (idxKey_entry l l').
Qed.

Lemma lpush_loop_frame values : ∀ l batch,
  let l' := (lpush_loop values l batch).1 in
  entryKey l' = entryKey l ∧ end_ l' = end_ l ∧ inTransaction l' = inTransaction l.
Proof.
  induction values as [|v vs IH]; intros l batch; cbn; [done|].
  destruct (IH (set_start l (wrap64 (start l - 1)))
               (batch ++ [BPut (idxKey (set_start l (wrap64 (start l - 1)))
                                  (wrap64 (start l - 1))) v])) as (?&?&?).
  done.
Qed.

Lemma rpush_loop_frame values : ∀ l batch,
  let l' := (rpush_loop values l batch).1 in
  entryKey l' = entryKey l ∧ start l' = start l ∧ inTransaction l' = inTransaction l.
Proof.
  induction values as [|v vs IH]; intros l batch; cbn; [done|].
  destruct (IH (set_end l (wrap64 (end_ l + 1)))
               (batch ++ [BPut (idxKey (set_end l (wrap64 (end_ l + 1)))
                                  (wrap64 (end_ l + 1))) v])) as (?&?&?).
  done.
Qed.

Lemma lpush_loop_spec values : ∀ l batch,
  min_int ≤ start l - Z.of_nat (length values) → start l ≤ max_int →
  lpush_loop values l batch =
    (set_start l (start l - Z.of_nat (length values)),
     batch ++ puts_left l (start l) values).
Proof.
  induction values as [|v vs IH]; intros l batch Hlo Hhi; cbn [lpush_loop puts_left length] in *.
  - rewrite app_nil_r. destruct l; unfold set_start; cbn. do 3 f_equal. lia.
  - rewrite wrap64_id by (unfold in_range; lia).
    rewrite IH; cbn [start set_start]; [|lia..].
    rewrite <-app_assoc. cbn [app].
    rewrite (puts_left_entry l), (idxKey_entry l) by done.
    unfold set_start; cbn. do 2 f_equal. lia.
Qed.

Lemma rpush_loop_spec values : ∀ l batch,
  min_int ≤ end_ l → end_ l + Z.of_nat (length values) ≤ max_int →
  rpush_loop values l batch =
    (set_end l (end_ l + Z.of_nat (length values)),
     batch ++ puts_right l (end_ l) values).
Proof.
  induction values as [|v vs IH]; intros l batch Hlo Hhi; cbn [rpush_loop puts_right length] in *.
  - rewrite app_nil_r. destruct l; unfold set_end; cbn. do 3 f_equal. lia.
  - rewrite wrap64_id by (unfold in_range; lia).
    rewrite IH; cbn [end_ set_end]; [|lia..].
    rewrite <-app_assoc. cbn [app].
    rewrite (puts_right_entry l), (idxKey_entry l) by done.
    unfold set_end; cbn. do 2 f_equal. lia.
Qed.

Lemma trim_loop_frame fuel : ∀ idx bound oldend l batch,
  let l' := (trim_loop fuel idx bound oldend l batch).1 in
  entryKey l' = entryKey l ∧ end_ l' = end_ l ∧ inTransaction l' = inTransaction l.
Proof.
  induction fuel as [|fuel IH]; intros idx bound oldend l batch; cbn; [done|].
  destruct ((idx <? bound) && (idx <=? oldend)); [|done].
  destruct (IH (wrap64 (idx + 1)) bound oldend (set_start l (wrap64 (start l + 1)))
               (batch ++ [BDelete (idxKey l idx)])) as (?&?&?).
  done.
Qed.

(** More fuel than [bound - idx] changes nothing: the guard ends the loop. *)
Lemma trim_loop_fuel fuel : ∀ idx bound oldend l batch,
  in_range bound → in_range idx → (Z.to_nat (bound - idx) ≤ fuel)%nat →
  trim_loop fuel idx bound oldend l batch =
  trim_loop (Z.to_nat (bound - idx)) idx bound oldend l batch.
Proof.
  induction fuel as [|fuel IH]; intros idx bound oldend l batch Hb Hi Hfuel.
  - by replace (Z.to_nat (bound - idx)) with 0%nat by lia.
  - destruct (Z.to_nat (bound - idx)) as [|n] eqn:Hn; cbn [trim_loop].
    + replace (idx <? bound) with false by (symmetry; apply Z.ltb_ge; lia). done.
    + destruct (idx <? bound) eqn:Hlt; [|done]. apply Z.ltb_lt in Hlt.
      destruct (idx <=? oldend); [|done]. cbn [andb].
      assert (in_range (idx + 1)) as Hi'.
      { unfold in_range, min_int, max_int in *. lia. }
      rewrite (wrap64_id _ Hi'). rewrite IH by (try done; lia).
      f_equal. lia.
Qed.
End list_loops.

(** ** What a batch of element puts leaves in the store *)

Section list_batches.
Import LevelList.
Context (l : LevelList.t).

Lemma apply_puts_left_other values : ∀ m s k,
  (∀ c, s - Z.of_nat (length values) ≤ c < s → k ≠ idxKey l c) →
  apply_batch m (puts_left l s values) !! k = m !! k.
Proof.
  induction values as [|v vs IH]; intros m s k Hk; [done|].
  cbn [puts_left apply_batch foldl apply_op length] in *.
  unfold apply_batch in IH. rewrite IH.
  - apply lookup_insert_ne. intros Heq. apply (Hk (s - 1)); [lia|done].
  - intros c Hc. apply Hk. lia.
Qed.

Lemma apply_puts_left_at values : ∀ m s j v,
  values !! j = Some v →
  apply_batch m (puts_left l s values) !! idxKey l (s - 1 - Z.of_nat j) = Some v.
Proof.
  induction values as [|v0 vs IH]; intros m s j v Hj; [done|].
  cbn [puts_left apply_batch foldl apply_op].
  destruct j as [|j]; cbn in Hj.
  - injection Hj as ->. fold (apply_batch (<[idxKey l (s - 1) := v]> m) (puts_left l (s - 1) vs)).
    rewrite apply_puts_left_other.
    + replace (s - 1 - Z.of_nat 0) with (s - 1) by lia. apply lookup_insert_eq.
    + intros c Hc Heq. apply idxKey_inj in Heq. lia.
  - fold (apply_batch (<[idxKey l (s - 1) := v0]> m) (puts_left l (s - 1) vs)).
    replace (s - 1 - Z.of_nat (S j)) with (s - 1 - 1 - Z.of_nat j) by lia.
    by apply IH.
Qed.

Lemma apply_puts_right_other values : ∀ m e k,
  (∀ c, e < c ≤ e + Z.of_nat (length values) → k ≠ idxKey l c) →
  apply_batch m (puts_right l e values) !! k = m !! k.
Proof.
  induction values as [|v vs IH]; intros m e k Hk; [done|].
  cbn [puts_right apply_batch foldl apply_op length] in *.
  unfold apply_batch in IH. rewrite IH.
  - apply lookup_insert_ne. intros Heq. apply (Hk (e + 1)); [lia|done].
  - intros c Hc. apply Hk. lia.
Qed.

Lemma apply_puts_right_at values : ∀ m e j v,
  values !! j = Some v →
  apply_batch m (puts_right l e values) !! idxKey l (e + 1 + Z.of_nat j) = Some v.
Proof.
  induction values as [|v0 vs IH]; intros m e j v Hj; [done|].
  cbn [puts_right apply_batch foldl apply_op].
  destruct j as [|j]; cbn in Hj.
  - injection Hj as ->. fold (apply_batch (<[idxKey l (e + 1) := v]> m) (puts_right l (e + 1) vs)).
    rewrite apply_puts_right_other.
    + replace (e + 1 + Z.of_nat 0) with (e + 1) by lia. apply lookup_insert_eq.
    + intros c Hc Heq. apply idxKey_inj in Heq. lia.
  - fold (apply_batch (<[idxKey l (e + 1) := v0]> m) (puts_right l (e + 1) vs)).
    replace (e + 1 + Z.of_nat (S j)) with (e + 1 + 1 + Z.of_nat j) by lia.
    by apply IH.
Qed.
End list_batches.

(** ** Cursors of a non-empty list *)

Section list_cursors.
Import LevelList.
Context (l : LevelList.t).
Hypothesis Hs : in_range (start l).
Hypothesis He : in_range (end_ l).


End list_cursors.

(** ** The list: failures, pops, transactions, trimming *)

Section list_ops.
Import LevelList.

Lemma LPush_write_fails db l e values :
  wfault db = Some e → LPush values db l = (db, l, Some e).
Proof.
  intros Hw. unfold LPush.
  pose proof (lpush_loop_frame values l []) as (Hk & Hend & Htx).
  destruct (lpush_loop values l []) as [l1 batch]. cbn in Hk, Hend, Htx.
  unfold Write. rewrite Hw. do 2 f_equal.
  destruct l, l1; cbn in *. by subst.
Qed.

Lemma RPush_write_fails db l e values :
  wfault db = Some e → RPush values db l = (db, l, Some e).
Proof.
  intros Hw. unfold RPush.
  pose proof (rpush_loop_frame values l []) as (Hk & Hst & Htx).
  destruct (rpush_loop values l []) as [l1 batch]. cbn in Hk, Hst, Htx.
  unfold Write. rewrite Hw. do 2 f_equal.
  destruct l, l1; cbn in *. by subst.
Qed.

Lemma LPop_write_fails db l e :
  wfault db = Some e → rfault db = None → len l ≠ 0 →
  LPop db l = (db, l, Some (mkElement (kv db !! idxKey l (start l))), Some e).
Proof.
  intros Hw Hr Hlen. unfold LPop, Get, Write.
  apply Z.eqb_neq in Hlen. rewrite Hlen, Hr, Hw.
  destruct (len l =? 1); cbn; do 3 f_equal; by destruct l.
Qed.

Lemma RPop_write_fails db l e :
  wfault db = Some e → rfault db = None → len l ≠ 0 →
  RPop db l = (db, l, Some (mkElement (kv db !! idxKey l (end_ l))), Some e).
Proof.
  intros Hw Hr Hlen. unfold RPop, Get, Write.
  apply Z.eqb_neq in Hlen. rewrite Hlen, Hr, Hw.
  destruct (len l =? 1); cbn; do 3 f_equal; by destruct l.
Qed.

Lemma TrimLeft_write_fails db l e count :
  wfault db = Some e → (TrimLeft count db l).1 = (db, l).
Proof.
  intros Hw. unfold TrimLeft.
  destruct (len l =? 0); [done|].
  set (bound := wrap64 (start l + wrap64 count)).
  pose proof (trim_loop_frame (Z.to_nat (bound - start l)) (start l) bound (end_ l) l [])
    as (Hk & Hend & Htx).
  destruct (trim_loop _ _ _ _ l []) as [l1 batch]. cbn in Hk, Hend, Htx.
  unfold Write. rewrite Hw.
  destruct (len l1 =? 0); cbn; f_equal; destruct l, l1; cbn in *; by subst.
Qed.
End list_ops.

(** C3, as amended.  When the engine refuses the batch, [LPush], [RPush],
    [LPop] and [RPop] return the engine's error and leave the list exactly as
    it was before the call (cursors included), the engine being untouched;
    [TrimLeft] restores the list as well, but has no error result. *)
Theorem list_write_failure_rolls_back (db : DB) (l : LevelList.t) (e : error) :
  wfault db = Some e →
  (∀ values, LevelList.LPush values db l = (db, l, Some e)) ∧
  (∀ values, LevelList.RPush values db l = (db, l, Some e)) ∧
  (LevelList.len l ≠ 0 → rfault db = None →
     LevelList.LPop db l =
       (db, l, Some (LevelList.mkElement (kv db !! LevelList.idxKey l (LevelList.start l))), Some e) ∧
     LevelList.RPop db l =
       (db, l, Some (LevelList.mkElement (kv db !! LevelList.idxKey l (LevelList.end_ l))), Some e)) ∧
  (∀ count, (LevelList.TrimLeft count db l).1 = (db, l)).
Proof.
  intros Hw. split_and!.
  - intros. by apply LPush_write_fails.
  - intros. by apply RPush_write_fails.
  - intros. split; [by apply LPop_write_fails|by apply RPop_write_fails].
  - intros. by eapply TrimLeft_write_fails.
Qed.

Lemma list_write_failure_rolls_back_witness :
  let l := LevelList.mk "k" 0 1 false in
  wfault failing_db = Some (EngineError "write refused") ∧
  LevelList.LPush ["x"] failing_db l = (failing_db, l, Some (EngineError "write refused")).
Proof.
  intros l. split; [reflexivity|].
  apply (list_write_failure_rolls_back failing_db l (EngineError "write refused")).
  reflexivity.
Defined.

(** [Add] has no error result and keeps the incremented count although
    nothing was written. *)
Lemma zset_Add_keeps_count_after_failure :
  ¬ zset_Add_rolls_back failing_db (LevelZSet.mk "k" 0) ["1"; "a"].
Proof.
  intros H.
  specialize (H (mk_is_Some _ _ eq_refl) failing_db (LevelZSet.mk "k" 1) 1 eq_refl).
  discriminate H.
Qed.

(** C10.  [TrimLeft] returns 0 whatever it removed: its result [n] is never
    assigned. *)
Theorem TrimLeft_returns_zero (count : Z) (db : DB) (l : LevelList.t) :
  (LevelList.TrimLeft count db l).2 = 0.
Proof. unfold LevelList.TrimLeft. by repeat case_match. Qed.



(** A push and a commit on a list whose transaction is open. *)
Lemma open_transaction (db : DB) (l : LevelList.t) (values : list string) :
  wfault db = None → LevelList.inTransaction l = true →
  in_range (LevelList.start l) → in_range (LevelList.end_ l) →
  min_int ≤ LevelList.start l - Z.of_nat (length values) →
  LevelList.end_ l + Z.of_nat (length values) ≤ max_int →
  let n := Z.of_nat (length values) in
  let written batch := mkDB (apply_batch (kv db) batch) (rfault db) None in
  let dbl := written (puts_left l (LevelList.start l) values) in
  let dbr := written (puts_right l (LevelList.end_ l) values) in
  (LevelList.LPush values db l = (dbl, LevelList.set_start l (LevelList.start l - n), None) ∧
   (∀ j v, values !! j = Some v →
      kv dbl !! LevelList.idxKey l (LevelList.start l - 1 - Z.of_nat j) = Some v) ∧
   kv dbl !! LevelList.infoKey l = kv db !! LevelList.infoKey l) ∧
  (LevelList.RPush values db l = (dbr, LevelList.set_end l (LevelList.end_ l + n), None) ∧
   (∀ j v, values !! j = Some v →
      kv dbr !! LevelList.idxKey l (LevelList.end_ l + 1 + Z.of_nat j) = Some v) ∧
   kv dbr !! LevelList.infoKey l = kv db !! LevelList.infoKey l) ∧
  (let db1 := written [if LevelList.len l =? 0 then BDelete (LevelList.infoKey l)
                       else BPut (LevelList.infoKey l) (LevelList.infoValue l)] in
   let l1 := LevelList.set_inTransaction l false in
   LevelList.Commit db l = (db1, l1) ∧
   LevelList.Commit db1 l1 = (db1, l1)) ∧
  LevelList.BeginTransaction l = l.
Proof.
  intros Hw Htx Hs He Hlo Hhi n written dbl dbr.
  unfold in_range in Hs, He. split_and!.
  - unfold LevelList.LPush. rewrite lpush_loop_spec by lia.
    cbn [LevelList.inTransaction LevelList.set_start]. rewrite Htx.
    unfold Write. by rewrite Hw.
  - intros j v Hj. by apply apply_puts_left_at.
  - apply apply_puts_left_other. intros c _. apply infoKey_idxKey.
  - unfold LevelList.RPush. rewrite rpush_loop_spec by lia.
    cbn [LevelList.inTransaction LevelList.set_end]. rewrite Htx.
    unfold Write. by rewrite Hw.
  - intros j v Hj. by apply apply_puts_right_at.
  - apply apply_puts_right_other. intros c _. apply infoKey_idxKey.
  - unfold LevelList.Commit, Delete, Put, Write. rewrite Htx, Hw.
    by destruct (LevelList.len l =? 0).
  - unfold LevelList.BeginTransaction. by rewrite Htx.
Qed.

(** C9.  [BeginTransaction] opens a transaction and changes nothing else; on
    an open transaction it does nothing.  While the transaction is open and
    the engine accepts writes, a push moves the cursor in memory and writes
    exactly the element keys, so the info key stays as it was in the engine.
    [Commit] on an open transaction issues one write, a put of the info key
    with the text [start,end] of the cursors or its deletion when the list
    is empty, touches no other key and closes the transaction; a further
    [Commit], like any [Commit] without an open transaction, changes neither
    the engine nor the list. *)
Theorem transaction_spec (db : DB) (l : LevelList.t) (values : list string) :
  wfault db = None →
  in_range (LevelList.start l) → in_range (LevelList.end_ l) →
  min_int ≤ LevelList.start l - Z.of_nat (length values) →
  LevelList.end_ l + Z.of_nat (length values) ≤ max_int →
  let n := Z.of_nat (length values) in
  let lb := LevelList.BeginTransaction l in
  let ll := LevelList.mk (LevelList.entryKey l) (LevelList.start l - n) (LevelList.end_ l)
              true in
  let lr := LevelList.mk (LevelList.entryKey l) (LevelList.start l) (LevelList.end_ l + n)
              true in
  let written d batch := mkDB (apply_batch (kv d) batch) (rfault d) None in
  let dbl := written db (puts_left l (LevelList.start l) values) in
  let dbr := written db (puts_right l (LevelList.end_ l) values) in
  let record x := FormatInt (LevelList.start x) +:+ "," +:+ FormatInt (LevelList.end_ x) in
  (lb = LevelList.mk (LevelList.entryKey l) (LevelList.start l) (LevelList.end_ l) true ∧
   LevelList.BeginTransaction lb = lb) ∧
  (LevelList.LPush values db lb = (dbl, ll, None) ∧
   (∀ j v, values !! j = Some v →
      kv dbl !! LevelList.idxKey l (LevelList.start l - 1 - Z.of_nat j) = Some v) ∧
   kv dbl !! LevelList.infoKey l = kv db !! LevelList.infoKey l) ∧
  (LevelList.RPush values db lb = (dbr, lr, None) ∧
   (∀ j v, values !! j = Some v →
      kv dbr !! LevelList.idxKey l (LevelList.end_ l + 1 + Z.of_nat j) = Some v) ∧
   kv dbr !! LevelList.infoKey l = kv db !! LevelList.infoKey l) ∧
  (∀ d x, (d, x) ∈ [(db, lb); (dbl, ll); (dbr, lr)] →
     let d1 := written d [if LevelList.len x =? 0 then BDelete (LevelList.infoKey l)
                          else BPut (LevelList.infoKey l) (record x)] in
     let x1 := LevelList.mk (LevelList.entryKey l) (LevelList.start x) (LevelList.end_ x)
                 false in
     LevelList.Commit d x = (d1, x1) ∧
     kv d1 !! LevelList.infoKey l
       = (if LevelList.len x =? 0 then None else Some (record x)) ∧
     (∀ k, k ≠ LevelList.infoKey l → kv d1 !! k = kv d !! k) ∧
     LevelList.Commit d1 x1 = (d1, x1)) ∧
  (LevelList.inTransaction l = false → LevelList.Commit db l = (db, l)).
Proof.
  intros Hw Hs He Hlo Hhi n lb ll lr written dbl dbr record.
  destruct l as [ek s e tx]. cbn [LevelList.entryKey LevelList.start LevelList.end_] in *.
  assert (lb = LevelList.mk ek s e true) as Hlb by (unfold lb; by destruct tx).
  pose proof (open_transaction db (LevelList.mk ek s e true) values Hw eq_refl Hs He Hlo Hhi)
    as (Hl & Hr & _).
  cbn [LevelList.entryKey LevelList.start LevelList.end_] in Hl, Hr.
  rewrite (puts_left_entry (LevelList.mk ek s e tx)) in Hl by done.
  rewrite (puts_right_entry (LevelList.mk ek s e tx)) in Hr by done.
  split_and!.
  - exact Hlb.
  - by rewrite Hlb.
  - rewrite Hlb. exact (proj1 Hl).
  - exact (proj1 (proj2 Hl)).
  - exact (proj2 (proj2 Hl)).
  - rewrite Hlb. exact (proj1 Hr).
  - exact (proj1 (proj2 Hr)).
  - exact (proj2 (proj2 Hr)).
  - intros d x Hin.
    assert (wfault d = None ∧ LevelList.inTransaction x = true ∧ LevelList.entryKey x = ek)
      as (Hwd & Htx & Hek).
    { rewrite Hlb in Hin.
      apply elem_of_cons in Hin as [[= -> ->]|Hin]; [done|].
      apply elem_of_cons in Hin as [[= -> ->]|Hin]; [done|].
      apply elem_of_cons in Hin as [[= -> ->]|Hin]; [done|].
      by apply elem_of_nil in Hin. }
    destruct x as [ek' s' e' tx']. cbn in Htx, Hek. subst ek' tx'.
    cbv zeta. cbn [LevelList.start LevelList.end_].
    unfold LevelList.Commit, Delete, Put, Write. cbn [LevelList.inTransaction negb].
    rewrite Hwd. unfold LevelList.set_inTransaction, LevelList.infoValue, record.
    cbn [LevelList.entryKey LevelList.start LevelList.end_ LevelList.inTransaction negb fst].
    destruct (LevelList.len (LevelList.mk ek s' e' true) =? 0) eqn:Hlen;
      unfold written; cbn [kv wfault apply_batch foldl apply_op];
      split_and!; try done.
    + apply lookup_delete_eq.
    + intros k Hk. by apply lookup_delete_ne.
    + apply lookup_insert_eq.
    + intros k Hk. by apply lookup_insert_ne.
  - intros Htx. cbn in Htx. subst tx. reflexivity.
Qed.

(** The whole protocol on the list of [two_db]: the list is read from the
    store, a transaction is opened, two values are pushed on the left and
    the transaction is committed. *)
Lemma transaction_spec_witness :
  let l := LevelList.NewLevelList two_db "k" in
  let pushed := LevelList.LPush ["x"; "y"] two_db (LevelList.BeginTransaction l) in
  let committed := LevelList.Commit pushed.1.1 pushed.1.2 in
  (wfault two_db = None ∧ in_range (LevelList.start l) ∧ in_range (LevelList.end_ l)) ∧
  kv pushed.1.1 !! "__key{k}:list" = Some "0,1" ∧
  pushed.1.2 = LevelList.mk "k" (-2) 1 true ∧
  kv committed.1 !! "__key{k}:list" = Some "-2,1" ∧
  committed.2 = LevelList.mk "k" (-2) 1 false.
Proof.
  intros l pushed committed.
  assert (in_range 0 ∧ in_range 1) as [H0 H1] by (unfold in_range, min_int, max_int; lia).
  split; [done|].
  destruct (transaction_spec two_db l ["x"; "y"] eq_refl H0 H1)
    as (_ & (Hpush & _ & Hinfo) & _ & Hcommit & _);
    [vm_compute; discriminate | vm_compute; discriminate |].
  unfold committed, pushed. rewrite Hpush. cbn [fst snd].
  split; [exact Hinfo|]. split; [reflexivity|].
  match type of Hpush with _ = (?d, ?x, _) =>
    destruct (Hcommit d x) as (Hc & Hrec & _); [apply list_elem_of_further, list_elem_of_here|]
  end.
  rewrite Hc. cbn [fst snd]. split; [exact Hrec | reflexivity].
Defined.

(** ** The list refines the deque *)

Section refinement.
Import LevelList History.

Lemma push_left_model (values xs : list string) :
  foldl (λ acc v, v :: acc) xs values = reverse values ++ xs.
Proof.
  revert xs. induction values as [|v vs IH]; intros xs; [done|].
  cbn [foldl]. by rewrite IH, reverse_cons, <-app_assoc.
Qed.

Lemma push_right_model (values xs : list string) :
  foldl (λ acc v, acc ++ [v]) xs values = xs ++ values.
Proof.
  revert xs. induction values as [|v vs IH]; intros xs; cbn.
  - by rewrite app_nil_r.
  - by rewrite IH, <-app_assoc.
Qed.

(** The info key written at the end of a batch does not touch elements. *)
Lemma lookup_idx_info_put (l : LevelList.t) m batch (tx : bool) v c :
  apply_batch m (if tx then batch else batch ++ [BPut (infoKey l) v]) !! idxKey l c
  = apply_batch m batch !! idxKey l c.
Proof.
  destruct tx; [done|]. unfold apply_batch. rewrite foldl_snoc. cbn.
  apply lookup_insert_ne, infoKey_idxKey.
Qed.

Lemma Inv_len p db l xs :
  Inv p db l xs → p ≤ max_int → len l = Z.of_nat (length xs).
Proof.
  intros (_ & _ & Hlo & Hhi & Hn & Hend & _) Hp. unfold len.
  destruct (end_ l <? start l) eqn:Hlt.
  - apply Z.ltb_lt in Hlt. lia.
  - apply Z.ltb_ge in Hlt. rewrite wrap64_id; [lia|].
    unfold in_range, min_int, max_int in *. lia.
Qed.

Lemma LPush_Inv p db l xs values :
  Inv p db l xs → p + Z.of_nat (length values) ≤ max_int →
  ∃ db' l', LPush values db l = (db', l', None) ∧
            Inv (p + Z.of_nat (length values)) db' l' (reverse values ++ xs).
Proof.
  intros (Hr & Hw & Hlo & Hhi & Hn & Hend & Hget) Hp.
  unfold LPush. rewrite lpush_loop_spec by (unfold min_int, max_int in *; lia).
  cbn [inTransaction set_start app]. unfold Write. rewrite Hw.
  eexists _, _. split; [reflexivity|].
  unfold Inv, Repr. cbn [rfault wfault kv start end_ set_start].
  rewrite length_app, length_reverse. split_and!; try done; try lia.
  intros i x Hi.
  change (idxKey (set_start l ?s) ?c) with (idxKey l c).
  change (infoKey (set_start l ?s)) with (infoKey l).
  rewrite lookup_idx_info_put.
  apply lookup_app_Some in Hi as [Hi|[Hge Hi]].
  - apply reverse_lookup_Some in Hi as [Hi Hlt].
    replace (start l - Z.of_nat (length values) + Z.of_nat i)
      with (start l - 1 - Z.of_nat (length values - S i)) by lia.
    by apply apply_puts_left_at.
  - rewrite length_reverse in Hge, Hi.
    rewrite apply_puts_left_other.
    + replace (start l - Z.of_nat (length values) + Z.of_nat i)
        with (start l + Z.of_nat (i - length values)) by lia.
      by apply Hget.
    + intros c Hc Heq. apply idxKey_inj in Heq. lia.
Qed.

Lemma RPush_Inv p db l xs values :
  Inv p db l xs → p + Z.of_nat (length values) ≤ max_int →
  ∃ db' l', RPush values db l = (db', l', None) ∧
            Inv (p + Z.of_nat (length values)) db' l' (xs ++ values).
Proof.
  intros (Hr & Hw & Hlo & Hhi & Hn & Hend & Hget) Hp.
  unfold RPush. rewrite rpush_loop_spec by (unfold min_int, max_int in *; lia).
  cbn [inTransaction set_end app]. unfold Write. rewrite Hw.
  eexists _, _. split; [reflexivity|].
  unfold Inv, Repr. cbn [rfault wfault kv start end_ set_end].
  rewrite length_app. split_and!; try done; try lia.
  intros i x Hi.
  change (idxKey (set_end l ?s) ?c) with (idxKey l c).
  change (infoKey (set_end l ?s)) with (infoKey l).
  rewrite lookup_idx_info_put.
  apply lookup_app_Some in Hi as [Hi|[Hge Hi]].
  - rewrite apply_puts_right_other; [by apply Hget|].
    apply lookup_lt_Some in Hi.
    intros c Hc Heq. apply idxKey_inj in Heq. lia.
  - replace (start l + Z.of_nat i)
      with (end_ l + 1 + Z.of_nat (i - length xs)) by lia.
    by apply apply_puts_right_at.
Qed.
End refinement.

Section refinement_pops.
Import LevelList History.

Lemma LPop_Inv p db l xs :
  Inv p db l xs → p ≤ max_int →
  ∃ db' l', LPop db l = (db', l', reported (head xs), None) ∧ Inv p db' l' (tail xs).
Proof.
  intros HInv Hp. pose proof (Inv_len _ _ _ _ HInv Hp) as Hlen.
  destruct HInv as (Hr & Hw & Hlo & Hhi & Hn & Hend & Hget).
  unfold LPop, Get, Write. rewrite Hlen.
  destruct xs as [|x [|y r]]; cbn [length head tail] in *.
  - exists db, l. split; [done|]. by unfold Inv, Repr.
  - pose proof (Hget 0%nat x eq_refl) as Hx. rewrite Nat2Z.inj_0, Z.add_0_r in Hx.
    rewrite Hr, Hw, Hx. cbn. eexists _, _. split; [done|].
    unfold Inv, Repr; cbn. split_and!; try done; lia.
  - replace (Z.of_nat (S (S (length r))) =? 0) with false by (symmetry; apply Z.eqb_neq; lia).
    replace (Z.of_nat (S (S (length r))) =? 1) with false by (symmetry; apply Z.eqb_neq; lia).
    pose proof (Hget 0%nat x eq_refl) as Hx. rewrite Nat2Z.inj_0, Z.add_0_r in Hx.
    rewrite Hr, Hw, Hx. rewrite wrap64_id by (unfold in_range, min_int, max_int in *; lia).
    cbn [app]. eexists _, _. split; [done|].
    unfold Inv, Repr; cbn [rfault wfault kv start end_ set_start length].
    split_and!; try done; try lia.
    intros i v Hi.
    change (idxKey (set_start l ?s) ?c) with (idxKey l c).
    change (infoKey (set_start l ?s)) with (infoKey l).
    cbn [apply_batch foldl apply_op].
    rewrite lookup_insert_ne by apply infoKey_idxKey.
    rewrite lookup_delete_ne by (intros Heq; apply idxKey_inj in Heq; lia).
    replace (start l + 1 + Z.of_nat i) with (start l + Z.of_nat (S i)) by lia.
    by apply Hget.
Qed.

Lemma RPop_Inv p db l xs :
  Inv p db l xs → p ≤ max_int →
  ∃ db' l', RPop db l = (db', l', reported (last xs), None) ∧
            Inv p db' l' (removelast xs).
Proof.
  intros HInv Hp. pose proof (Inv_len _ _ _ _ HInv Hp) as Hlen.
  destruct HInv as (Hr & Hw & Hlo & Hhi & Hn & Hend & Hget).
  unfold RPop, Get, Write. rewrite Hlen.
  destruct (last xs) as [x|] eqn:Hlast.
  - apply last_Some in Hlast as [r ->]. rewrite removelast_last.
    rewrite length_app in *. cbn [length] in *.
    assert (kv db !! idxKey l (end_ l) = Some x) as Hx.
    { replace (end_ l) with (start l + Z.of_nat (length r)) by lia.
      apply Hget. by apply list_lookup_middle. }
    replace (Z.of_nat (length r + 1) =? 0) with false by (symmetry; apply Z.eqb_neq; lia).
    rewrite Hr, Hw, Hx. destruct r as [|y r]; cbn [length Nat.add Z.of_nat Z.eqb Pos.eqb].
    + cbn. eexists _, _. split; [done|].
      unfold Inv, Repr; cbn. split_and!; try done; lia.
    + replace (Z.of_nat (S (length r + 1)) =? 1) with false
        by (symmetry; apply Z.eqb_neq; lia).
      rewrite wrap64_id by (unfold in_range, min_int, max_int in *; cbn [length] in *; lia).
      cbn [app]. eexists _, _. split; [done|].
      unfold Inv, Repr; cbn [rfault wfault kv start end_ set_end length] in *.
      split_and!; try done; try lia.
      intros i v Hi.
      change (idxKey (set_end l ?s) ?c) with (idxKey l c).
      change (infoKey (set_end l ?s)) with (infoKey l).
      cbn [apply_batch foldl apply_op].
      rewrite lookup_insert_ne by apply infoKey_idxKey.
      pose proof (lookup_lt_Some _ _ _ Hi) as Hlt. cbn [length] in Hlt.
      rewrite lookup_delete_ne by (intros Heq; apply idxKey_inj in Heq; lia).
      apply Hget. change (y :: r ++ [x]) with ((y :: r) ++ [x]).
      by apply lookup_app_l_Some.
  - apply last_None in Hlast as ->. cbn.
    exists db, l. split; [done|]. by unfold Inv, Repr.
Qed.

Lemma pushed_nonneg o : 0 ≤ pushed o.
Proof. destruct o; cbn; lia. Qed.

Lemma pushes_nonneg ops : 0 ≤ pushes ops.
Proof.
  induction ops as [|o ops IH]; cbn; [done|].
  pose proof (pushed_nonneg o). unfold pushes in IH. lia.
Qed.

(** One call keeps the invariant and answers as the deque does. *)
Lemma step_Inv o p db l xs :
  Inv p db l xs → p + pushed o ≤ max_int →
  ∃ db' l', step o db l = (db', l', reported <$> (deque_step o xs).2) ∧
            Inv (p + pushed o) db' l' (deque_step o xs).1.
Proof.
  intros HInv Hp. destruct o as [values|values| |]; cbn [step deque_step pushed fst snd] in *.
  - destruct (LPush_Inv _ _ _ _ values HInv Hp) as (db' & l' & -> & H').
    rewrite push_left_model. by exists db', l'.
  - destruct (RPush_Inv _ _ _ _ values HInv Hp) as (db' & l' & -> & H').
    rewrite push_right_model. by exists db', l'.
  - rewrite Z.add_0_r in *.
    destruct (LPop_Inv _ _ _ _ HInv Hp) as (db' & l' & -> & H').
    exists db', l'. by destruct xs.
  - rewrite Z.add_0_r in *.
    destruct (RPop_Inv _ _ _ _ HInv Hp) as (db' & l' & -> & H').
    exists db', l'. destruct (last xs) eqn:Hlast; [done|].
    by apply last_None in Hlast as ->.
Qed.

Lemma run_Inv ops : ∀ p db l xs,
  Inv p db l xs → p + pushes ops ≤ max_int →
  ∃ db' l', run ops db l = (db', l', reported <$> (deque_run ops xs).2) ∧
            Inv (p + pushes ops) db' l' (deque_run ops xs).1.
Proof.
  induction ops as [|o ops IH]; intros p db l xs HInv Hp.
  - exists db, l. cbn. split; [done|]. by rewrite Z.add_0_r.
  - cbn [run deque_run pushes foldr] in *. fold (pushes ops) in *.
    pose proof (pushes_nonneg ops) as Hops. pose proof (pushed_nonneg o) as Ho.
    destruct (step_Inv o _ _ _ _ HInv) as (db1 & l1 & -> & H1); [lia|].
    destruct (deque_step o xs) as [xs1 out1]. cbn [fst snd] in *.
    destruct (IH _ _ _ _ H1) as (db2 & l2 & -> & H2); [lia|].
    destruct (deque_run ops xs1) as [xs2 outs2]. cbn [fst snd] in *.
    exists db2, l2. rewrite fmap_app, Z.add_assoc. done.
Qed.

(** A list created on a store without its info key is the empty deque. *)
Lemma NewLevelList_empty db entryKey :
  kv db !! infoKey (mk entryKey 0 (-1) false) = None →
  NewLevelList db entryKey = mk entryKey 0 (-1) false.
Proof.
  intros Hinfo. unfold NewLevelList, initInfo, Get.
  destruct (rfault db); [done|]. by rewrite Hinfo.
Qed.

Lemma Inv_empty db entryKey :
  rfault db = None → wfault db = None →
  Inv 0 db (mk entryKey 0 (-1) false) [].
Proof. intros. by unfold Inv, Repr. Qed.

(** The deque has as many values as the running count of its history. *)
Lemma deque_run_length ops : ∀ xs,
  Z.of_nat (length (deque_run ops xs).1)
  = foldl (λ n o, Z.max 0 (n + pushed o - popped o)) (Z.of_nat (length xs)) ops.
Proof.
  induction ops as [|o ops IH]; intros xs; [done|].
  cbn [deque_run foldl].
  destruct (deque_step o xs) as [xs1 out1] eqn:Hstep.
  specialize (IH xs1). destruct (deque_run ops xs1) as [xs2 outs2]. cbn [fst] in *.
  rewrite IH. clear IH. f_equal.
  destruct o as [values|values| |]; cbn in Hstep.
  - injection Hstep as <- _. rewrite push_left_model, length_app, length_reverse. cbn. lia.
  - injection Hstep as <- _. rewrite push_right_model, length_app. cbn. lia.
  - destruct xs; injection Hstep as <- _; cbn [length popped pushed]; lia.
  - destruct (last xs) as [x|] eqn:Hlast; injection Hstep as <- _.
    + apply last_Some in Hlast as [r ->]. rewrite removelast_last, length_app. cbn. lia.
    + apply last_None in Hlast as ->. cbn. lia.
Qed.
End refinement_pops.

Section deque_order.
Import LevelList History.

Lemma deque_run_app ops1 ops2 xs :
  deque_run (ops1 ++ ops2) xs =
    let d1 := deque_run ops1 xs in
    let d2 := deque_run ops2 d1.1 in
    (d2.1, d1.2 ++ d2.2).
Proof.
  revert xs. induction ops1 as [|o ops1 IH]; intros xs; cbn [app deque_run].
  - cbn. by destruct (deque_run ops2 xs).
  - destruct (deque_step o xs) as [xs1 out1]. rewrite IH.
    destruct (deque_run ops1 xs1) as [xs2 outs2]. cbn.
    destruct (deque_run ops2 xs2). cbn. by rewrite app_assoc.
Qed.

Lemma pushes_app ops1 ops2 : pushes (ops1 ++ ops2) = pushes ops1 + pushes ops2.
Proof.
  unfold pushes. induction ops1 as [|o ops1 IH]; cbn; [done|]. rewrite IH. lia.
Qed.

Lemma pushes_pops n (o : op) : pushed o = 0 → pushes (replicate n o) = 0.
Proof. intros Ho. unfold pushes. induction n as [|n IH]; cbn; [done|]. lia. Qed.

(** In the deque, values pushed right come back from the right, last first. *)
Lemma deque_right_pops values : ∀ xs,
  deque_run (replicate (length values) OpRPop) (xs ++ values)
  = (xs, Some <$> reverse values).
Proof.
  induction values as [|v vs IH] using rev_ind; intros xs.
  - by rewrite app_nil_r.
  - rewrite length_app, Nat.add_comm. cbn [length Nat.add replicate deque_run deque_step].
    rewrite app_assoc, last_snoc, removelast_last, IH.
    by rewrite reverse_app.
Qed.

(** In the deque, values pushed left come back from the left, last first. *)
Lemma deque_left_pops values : ∀ xs,
  deque_run (replicate (length values) OpLPop) (reverse values ++ xs)
  = (xs, Some <$> reverse values).
Proof.
  induction values as [|v vs IH] using rev_ind; intros xs; [done|].
  rewrite length_app, Nat.add_comm, reverse_app.
  cbn [length Nat.add replicate deque_run deque_step reverse app rev_append].
  by rewrite IH.
Qed.
End deque_order.

(** ** What [TrimLeft] removes *)

Section list_trim.
Import LevelList History.

Lemma trims_entry (l l' : LevelList.t) (s : Z) (k : nat) :
  entryKey l' = entryKey l → trims l' s k = trims l s k.
Proof.
  intros He. revert s. induction k as [|k IH]; intros s; cbn [trims]; [done|].
  by rewrite IH, (idxKey_entry l l').
Qed.

(** The loop deletes as many cursors as the count and the window allow. *)
Lemma trim_loop_spec fuel : ∀ bound oldend l batch,
  in_range (start l) → in_range bound → in_range oldend →
  (Z.to_nat (bound - start l) ≤ fuel)%nat →
  let k := Z.to_nat (Z.min (bound - start l) (oldend - start l + 1)) in
  trim_loop fuel (start l) bound oldend l batch
  = (set_start l (start l + Z.of_nat k), batch ++ trims l (start l) k).
Proof.
  induction fuel as [|fuel IH]; intros bound oldend l batch Hs Hb He Hfuel k.
  - cbn [trim_loop]. replace k with 0%nat by lia. cbn [trims].
    rewrite app_nil_r, Z.add_0_r. by destruct l.
  - cbn [trim_loop].
    destruct (start l <? bound) eqn:Hlt; cbn [andb].
    2:{ apply Z.ltb_ge in Hlt. replace k with 0%nat by lia. cbn [trims].
        rewrite app_nil_r, Z.add_0_r. by destruct l. }
    apply Z.ltb_lt in Hlt.
    destruct (start l <=? oldend) eqn:Hle.
    2:{ apply Z.leb_gt in Hle. replace k with 0%nat by lia. cbn [trims].
        rewrite app_nil_r, Z.add_0_r. by destruct l. }
    apply Z.leb_le in Hle.
    assert (in_range (start l + 1)) as Hs' by (unfold in_range in *; lia).
    rewrite (wrap64_id _ Hs').
    pose proof (IH bound oldend (set_start l (start l + 1))
                  (batch ++ [BDelete (idxKey l (start l))])) as IH'.
    cbn [start set_start] in IH'. cbv zeta in IH'.
    rewrite IH' by (try done; lia). clear IH IH'.
    rewrite (trims_entry l) by done.
    destruct k as [|k'] eqn:Hk; [lia|].
    replace (Z.to_nat (Z.min (bound - (start l + 1)) (oldend - (start l + 1) + 1)))
      with k' by lia.
    cbn [trims]. rewrite <-app_assoc. cbn [app].
    unfold set_start; cbn. do 2 f_equal. lia.
Qed.

Lemma apply_trims_in (l : LevelList.t) k : ∀ m s c,
  s ≤ c < s + Z.of_nat k → apply_batch m (trims l s k) !! idxKey l c = None.
Proof.
  induction k as [|k IH]; intros m s c Hc; [lia|].
  cbn [trims apply_batch foldl apply_op].
  fold (apply_batch (delete (idxKey l s) m) (trims l (s + 1) k)).
  destruct (Z.eq_dec c s) as [->|Hne].
  - clear IH Hc. generalize (s + 1). intros s'.
    assert (∀ m', m' !! idxKey l s = None →
              apply_batch m' (trims l s' k) !! idxKey l s = None) as Hkeep.
    { revert s'. induction k as [|k IH]; intros s' m' Hm'; [done|].
      cbn [trims apply_batch foldl apply_op].
      apply (IH (s' + 1)). rewrite lookup_delete. by case_decide. }
    apply Hkeep, lookup_delete_eq.
  - apply IH. lia.
Qed.

Lemma apply_trims_other (l : LevelList.t) k : ∀ m s key,
  (∀ c, s ≤ c < s + Z.of_nat k → key ≠ idxKey l c) →
  apply_batch m (trims l s k) !! key = m !! key.
Proof.
  induction k as [|k IH]; intros m s key Hkey; [done|].
  cbn [trims apply_batch foldl apply_op].
  fold (apply_batch (delete (idxKey l s) m) (trims l (s + 1) k)).
  rewrite IH by (intros c Hc; apply Hkey; lia).
  apply lookup_delete_ne. intros Heq. apply (Hkey s); [lia|done].
Qed.

(** On a healthy engine [TrimLeft count] leaves the list without its first
    [count] values (without all of them when it holds fewer), and returns 0. *)
Lemma TrimLeft_Inv p db l xs count :
  Inv p db l xs → p ≤ max_int → 0 ≤ count → p + count ≤ max_int →
  ∃ db' l', TrimLeft count db l = (db', l', 0) ∧
            Inv p db' l' (drop (Z.to_nat count) xs).
Proof.
  intros HInv Hp Hc Hpc. pose proof (Inv_len _ _ _ _ HInv Hp) as Hlen.
  destruct HInv as (Hr & Hw & Hlo & Hhi & Hn & Hend & Hget).
  unfold TrimLeft. rewrite Hlen.
  destruct (Z.of_nat (length xs) =? 0) eqn:H0.
  { apply Z.eqb_eq in H0. destruct xs; [|cbn in H0; lia].
    exists db, l. rewrite drop_nil. by unfold Inv, Repr. }
  apply Z.eqb_neq in H0.
  rewrite (wrap64_id count) by (unfold in_range, min_int, max_int in *; lia).
  rewrite (wrap64_id (start l + count)) by (unfold in_range, min_int, max_int in *; lia).
  rewrite trim_loop_spec by (unfold in_range, min_int, max_int in *; lia).
  set (k := Z.to_nat (Z.min (start l + count - start l) (end_ l - start l + 1))).
  assert (k = Nat.min (Z.to_nat count) (length xs)) as Hk by lia.
  unfold len. cbn [start end_ set_start set_cursors].
  destruct (end_ l <? start l + Z.of_nat k) eqn:Hall.
  - apply Z.ltb_lt in Hall. cbn [Z.eqb]. unfold Write. rewrite Hw.
    eexists _, _. split; [done|].
    rewrite drop_ge by lia. unfold Inv, Repr. cbn. split_and!; try done; lia.
  - apply Z.ltb_ge in Hall.
    rewrite wrap64_id by (unfold in_range, min_int, max_int in *; lia).
    replace (end_ l - (start l + Z.of_nat k) + 1 =? 0) with false
      by (symmetry; apply Z.eqb_neq; lia).
    unfold Write. rewrite Hw. eexists _, _. split; [done|].
    assert (k = Z.to_nat count) as Hk' by lia.
    unfold Inv, Repr. cbn [rfault wfault kv start end_ set_start app].
    rewrite length_drop. split_and!; try done; try lia.
    intros i x Hi. rewrite lookup_drop in Hi.
    change (idxKey (set_start l ?s) ?c) with (idxKey l c).
    change (infoKey (set_start l ?s)) with (infoKey l).
    unfold apply_batch. rewrite foldl_snoc. cbn [apply_op].
    rewrite lookup_insert_ne by apply infoKey_idxKey.
    fold (apply_batch (kv db) (trims l (start l) k)).
    rewrite apply_trims_other by (intros c Hcur Heq; apply idxKey_inj in Heq; lia).
    replace (start l + Z.of_nat k + Z.of_nat i)
      with (start l + Z.of_nat (Z.to_nat count + i)) by lia.
    by apply Hget.
Qed.
End list_trim.

(** Every history on a list created empty keeps the invariant and answers
    as the deque does. *)
Lemma history_Inv (db : DB) (entryKey : string) (ops : list History.op) :
  rfault db = None → wfault db = None →
  kv db !! LevelList.infoKey (LevelList.mk entryKey 0 (-1) false) = None →
  History.pushes ops ≤ max_int →
  ∃ db' l', History.run ops db (LevelList.NewLevelList db entryKey)
            = (db', l', History.reported <$> (History.deque_run ops []).2) ∧
            History.Inv (History.pushes ops) db' l' (History.deque_run ops []).1.
Proof.
  intros Hr Hw Hinfo Hp. rewrite NewLevelList_empty by done.
  destruct (run_Inv ops 0 _ _ _ (Inv_empty db entryKey Hr Hw)) as (db' & l' & Hrun & HInv); [lia|].
  exists db', l'. by rewrite Z.add_0_l in HInv.
Qed.

(** C7, as amended.  For a history of pushes and pops on a list created empty
    on a healthy engine (fewer than 2^63 values pushed): the final length is
    the running count of the history, in which a pop of an empty list takes
    nothing away; every pop returns what the deque of the specification
    returns; and values pushed right (left) in one call and popped right
    (left) straight after come back in reverse push order. *)
Theorem deque_refinement (db : DB) (entryKey : string) (ops : list History.op) :
  rfault db = None → wfault db = None →
  kv db !! LevelList.infoKey (LevelList.mk entryKey 0 (-1) false) = None →
  History.pushes ops ≤ max_int →
  let l0 := LevelList.NewLevelList db entryKey in
  let r := History.run ops db l0 in
  let d := History.deque_run ops [] in
  LevelList.Len r.1.2 = History.live ops ∧
  LevelList.Len r.1.2 = Z.of_nat (length d.1) ∧
  r.2 = History.reported <$> d.2 ∧
  ∀ values, History.pushes ops + Z.of_nat (length values) ≤ max_int →
    (History.run (ops ++ History.OpRPush values
                   :: replicate (length values) History.OpRPop) db l0).2
      = r.2 ++ (History.reported <$> (Some <$> reverse values)) ∧
    (History.run (ops ++ History.OpLPush values
                   :: replicate (length values) History.OpLPop) db l0).2
      = r.2 ++ (History.reported <$> (Some <$> reverse values)).
Proof.
  intros Hr Hw Hinfo Hp l0 r d.
  pose proof (λ ops', history_Inv db entryKey ops' Hr Hw Hinfo) as Hrun. fold l0 in Hrun.
  destruct (Hrun ops Hp) as (db' & l' & Hr' & HInv).
  assert (LevelList.Len r.1.2 = Z.of_nat (length d.1)) as Hlen.
  { unfold r. rewrite Hr'. by apply (Inv_len _ _ _ _ HInv). }
  split_and!.
  - rewrite Hlen. unfold d, History.live. by rewrite deque_run_length.
  - done.
  - unfold r. by rewrite Hr'.
  - intros values Hv. unfold r. rewrite Hr'. cbn [snd]. split.
    + destruct (Hrun (ops ++ History.OpRPush values
                        :: replicate (length values) History.OpRPop)) as (? & ? & -> & _).
      { rewrite pushes_app. cbn [History.pushes foldr History.pushed].
        fold (History.pushes (replicate (length values) History.OpRPop)).
        rewrite pushes_pops by done. lia. }
      cbn [snd]. rewrite deque_run_app. cbn [History.deque_run History.deque_step snd fst app].
      rewrite push_right_model, deque_right_pops. cbn [fst snd app].
      by rewrite fmap_app.
    + destruct (Hrun (ops ++ History.OpLPush values
                        :: replicate (length values) History.OpLPop)) as (? & ? & -> & _).
      { rewrite pushes_app. cbn [History.pushes foldr History.pushed].
        fold (History.pushes (replicate (length values) History.OpLPop)).
        rewrite pushes_pops by done. lia. }
      cbn [snd]. rewrite deque_run_app. cbn [History.deque_run History.deque_step snd fst app].
      rewrite push_left_model, deque_left_pops. cbn [fst snd app].
      by rewrite fmap_app.
Qed.

Lemma deque_refinement_witness :
  let ops := [History.OpRPush ["a"; "b"]; History.OpLPush ["x"]; History.OpRPop; History.OpLPop] in
  (rfault empty_db = None ∧ wfault empty_db = None ∧ History.pushes ops ≤ max_int) ∧
  (History.run ops empty_db (LevelList.NewLevelList empty_db "k")).2
    = [Some (LevelList.mkElement (Some "b")); Some (LevelList.mkElement (Some "x"))].
Proof.
  intros ops.
  assert (History.pushes ops ≤ max_int) as Hp by (vm_compute; discriminate).
  split; [done|].
  destruct (deque_refinement empty_db "k" ops eq_refl eq_refl eq_refl Hp) as (_ & _ & Houts & _).
  exact Houts.
Defined.

(** A pop of the empty list followed by a push: one push, one pop, length 1. *)
Lemma pop_before_push_length :
  ¬ History.length_is_pushes_minus_pops empty_db "k"
      [History.OpLPop; History.OpRPush ["a"]].
Proof. vm_compute. discriminate. Qed.

(** C8.  After any history of pushes and pops on a list created empty on a
    healthy engine: [Index i] returns no element and no error when [i < 0] or
    [i >= length]; for [0 <= i < length] it returns the value read at cursor
    [start + i], which is the value the deque of the specification holds at
    position [i]. *)
Theorem Index_spec (db : DB) (entryKey : string) (ops : list History.op) (i : Z) :
  rfault db = None → wfault db = None →
  kv db !! LevelList.infoKey (LevelList.mk entryKey 0 (-1) false) = None →
  History.pushes ops ≤ max_int →
  let r := History.run ops db (LevelList.NewLevelList db entryKey) in
  let db' := r.1.1 in
  let l' := r.1.2 in
  let xs := (History.deque_run ops []).1 in
  LevelList.Len l' = Z.of_nat (length xs) ∧
  (i < 0 ∨ LevelList.Len l' ≤ i → LevelList.Index i db' l' = (None, None)) ∧
  (0 ≤ i < LevelList.Len l' →
     LevelList.Index i db' l' =
       (Some (LevelList.mkElement
                (kv db' !! LevelList.idxKey l' (LevelList.start l' + i))), None) ∧
     kv db' !! LevelList.idxKey l' (LevelList.start l' + i) = xs !! Z.to_nat i ∧
     is_Some (xs !! Z.to_nat i)).
Proof.
  intros Hr Hw Hinfo Hp r db' l' xs.
  destruct (history_Inv db entryKey ops Hr Hw Hinfo Hp) as (db1 & l1 & Hrun & HInv).
  unfold db', l', r. rewrite Hrun. cbn [fst snd]. fold xs in HInv.
  pose proof (Inv_len _ _ _ _ HInv Hp) as Hlen.
  destruct HInv as (Hr1 & Hw1 & Hlo & Hhi & Hn & Hend & Hget).
  unfold LevelList.Len. split_and!; [done| |].
  - intros Hout. unfold LevelList.Index.
    destruct (i <? 0) eqn:Hneg; [done|]. apply Z.ltb_ge in Hneg.
    replace (i >=? LevelList.len l1) with true; [done|].
    symmetry. apply Z.geb_le. lia.
  - intros Hin. rewrite Hlen in Hin.
    assert (Z.to_nat i < length xs)%nat as Hlt by lia.
    destruct (lookup_lt_is_Some_2 xs _ Hlt) as [x Hx].
    pose proof (Hget _ _ Hx) as Hkv. rewrite Z2Nat.id in Hkv by lia.
    rewrite Hkv, Hx. split_and!; [|done|done].
    unfold LevelList.Index, Get.
    replace (i <? 0) with false by (symmetry; apply Z.ltb_ge; lia).
    replace (i >=? LevelList.len l1) with false
      by (symmetry; rewrite Z.geb_leb; apply Z.leb_gt; lia).
    rewrite wrap64_id by (unfold in_range, min_int, max_int in *; lia).
    cbn [orb]. by rewrite Hr1, Hkv.
Qed.

Lemma Index_spec_witness :
  let ops := [History.OpRPush ["a"; "b"]; History.OpLPush ["x"]] in
  let r := History.run ops empty_db (LevelList.NewLevelList empty_db "k") in
  (rfault empty_db = None ∧ wfault empty_db = None ∧ History.pushes ops ≤ max_int) ∧
  LevelList.Index 1 r.1.1 r.1.2 = (Some (LevelList.mkElement (Some "a")), None) ∧
  LevelList.Index 3 r.1.1 r.1.2 = (None, None).
Proof.
  intros ops r.
  assert (History.pushes ops ≤ max_int) as Hp by (vm_compute; discriminate).
  split; [done|].
  destruct (Index_spec empty_db "k" ops 1 eq_refl eq_refl eq_refl Hp) as (_ & _ & Hin).
  destruct (Index_spec empty_db "k" ops 3 eq_refl eq_refl eq_refl Hp) as (_ & Hout & _).
  split.
  - destruct Hin as (Hidx & Hval & _); [vm_compute; split; [discriminate|reflexivity]|].
    etrans; [exact Hidx|]. by rewrite Hval.
  - apply Hout. right. vm_compute. discriminate.
Defined.

(** ** What [Drop] of a sorted set can reach *)

Section zset_drop.
Import LevelZSet.

(** The batch a delete-every-key callback collects. *)
Lemma enum_deletes es : ∀ i (batch : WriteBatch),
  enum_loop (λ _ key _ batch, (batch ++ [BDelete key], false)) i es batch
  = batch ++ (BDelete ∘ fst <$> es).
Proof.
  induction es as [|[k v] es IH]; intros i batch; cbn [enum_loop fmap list_fmap].
  - by rewrite app_nil_r.
  - by rewrite IH, <-app_assoc.
Qed.

Lemma apply_deletes_other (keys : list string) : ∀ m (k : string),
  k ∉ keys → apply_batch m (BDelete <$> keys) !! k = m !! k.
Proof.
  induction keys as [|k' keys IH]; intros m k Hk; [done|].
  apply not_elem_of_cons in Hk as [Hne Hk].
  cbn. unfold apply_batch in IH. rewrite IH by done. by apply lookup_delete_ne.
Qed.

Lemma scan_between db lo hi d k v :
  (k, v) ∈ scan db lo hi d → key_between lo hi k = true.
Proof.
  unfold scan. intros Hin.
  assert ((k, v) ∈ merge_sort key_le
            (filter (λ e, key_between lo hi e.1 = true) (map_to_list (kv db)))) as Hin'.
  { destruct d; [done|]. by apply elem_of_reverse. }
  rewrite merge_sort_Permutation in Hin'.
  by apply list_elem_of_filter in Hin' as [? _].
Qed.

(** No key under [ZSET_PREFIX] lies in the interval [Drop] scans. *)
Lemma zset_key_outside (z : LevelZSet.t) (rest : string) :
  let min := joinStringBytes [KEY_PREFIX; SEP_LEFT; key z; SEP_RIGHT] in
  key_between min (min +:+ MAXBYTE) (ZSET_PREFIX +:+ rest) = false.
Proof. unfold key_between. apply andb_false_intro2. vm_compute. reflexivity. Qed.

Lemma zsetKey_not_index (z : LevelZSet.t) (rest : string) :
  ZSET_PREFIX +:+ rest ≠ zsetKey z.
Proof. unfold zsetKey, joinStringBytes. vm_compute. discriminate. Qed.

(** For every sorted set and every engine, [Drop] leaves every key under
    [ZSET_PREFIX], hence every member-index and score-index entry, as it
    was. *)
Lemma zset_Drop_keeps_zset_keys (db : DB) (z : LevelZSet.t) (rest : string) :
  kv (Drop db z).1.1 !! (ZSET_PREFIX +:+ rest) = kv db !! (ZSET_PREFIX +:+ rest).
Proof.
  unfold Drop. destruct (totalCount z =? 0); [done|].
  unfold Write. destruct (wfault db); [done|]. cbn [fst kv].
  unfold Enumerate. rewrite enum_deletes. cbn [app].
  unfold apply_batch. rewrite foldl_snoc. cbn [apply_op].
  rewrite lookup_delete_ne by (intros Heq; by apply (zsetKey_not_index z rest)).
  rewrite list_fmap_compose. apply apply_deletes_other.
  intros Hin. apply list_elem_of_fmap in Hin as ([k v] & Hk & Hin). cbn in Hk. subst k.
  apply scan_between in Hin. by rewrite zset_key_outside in Hin.
Qed.

Lemma zset_Drop_keeps_members (db : DB) (z : LevelZSet.t) (member score : string) :
  kv (Drop db z).1.1 !! memberKey z member = kv db !! memberKey z member ∧
  kv (Drop db z).1.1 !! scoreKey z member score = kv db !! scoreKey z member score.
Proof. split; apply zset_Drop_keeps_zset_keys. Qed.
End zset_drop.

(** ** The sorted set *)

(** [IncrBy] initialises the cached count and never changes it afterwards. *)
Lemma zset_IncrBy_count (member : string) (incr : Z) (db : DB) (z : LevelZSet.t) :
  (LevelZSet.IncrBy member incr db z).1.2 = LevelZSet.initOnce db z.
Proof. unfold LevelZSet.IncrBy. by repeat case_match. Qed.

(** C1 at a set of two members.  [Drop] scans the keys under [KEY_PREFIX],
    not those under [ZSET_PREFIX]: it removes the count record and resets the
    cached count, and every member-index and score-index entry is still in
    the engine afterwards. *)
Theorem zset_Drop_leaves_index :
  ∃ db1 z1 n,
    LevelZSet.Add ["1"; "a"; "2"; "b"] empty_db (LevelZSet.NewLevelZSet "k") = Some (db1, z1, n) ∧
    let r := LevelZSet.Drop db1 z1 in
    let db2 := r.1.1 in
    let z2 := r.1.2 in
    r.2 = true ∧ LevelZSet.totalCount z2 = 0 ∧
    kv db2 !! LevelZSet.zsetKey z2 = None ∧
    kv db2 !! LevelZSet.memberKey z2 "a" = Some "1" ∧
    kv db2 !! LevelZSet.memberKey z2 "b" = Some "2" ∧
    scan db2 (LevelZSet.scoreKeyPrefix z2) (LevelZSet.scoreKeyPrefix z2 +:+ MAXBYTE)
         IteratorForward
      = [("__zset{k}s#1#a", EmptyString); ("__zset{k}s#2#b", EmptyString)].
Proof. eexists _, _, _. split; [vm_compute; reflexivity|]. vm_compute. done. Qed.

(** C2 at a new member.  [IncrBy] on a member the set does not hold writes
    its member-index and score-index entries, but neither counts it nor
    writes the count record: the set has one member and length 0. *)
Theorem zset_IncrBy_new_member_uncounted :
  let r := LevelZSet.IncrBy "a" 5 empty_db (LevelZSet.NewLevelZSet "k") in
  let db1 := r.1.1 in
  let z1 := r.1.2 in
  r.2 = "5" ∧
  LevelZSet.Score db1 z1 "a" = Some "5" ∧
  kv db1 !! LevelZSet.scoreKey z1 "a" "5" = Some EmptyString ∧
  LevelZSet.totalCount z1 = 0 ∧
  kv db1 !! LevelZSet.zsetKey z1 = None ∧
  (LevelZSet.Len db1 (LevelZSet.NewLevelZSet "k")).2 = 0.
Proof. vm_compute. done. Qed.

(** The sibling path: [Add] of the same new member counts it. *)
Example zset_Add_new_member_counted :
  ∃ db1 z1 n,
    LevelZSet.Add ["5"; "a"] empty_db (LevelZSet.NewLevelZSet "k") = Some (db1, z1, n) ∧
    LevelZSet.totalCount z1 = 1 ∧ kv db1 !! LevelZSet.zsetKey z1 = Some "1".
Proof. eexists _, _, _. split; [vm_compute; reflexivity|]. vm_compute. done. Qed.

(** The sibling path of C1: [Drop] of the list scans its own element keys. *)
Example list_Drop_removes_elements :
  let r := LevelList.Drop two_db (LevelList.mk "k" 0 1 false) in
  kv r.1.1 = ∅ ∧ r.1.2 = LevelList.mk "k" 0 (-1) false.
Proof. vm_compute. done. Qed.

(** [TrimLeft] of three elements out of four deletes them and returns 0. *)
Example TrimLeft_three_of_four :
  let r0 := LevelList.RPush ["a"; "b"; "c"; "d"] empty_db (LevelList.NewLevelList empty_db "k") in
  let r := LevelList.TrimLeft 3 r0.1.1 r0.1.2 in
  r.2 = 0 ∧ LevelList.Len r.1.2 = 1 ∧
  kv r.1.1 = {[ "__key{k}:list" := "3,3"; "__list{k}idx:3" := "d" ]}.
Proof. vm_compute. done. Qed.

(** ** The document *)

(** C4 at a one-field document.  The segment [x] of the path [x.b] is missing
    in the document; the walk goes on to the next segment in the mapping it
    is in, so the path contributes the top-level field [b]. *)
Theorem RichGet_missing_segment_contributes :
  MapDocument.RichGet {[ "b" := MapDocument.VInt 1 ]} ["x.b"]
  = {[ "b" := MapDocument.VInt 1 ]}.
Proof. vm_compute. done. Qed.

(** A requested sub-tree that is a mapping comes back empty. *)
Example RichGet_mapping_subtree :
  MapDocument.RichGet
    {[ "a" := MapDocument.VMap {[ "b" := MapDocument.VInt 1; "c" := MapDocument.VInt 2 ]} ]}
    ["a"]
  = {[ "a" := MapDocument.VMap ∅ ]}.
Proof. vm_compute. done. Qed.

(** A leaf under mappings that are all present is copied with its parents. *)
Example RichGet_leaf :
  MapDocument.RichGet
    {[ "a" := MapDocument.VMap {[ "b" := MapDocument.VInt 1; "c" := MapDocument.VInt 2 ]} ]}
    ["a.b"]
  = {[ "a" := MapDocument.VMap {[ "b" := MapDocument.VInt 1 ]} ]}.
Proof. vm_compute. done. Qed.

Section doc_inc.
Import MapDocument DocSpec.

(** A single [$inc] entry with a single field is one [findElement] with
    create-semantics followed by [doIncr]. *)
Lemma RichSet_inc_single data field delta :
  RichSet (inc_update field delta) data
  = Some (findElement data field true (λ parent key _, doIncr parent key delta) None).
Proof.
  unfold RichSet, inc_update, each_field. rewrite map_to_list_singleton. cbn [foldl fst snd mbind option_bind].
  unfold rich_entry.
  change (negb (HasPrefix "$inc" "$")) with false. cbn match.
  change (String.substring 1 (String.length "$inc" - 1) "$inc") with "inc".
  change ("inc" =? "set")%string with false.
  change ("inc" =? "rpush")%string with false.
  change ("inc" =? "inc")%string with true. cbn match.
  cbn [as_map mbind option_bind]. unfold each_field.
  rewrite map_to_list_singleton. done.
Qed.

Lemma leaf_empty inner key : leaf inner key ∅ = None.
Proof. destruct inner; cbn; by rewrite lookup_empty. Qed.

Lemma walk_inc_absent delta key inner : ∀ m,
  absent (leaf inner key m) →
  ∃ m', walk true inner m (λ parent, doIncr parent key delta) None = (m', None) ∧
        leaf inner key m' = Some delta.
Proof.
  induction inner as [|cur rest IH]; intros m Habs; cbn [walk leaf] in *.
  - unfold doIncr, index. destruct Habs as [-> | ->]; cbn;
      eexists; (split; [done|]); apply lookup_insert_eq.
  - destruct (m !! cur) as [[| | | | | |sub]|] eqn:Hcur;
      try (destruct (IH ∅) as (m' & -> & Hm'); [left; apply leaf_empty|];
           eexists; split; [done|]; by rewrite lookup_insert_eq).
    destruct (IH sub Habs) as (m' & -> & Hm').
    eexists; split; [done|]. by rewrite lookup_insert_eq.
Qed.

Lemma walk_inc_numeric delta key inner : ∀ m o,
  leaf inner key m = Some o → numeric o = true → numeric delta = true →
  ∃ m', walk true inner m (λ parent, doIncr parent key delta) None = (m', None) ∧
        leaf inner key m' = Some (VInt (wrap64 ((toInt o).1 + (toInt delta).1))).
Proof.
  induction inner as [|cur rest IH]; intros m o Ho Hno Hnd; cbn [walk leaf] in *.
  - unfold doIncr, index. rewrite Ho. cbn [default].
    destruct o; try done; destruct delta; try done; cbn;
      eexists; (split; [done|]); apply lookup_insert_eq.
  - destruct (m !! cur) as [[| | | | | |sub]|] eqn:Hcur; try done.
    destruct (IH sub o Ho Hno Hnd) as (m' & -> & Hm').
    eexists; split; [done|]. by rewrite lookup_insert_eq.
Qed.

Lemma walk_inc_mismatch delta key inner : ∀ m o,
  leaf inner key m = Some o → o ≠ VNil →
  numeric o = false ∨ numeric delta = false →
  walk true inner m (λ parent, doIncr parent key delta) None = (m, Some BadArgumentType).
Proof.
  induction inner as [|cur rest IH]; intros m o Ho Hnil Hbad; cbn [walk leaf] in *.
  - unfold doIncr, index. rewrite Ho. cbn [default].
    destruct Hbad as [Hbad|Hbad].
    + destruct o; try done; by destruct (toInt delta) as [? []].
    + destruct o; try done; by destruct delta.
  - destruct (m !! cur) as [[| | | | | |sub]|] eqn:Hcur; try done.
    rewrite (IH sub o Ho Hnil Hbad). by rewrite insert_id.
Qed.
End doc_inc.

(** C5, as amended.  [richSet] with the single update [{"$inc": {field:
    delta}}]: when the leaf is absent (or nil) it is created holding [delta]
    as given, numeric or not, without error; when the leaf and [delta] are
    both numeric the leaf becomes the integer sum of the two, each converted
    to an integer first; when the leaf exists and the leaf or [delta] is not
    numeric, the call reports the type-mismatch error and leaves the document
    as it was. *)
Theorem RichSet_inc_spec (data : gmap string MapDocument.value) (field : string)
    (delta : MapDocument.value) :
  let old := DocSpec.lookup_field data field in
  let result := MapDocument.RichSet (DocSpec.inc_update field delta) data in
  (DocSpec.absent old →
     ∃ data', result = Some (data', None) ∧ DocSpec.lookup_field data' field = Some delta) ∧
  (∀ o, old = Some o → DocSpec.numeric o = true → DocSpec.numeric delta = true →
     ∃ data', result = Some (data', None) ∧
       DocSpec.lookup_field data' field
       = Some (MapDocument.VInt
                 (wrap64 ((MapDocument.toInt o).1 + (MapDocument.toInt delta).1)))) ∧
  (∀ o, old = Some o → o ≠ MapDocument.VNil →
     DocSpec.numeric o = false ∨ DocSpec.numeric delta = false →
     result = Some (data, Some MapDocument.BadArgumentType)).
Proof.
  intros old result. unfold result, old, DocSpec.lookup_field.
  rewrite RichSet_inc_single. unfold MapDocument.findElement.
  set (pairs := Split field MapDocument.dot).
  split_and!.
  - intros Habs.
    destruct (walk_inc_absent delta _ _ _ Habs) as (m' & Hw & Hm').
    exists m'. split; [|done]. f_equal. exact Hw.
  - intros o Ho Hno Hnd.
    destruct (walk_inc_numeric delta _ _ _ _ Ho Hno Hnd) as (m' & Hw & Hm').
    exists m'. split; [|done]. f_equal. exact Hw.
  - intros o Ho Hnil Hbad. f_equal.
    exact (walk_inc_mismatch delta _ _ _ _ Ho Hnil Hbad).
Qed.

Lemma RichSet_inc_spec_witness :
  let one := MapDocument.VFloat 0x3FF0000000000000 in
  let data : gmap string MapDocument.value :=
    {[ "counters" := MapDocument.VMap {[ "views" := one ]} ]} in
  DocSpec.lookup_field data "counters.views" = Some one ∧
  ∃ data', MapDocument.RichSet (DocSpec.inc_update "counters.views" one) data
           = Some (data', None) ∧
           DocSpec.lookup_field data' "counters.views" = Some (MapDocument.VInt 2).
Proof.
  intros one data. split; [reflexivity|].
  destruct (RichSet_inc_spec data "counters.views" one) as (_ & Hnum & _).
  exact (Hnum one eq_refl eq_refl eq_refl).
Defined.

(** On an empty document, a text "delta" is stored as the new leaf and no
    error is reported. *)
Lemma inc_absent_leaf_takes_text :
  ¬ DocSpec.inc_rejects_non_numeric ∅ "v" (MapDocument.VString "abc").
Proof.
  intros H. destruct H as [data' H]; [by right|].
  vm_compute in H. discriminate H.
Qed.

(** Floats are converted before they are added: 1.5 incremented by 1.5 is 2. *)
Example inc_truncates_floats :
  let half := MapDocument.VFloat 0x3FF8000000000000 in
  MapDocument.RichSet (DocSpec.inc_update "n" half) {[ "n" := half ]}
  = Some ({[ "n" := MapDocument.VInt 2 ]}, None).
Proof. vm_compute. done. Qed.

(** Section 8 of the specification: two increments by 1 of [counters.views]
    on an empty document. *)
Example inc_twice :
  let one := MapDocument.VFloat 0x3FF0000000000000 in
  let up := DocSpec.inc_update "counters.views" one in
  (st ← MapDocument.RichSet up ∅;
   st' ← MapDocument.RichSet up st.1;
   Some (MapDocument.RichGet st'.1 ["counters.views"], st'.2))
  = Some ({[ "counters" := MapDocument.VMap {[ "views" := MapDocument.VInt 2 ]} ]}, None).
Proof. vm_compute. done. Qed.

(** * Further properties *)

(** ** Decimal text *)

Section decimal.

Lemma append_cons (c : ascii) (s t : string) : String c s +:+ t = String c (s +:+ t).
Proof. reflexivity. Qed.

Lemma append_length (s t : string) :
  String.length (s +:+ t) = (String.length s + String.length t)%nat.
Proof.
  induction s as [|c s IH]; [done|]. rewrite append_cons. cbn. by rewrite IH.
Qed.

(** Appending the same tail to two strings keeps them apart. *)
Lemma append_inj_r (a b t : string) : a +:+ t = b +:+ t → a = b.
Proof.
  revert b. induction a as [|c a IH]; intros [|d b] Heq; [done|..].
  - apply (f_equal String.length) in Heq. rewrite !append_length in Heq.
    cbn in Heq. lia.
  - apply (f_equal String.length) in Heq. rewrite !append_length in Heq.
    cbn in Heq. lia.
  - rewrite !append_cons in Heq. injection Heq as -> Heq. f_equal. by apply IH.
Qed.

Lemma parse_digits_acc (s : string) : ∀ acc,
  parse_digits s acc
  = (λ v, acc * 10 ^ Z.of_nat (String.length s) + v) <$> parse_digits s 0.
Proof.
  induction s as [|c s IH]; intros acc.
  - cbn. f_equal. lia.
  - cbn [parse_digits String.length]. destruct (is_digit c); [|done].
    rewrite (IH (10 * acc + digit_val c)), (IH (10 * 0 + digit_val c)).
    destruct (parse_digits s 0) as [v|]; [|done]. cbn. f_equal.
    rewrite Nat2Z.inj_succ, Z.pow_succ_r by lia. lia.
Qed.

Lemma pretty_N_char_digit (x : N) :
  (x < 10)%N →
  is_digit (pretty_N_char x) = true ∧ digit_val (pretty_N_char x) = Z.of_N x.
Proof.
  intros Hx.
  assert (x = 0 ∨ x = 1 ∨ x = 2 ∨ x = 3 ∨ x = 4 ∨ x = 5 ∨ x = 6 ∨ x = 7
          ∨ x = 8 ∨ x = 9)%N as Hcases by lia.
  repeat (destruct Hcases as [->|Hcases]; [done|]). by subst.
Qed.

(** Reading back the digits [pretty_N_go] puts in front of a digit string. *)
Lemma parse_pretty_N_go (x : N) : ∀ s v,
  parse_digits s 0 = Some v →
  parse_digits (pretty_N_go x s) 0
  = Some (Z.of_N x * 10 ^ Z.of_nat (String.length s) + v).
Proof.
  induction (N.lt_wf_0 x) as [x _ IH]; intros s v Hs.
  destruct (decide (x = 0%N)) as [->|Hx].
  - rewrite pretty_N_go_0, Hs. f_equal; lia.
  - rewrite pretty_N_go_step by lia.
    destruct (pretty_N_char_digit (x `mod` 10)%N) as [Hd Hv].
    { apply N.mod_lt. lia. }
    rewrite (IH (x `div` 10)%N) with (v := (Z.of_N (x `mod` 10) * 10 ^ Z.of_nat (String.length s) + v)).
    + f_equal. cbn [String.length]. rewrite Nat2Z.inj_succ, Z.pow_succ_r by lia.
      pose proof (N.div_mod x 10) as Hdm.
      assert (Z.of_N x = 10 * Z.of_N (x `div` 10) + Z.of_N (x `mod` 10)) as -> by lia.
      lia.
    + apply N.div_lt; lia.
    + cbn [parse_digits]. rewrite Hd, parse_digits_acc, Hs. cbn. f_equal. lia.
Qed.

Lemma parse_pretty_positive (p : positive) :
  parse_digits (pretty p) 0 = Some (Z.pos p).
Proof.
  unfold pretty, pretty_positive, pretty, pretty_N.
  destruct (decide (N.pos p = 0%N)); [done|].
  rewrite (parse_pretty_N_go (N.pos p) EmptyString 0) by done. f_equal. cbn. lia.
Qed.

(** A digit string does not start with a sign. *)
Lemma parse_digits_sign (c : ascii) (s : string) (v : Z) :
  parse_digits (String c s) 0 = Some v → c ≠ "-"%char ∧ c ≠ "+"%char.
Proof.
  cbn [parse_digits]. destruct (is_digit c) eqn:Hd; [|done].
  intros _. split; intros ->; discriminate Hd.
Qed.

Lemma pretty_positive_nonempty (p : positive) : pretty p ≠ EmptyString.
Proof.
  unfold pretty, pretty_positive, pretty, pretty_N.
  destruct (decide (N.pos p = 0%N)); [done|].
  rewrite pretty_N_go_step by lia. intros Heq.
  apply (f_equal String.length) in Heq.
  assert (∀ x s, (String.length s ≤ String.length (pretty_N_go x s))%nat) as Hlen.
  { intros x. induction (N.lt_wf_0 x) as [x _ IH]; intros s.
    destruct (decide (x = 0%N)) as [->|Hx]; [by rewrite pretty_N_go_0|].
    rewrite pretty_N_go_step by lia.
    etrans; [|apply IH, N.div_lt; lia]. cbn. lia. }
  specialize (Hlen (N.pos p `div` 10)%N
                (String (pretty_N_char (N.pos p `mod` 10)) EmptyString)).
  rewrite Heq in Hlen. cbn in Hlen. lia.
Qed.

Lemma ParseInt_digits (s : string) (v : Z) :
  s ≠ EmptyString → parse_digits s 0 = Some v →
  ParseInt s = if max_int <? v then max_int else v.
Proof.
  intros Hne Hs. destruct s as [|c s]; [done|].
  destruct (parse_digits_sign c s v Hs) as [Hm Hp].
  unfold ParseInt.
  destruct c as [[] [] [] [] [] [] [] []]; try done; by rewrite Hs.
Qed.

(** [strconv.ParseInt] reads back what [strconv.FormatInt] wrote. *)
Lemma ParseInt_FormatInt (z : Z) : in_range z → ParseInt (FormatInt z) = z.
Proof.
  unfold in_range, min_int, max_int, FormatInt. intros Hz.
  destruct z as [|p|p].
  - done.
  - change (pretty (Z.pos p)) with (pretty p).
    rewrite (ParseInt_digits _ (Z.pos p)); auto using pretty_positive_nonempty, parse_pretty_positive.
    unfold max_int. destruct (2 ^ 63 - 1 <? Z.pos p) eqn:Hlt; [|done].
    apply Z.ltb_lt in Hlt. lia.
  - change (pretty (Z.neg p)) with ("-" +:+ pretty p).
    change ("-" +:+ pretty p) with (String "-" (pretty p)).
    unfold ParseInt. pose proof (pretty_positive_nonempty p) as Hne.
    destruct (pretty p) as [|c s] eqn:Hp; [done|]. rewrite <-Hp.
    rewrite parse_pretty_positive.
    destruct (2 ^ 63 <? Z.pos p) eqn:Hlt; [|done].
    apply Z.ltb_lt in Hlt. lia.
Qed.

Lemma parse_digits_no_byte (c : ascii) (s : string) : ∀ acc v,
  is_digit c = false → parse_digits s acc = Some v → has_byte c s = false.
Proof.
  induction s as [|a s IH]; intros acc v Hc Hs; [done|].
  cbn [parse_digits has_byte] in *. destruct (is_digit a) eqn:Ha; [|done].
  rewrite (IH _ _ Hc Hs), orb_false_r.
  apply Ascii.eqb_neq. by intros ->; rewrite Hc in Ha.
Qed.

(** Decimal text holds no comma. *)
Lemma FormatInt_no_comma (z : Z) : has_byte "," (FormatInt z) = false.
Proof.
  unfold FormatInt. destruct z as [|p|p]; [done|..].
  - change (pretty (Z.pos p)) with (pretty p).
    by apply (parse_digits_no_byte _ _ 0 (Z.pos p)), parse_pretty_positive.
  - change (pretty (Z.neg p)) with (String "-" (pretty p)). cbn [has_byte].
    by apply (parse_digits_no_byte _ _ 0 (Z.pos p)), parse_pretty_positive.
Qed.

Lemma Split_no_sep (sep : ascii) (s : string) :
  has_byte sep s = false → Split s sep = [s].
Proof.
  induction s as [|a s IH]; [done|]. cbn [has_byte Split].
  intros [Ha Hs]%orb_false_elim. rewrite Ha, (IH Hs). done.
Qed.

Lemma Split_app (sep : ascii) (a b : string) :
  has_byte sep a = false → Split (a +:+ String sep b) sep = a :: Split b sep.
Proof.
  induction a as [|c a IH].
  - intros _. change (EmptyString +:+ String sep b) with (String sep b).
    cbn [Split]. by rewrite Ascii.eqb_refl.
  - cbn [has_byte]. intros [Hc Ha]%orb_false_elim.
    rewrite append_cons. cbn [Split]. by rewrite Hc, (IH Ha).
Qed.

End decimal.

(** ** Reopening a list *)

Section reopen.
Import LevelList.

(** [initInfo] reads back the cursors [infoValue] wrote. *)
Lemma initInfo_infoValue (db : DB) (l l0 : LevelList.t) :
  rfault db = None → kv db !! infoKey l0 = Some (infoValue l) →
  in_range (start l) → in_range (end_ l) →
  initInfo db l0 = set_cursors l0 (start l) (end_ l).
Proof.
  intros Hr Hinfo Hs He. unfold initInfo, Get. rewrite Hr, Hinfo. cbn [default]. unfold id.
  unfold infoValue. change ("," +:+ FormatInt (end_ l)) with (String "," (FormatInt (end_ l))).
  rewrite Split_app by apply FormatInt_no_comma.
  rewrite Split_no_sep by apply FormatInt_no_comma.
  by rewrite !ParseInt_FormatInt.
Qed.

End reopen.

(** ** Sessions keep the list consistent *)

Section session.
Import LevelList History Session.

Lemma Inv_weaken p p' db l xs : Inv p db l xs → p ≤ p' → Inv p' db l xs.
Proof. unfold Inv. intros (?&?&?&?&?&?) ?. split_and!; try done; lia. Qed.

Lemma LPush_healthy db l values :
  wfault db = None →
  min_int ≤ start l - Z.of_nat (length values) → start l ≤ max_int →
  let l' := set_start l (start l - Z.of_nat (length values)) in
  LPush values db l
  = (mkDB (apply_batch (kv db)
             (puts_left l (start l) values ++
              if inTransaction l then [] else [BPut (infoKey l) (infoValue l')]))
          (rfault db) None, l', None).
Proof.
  intros Hw Hlo Hhi l'. unfold LPush. rewrite lpush_loop_spec by done.
  cbn [inTransaction set_start app]. unfold Write. rewrite Hw.
  destruct (inTransaction l); [by rewrite app_nil_r|done].
Qed.

Lemma RPush_healthy db l values :
  wfault db = None →
  min_int ≤ end_ l → end_ l + Z.of_nat (length values) ≤ max_int →
  let l' := set_end l (end_ l + Z.of_nat (length values)) in
  RPush values db l
  = (mkDB (apply_batch (kv db)
             (puts_right l (end_ l) values ++
              if inTransaction l then [] else [BPut (infoKey l) (infoValue l')]))
          (rfault db) None, l', None).
Proof.
  intros Hw Hlo Hhi l'. unfold RPush. rewrite rpush_loop_spec by done.
  cbn [inTransaction set_end app]. unfold Write. rewrite Hw.
  destruct (inTransaction l); [by rewrite app_nil_r|done].
Qed.

(** The last operation of a batch decides what its key holds. *)
Lemma apply_batch_snoc_put m batch k v :
  apply_batch m (batch ++ [BPut k v]) !! k = Some v.
Proof. unfold apply_batch. rewrite foldl_snoc. apply lookup_insert_eq. Qed.

Lemma apply_batch_snoc_delete m batch k :
  apply_batch m (batch ++ [BDelete k]) !! k = None.
Proof. unfold apply_batch. rewrite foldl_snoc. apply lookup_delete_eq. Qed.

Lemma SInv_LPush ek p db l xs values :
  SInv ek p db l xs → p + Z.of_nat (length values) ≤ max_int →
  SInv ek (p + Z.of_nat (length values)) (LPush values db l).1.1 (LPush values db l).1.2
       (reverse values ++ xs).
Proof.
  intros (HInv & Hrest) Hp. revert Hrest.
  destruct (LPush_Inv _ _ _ _ values HInv Hp) as (db' & l' & Hpush & HInv').
  destruct HInv as (Hr & Hw & Hlo & Hhi & Hn & Hend & Hget).
  rewrite LPush_healthy in Hpush |- * by (try done; unfold min_int, max_int in *; lia).
  intros (Hek & Hcanon & Hinfo).
  injection Hpush as <- <-. cbn [fst snd]. split_and!; [done|done|..].
  - intros [Hv ->]%app_eq_nil. apply (f_equal length) in Hv.
    rewrite length_reverse in Hv. cbn in Hv. cbn. rewrite Hcanon by done. lia.
  - cbn [inTransaction set_start]. intros Htx. left. rewrite Htx. cbn [kv].
    change (infoKey (set_start l ?s)) with (infoKey l).
    apply apply_batch_snoc_put.
Qed.

Lemma SInv_RPush ek p db l xs values :
  SInv ek p db l xs → p + Z.of_nat (length values) ≤ max_int →
  SInv ek (p + Z.of_nat (length values)) (RPush values db l).1.1 (RPush values db l).1.2
       (xs ++ values).
Proof.
  intros (HInv & Hrest) Hp. revert Hrest.
  destruct (RPush_Inv _ _ _ _ values HInv Hp) as (db' & l' & Hpush & HInv').
  destruct HInv as (Hr & Hw & Hlo & Hhi & Hn & Hend & Hget).
  rewrite RPush_healthy in Hpush |- * by (try done; unfold min_int, max_int in *; lia).
  intros (Hek & Hcanon & Hinfo).
  injection Hpush as <- <-. cbn [fst snd]. split_and!; [done|done|..].
  - intros [-> Hv]%app_eq_nil. cbn. by apply Hcanon.
  - cbn [inTransaction set_end]. intros Htx. left. rewrite Htx. cbn [kv].
    change (infoKey (set_end l ?s)) with (infoKey l).
    apply apply_batch_snoc_put.
Qed.
End session.

Section session_pops.
Import LevelList History Session.

Lemma SInv_LPop ek p db l xs :
  SInv ek p db l xs → p ≤ max_int →
  SInv ek p (LPop db l).1.1.1 (LPop db l).1.1.2 (tail xs).
Proof.
  intros (HInv & Hek & Hcanon & Hinfo) Hp.
  destruct (LPop_Inv _ _ _ _ HInv Hp) as (db' & l' & Hpop & HInv').
  pose proof (Inv_len _ _ _ _ HInv Hp) as Hlen.
  destruct HInv as (Hr & Hw & _).
  rewrite Hpop. cbn [fst snd]. split; [done|].
  unfold LPop, Get, Write in Hpop. rewrite Hlen, Hr, Hw in Hpop.
  destruct xs as [|x [|y r]]; cbn [length tail] in *.
  - injection Hpop as <- <-. by split_and!.
  - change (Z.of_nat 1) with 1 in Hpop. change (1 =? 0) with false in Hpop.
    change (1 =? 1) with true in Hpop. cbv beta iota zeta in Hpop.
    injection Hpop as <- <-. split_and!; [done|done|].
    intros _. right. split_and!; [|done|done]. cbn [kv]; first [apply apply_batch_snoc_delete | apply lookup_delete_eq].
  - replace (Z.of_nat (S (S (length r))) =? 0) with false in Hpop
      by (symmetry; apply Z.eqb_neq; lia).
    replace (Z.of_nat (S (S (length r))) =? 1) with false in Hpop
      by (symmetry; apply Z.eqb_neq; lia).
    cbv beta iota zeta in Hpop.
    injection Hpop as <- <-. split_and!; [done|done|].
    intros _. left. cbn [kv]; first [apply apply_batch_snoc_put | apply lookup_insert_eq].
Qed.

Lemma SInv_RPop ek p db l xs :
  SInv ek p db l xs → p ≤ max_int →
  SInv ek p (RPop db l).1.1.1 (RPop db l).1.1.2 (removelast xs).
Proof.
  intros (HInv & Hek & Hcanon & Hinfo) Hp.
  destruct (RPop_Inv _ _ _ _ HInv Hp) as (db' & l' & Hpop & HInv').
  pose proof (Inv_len _ _ _ _ HInv Hp) as Hlen.
  destruct HInv as (Hr & Hw & _).
  rewrite Hpop. cbn [fst snd]. split; [done|].
  unfold RPop, Get, Write in Hpop. rewrite Hlen, Hr, Hw in Hpop.
  destruct xs as [|x xs0 _] using rev_ind.
  - injection Hpop as <- <-. by split_and!.
  - rewrite removelast_last. rewrite length_app in Hpop. cbn [length] in Hpop.
    replace (Z.of_nat (length xs0 + 1) =? 0) with false in Hpop
      by (symmetry; apply Z.eqb_neq; lia).
    destruct xs0 as [|y r]; cbn [length Nat.add] in Hpop.
    + change (Z.of_nat (S 0)) with 1 in Hpop.
      change (1 =? 1) with true in Hpop. cbv beta iota zeta in Hpop.
      injection Hpop as <- <-. split_and!; [done|done|].
      intros _. right. split_and!; [|done|done]. cbn [kv]; first [apply apply_batch_snoc_delete | apply lookup_delete_eq].
    + replace (Z.of_nat (S (length r + 1)) =? 1) with false in Hpop
        by (symmetry; apply Z.eqb_neq; lia).
      cbv beta iota zeta in Hpop.
      injection Hpop as <- <-. split_and!; [done|done|].
      intros _. left. cbn [kv]; first [apply apply_batch_snoc_put | apply lookup_insert_eq].
Qed.

Lemma TrimLeft_healthy db l count :
  wfault db = None → in_range (start l) → in_range (end_ l) →
  start l ≤ end_ l → end_ l - start l + 1 ≤ max_int →
  0 ≤ count ≤ max_int → start l + count ≤ max_int →
  let k := Z.to_nat (Z.min count (end_ l - start l + 1)) in
  let l1 := set_start l (start l + Z.of_nat k) in
  TrimLeft count db l =
    if end_ l <? start l + Z.of_nat k then
      (mkDB (apply_batch (kv db) (trims l (start l) k ++ [BDelete (infoKey l)]))
            (rfault db) None, set_cursors l 0 (-1), 0)
    else
      (mkDB (apply_batch (kv db) (trims l (start l) k ++ [BPut (infoKey l) (infoValue l1)]))
            (rfault db) None, l1, 0).
Proof.
  intros Hw Hs He Hne Hwin Hc Hsc k l1. unfold TrimLeft.
  assert (len l ≠ 0) as Hlen.
  { unfold len. replace (end_ l <? start l) with false by (symmetry; apply Z.ltb_ge; lia).
    rewrite wrap64_id by (unfold in_range, min_int, max_int in *; lia). lia. }
  apply Z.eqb_neq in Hlen. rewrite Hlen.
  rewrite (wrap64_id count) by (unfold in_range, min_int, max_int in *; lia).
  rewrite (wrap64_id (start l + count)) by (unfold in_range, min_int, max_int in *; lia).
  rewrite trim_loop_spec by (unfold in_range, min_int, max_int in *; lia).
  replace (Z.to_nat (Z.min (start l + count - start l) (end_ l - start l + 1))) with k by lia.
  unfold len. cbn [start end_ set_start set_cursors app]. fold l1.
  destruct (end_ l <? start l + Z.of_nat k) eqn:Hall.
  - cbn [Z.eqb]. unfold Write. by rewrite Hw.
  - apply Z.ltb_ge in Hall.
    rewrite wrap64_id by (unfold in_range, min_int, max_int in *; lia).
    replace (end_ l - (start l + Z.of_nat k) + 1 =? 0) with false
      by (symmetry; apply Z.eqb_neq; lia).
    unfold Write. by rewrite Hw.
Qed.

Lemma SInv_TrimLeft ek p db l xs count :
  SInv ek p db l xs → p ≤ max_int → 0 ≤ count → p + count ≤ max_int →
  SInv ek p (TrimLeft count db l).1.1 (TrimLeft count db l).1.2
       (drop (Z.to_nat count) xs).
Proof.
  intros (HInv & Hek & Hcanon & Hinfo) Hp Hc Hpc.
  destruct (TrimLeft_Inv _ _ _ _ count HInv Hp Hc Hpc) as (db' & l' & Htrim & HInv').
  pose proof (Inv_len _ _ _ _ HInv Hp) as Hlen.
  rewrite Htrim. cbn [fst snd]. split; [done|].
  destruct xs as [|x xs].
  - unfold TrimLeft in Htrim. rewrite Hlen in Htrim. cbn in Htrim.
    injection Htrim as <- <-. rewrite drop_nil. by split_and!.
  - destruct HInv as (Hr & Hw & Hlo & Hhi & Hn & Hend & Hget). cbn [length] in *.
    rewrite TrimLeft_healthy in Htrim
      by (try done; unfold in_range, min_int, max_int in *; lia).
    destruct (end_ l <? start l + _) eqn:Hall in Htrim; injection Htrim as <- <-.
    + split_and!; [done|done|].
      intros _. right. split_and!; [|done|done]. apply apply_batch_snoc_delete.
    + apply Z.ltb_ge in Hall. split_and!; [done| |].
      * intros Hnil. apply (f_equal length) in Hnil.
        rewrite length_drop in Hnil. cbn [length] in Hnil. lia.
      * intros _. left. apply apply_batch_snoc_put.
Qed.

Lemma SInv_Begin ek p db l xs :
  SInv ek p db l xs → SInv ek p db (BeginTransaction l) xs.
Proof.
  intros (HInv & Hek & Hcanon & Hinfo). unfold BeginTransaction.
  destruct (inTransaction l) eqn:Htx; (split_and!; [done|done|done|]).
  - intros Hf. congruence.
  - intros Hf. discriminate Hf.
Qed.

Lemma SInv_Commit ek p db l xs :
  SInv ek p db l xs → p ≤ max_int →
  SInv ek p (Commit db l).1 (Commit db l).2 xs.
Proof.
  intros (HInv & Hek & Hcanon & Hinfo) Hp. unfold Commit.
  destruct (inTransaction l) eqn:Htx; cbn [negb fst snd];
    [|split_and!; [done|done|done|by intros _; apply Hinfo]].
  pose proof (Inv_len _ _ _ _ HInv Hp) as Hlen.
  destruct HInv as (Hr & Hw & Hlo & Hhi & Hn & Hend & Hget).
  unfold Delete, Put, Write. rewrite Hw, Hlen.
  destruct (Z.of_nat (length xs) =? 0) eqn:H0; cbn [fst snd].
  - apply Z.eqb_eq in H0. destruct xs; [|cbn in H0; lia].
    unfold SInv. split_and!; try done.
    pose proof (Hcanon eq_refl) as Hs0. cbn [length] in Hend.
    intros _. right. split_and!; [apply lookup_delete_eq|exact Hs0|cbn; lia].
  - unfold SInv. split_and!; try done.
    + unfold Inv, Repr. cbn [rfault wfault kv start end_ set_inTransaction].
      split_and!; try done. intros i x Hi.
      change (idxKey (set_inTransaction l ?b) ?c) with (idxKey l c).
      cbn [apply_batch foldl apply_op].
      rewrite lookup_insert_ne by apply infoKey_idxKey. by apply Hget.
    + intros _. left. apply lookup_insert_eq.
Qed.

Lemma Drop_healthy db l :
  wfault db = None →
  Drop db l =
    (mkDB (apply_batch (kv db)
             ((BDelete ∘ fst <$> scan db (keyPrefix l) (keyPrefix l +:+ MAXBYTE) IteratorForward)
              ++ [BDelete (infoKey l)])) (rfault db) None,
     set_cursors l 0 (-1), true).
Proof.
  intros Hw. unfold Drop, Enumerate, Write. rewrite enum_deletes, Hw. done.
Qed.

Lemma SInv_Drop ek p db l xs :
  SInv ek p db l xs → SInv ek p (Drop db l).1.1 (Drop db l).1.2 [].
Proof.
  intros (HInv & Hek & Hcanon & Hinfo).
  destruct HInv as (Hr & Hw & Hlo & Hhi & Hn & Hend & Hget).
  rewrite Drop_healthy by done. cbn [fst snd]. unfold SInv. split_and!; try done.
  - unfold Inv, Repr. cbn. split_and!; try done; lia.
  - intros _. right. split_and!; [|done|done]. apply apply_batch_snoc_delete.
Qed.
End session_pops.

Section session_run.
Import LevelList History Session.

Lemma SInv_weaken ek p p' db l xs : SInv ek p db l xs → p ≤ p' → SInv ek p' db l xs.
Proof. intros (HInv & Hrest) Hp. split; [by eapply Inv_weaken|done]. Qed.

Lemma weight_nonneg o : 0 ≤ weight o.
Proof. destruct o; cbn; lia. Qed.

Lemma total_weight_nonneg ops : 0 ≤ total_weight ops.
Proof.
  induction ops as [|o ops IH]; cbn; [done|].
  pose proof (weight_nonneg o). unfold total_weight in IH. lia.
Qed.

Lemma SInv_nonneg ek p db l xs : SInv ek p db l xs → 0 ≤ p.
Proof. intros ((_ & _ & _ & _ & Hn & _) & _). lia. Qed.

Lemma SInv_step ek o p db l xs :
  SInv ek p db l xs → p + weight o ≤ max_int →
  SInv ek (p + weight o) (step o db l).1 (step o db l).2 (deque_step o xs).
Proof.
  intros HS Hp. pose proof (SInv_nonneg _ _ _ _ _ HS) as H0.
  pose proof (weight_nonneg o) as Hw.
  destruct o as [values|values| | |count| | |]; cbn [step deque_step weight] in *;
    rewrite ?Z.add_0_r.
  - by apply SInv_LPush.
  - by apply SInv_RPush.
  - apply SInv_LPop; [done|lia].
  - apply SInv_RPop; [done|lia].
  - apply SInv_weaken with p; [|lia].
    replace (N.to_nat count) with (Z.to_nat (Z.of_N count)) by lia.
    apply SInv_TrimLeft; try done; lia.
  - by apply SInv_Begin.
  - apply SInv_Commit; [done|lia].
  - by apply SInv_Drop with xs.
Qed.

Lemma SInv_run ek ops : ∀ p db l xs,
  SInv ek p db l xs → p + total_weight ops ≤ max_int →
  SInv ek (p + total_weight ops) (run ops db l).1 (run ops db l).2 (deque_run ops xs).
Proof.
  induction ops as [|o ops IH]; intros p db l xs HS Hp.
  - cbn. by rewrite Z.add_0_r.
  - cbn [total_weight foldr] in *. fold (total_weight ops) in *.
    pose proof (total_weight_nonneg ops). pose proof (weight_nonneg o).
    unfold run, deque_run. cbn [foldl fst snd].
    destruct (step o db l) as [db1 l1] eqn:Hstep.
    pose proof (SInv_step ek o p db l xs HS) as H1. rewrite Hstep in H1.
    rewrite Z.add_assoc. apply (IH _ db1 l1); [apply H1|]; lia.
Qed.

(** A list created on a store without its info key starts a session. *)
Lemma SInv_new db ek :
  rfault db = None → wfault db = None →
  kv db !! infoKey (mk ek 0 (-1) false) = None →
  SInv ek 0 db (NewLevelList db ek) [].
Proof.
  intros Hr Hw Hinfo. rewrite NewLevelList_empty by done.
  split_and!; [by apply Inv_empty|done|done|].
  intros _. by right.
Qed.

(** What [Index] answers on a store that holds the sequence [xs]. *)
Lemma Index_Inv p db l xs :
  Inv p db l xs → p ≤ max_int →
  (∀ i x, xs !! i = Some x →
     Index (Z.of_nat i) db l = (Some (mkElement (Some x)), None)) ∧
  (∀ i, i < 0 ∨ Z.of_nat (length xs) ≤ i → Index i db l = (None, None)).
Proof.
  intros HInv Hp. pose proof (Inv_len _ _ _ _ HInv Hp) as Hlen.
  destruct HInv as (Hr & Hw & Hlo & Hhi & Hn & Hend & Hget). split.
  - intros i x Hi. pose proof (lookup_lt_Some _ _ _ Hi) as Hlt.
    unfold Index, Get. rewrite Hlen.
    replace (Z.of_nat i <? 0) with false by (symmetry; apply Z.ltb_ge; lia).
    replace (Z.of_nat i >=? Z.of_nat (length xs)) with false
      by (symmetry; rewrite Z.geb_leb; apply Z.leb_gt; lia).
    rewrite wrap64_id by (unfold in_range, min_int, max_int in *; lia).
    cbn [orb]. by rewrite Hr, (Hget _ _ Hi).
  - intros i Hout. unfold Index. rewrite Hlen.
    destruct (i <? 0) eqn:Hneg; [done|]. apply Z.ltb_ge in Hneg.
    replace (i >=? Z.of_nat (length xs)) with true; [done|].
    symmetry. apply Z.geb_le. lia.
Qed.
End session_run.

(** After any session on a list created empty (pushes, pops, trims,
    transactions and drops on a healthy engine, the values pushed and the
    counts trimmed adding up to less than 2^63): the length is that of the
    plain sequence the same calls build, [Index] returns the value of that
    sequence at every position, and no element outside it. *)
Theorem session_refinement (db : DB) (entryKey : string) (ops : list Session.op) :
  rfault db = None → wfault db = None →
  kv db !! LevelList.infoKey (LevelList.mk entryKey 0 (-1) false) = None →
  Session.total_weight ops ≤ max_int →
  let r := Session.run ops db (LevelList.NewLevelList db entryKey) in
  let xs := Session.deque_run ops [] in
  LevelList.Len r.2 = Z.of_nat (length xs) ∧
  (∀ i x, xs !! i = Some x →
     LevelList.Index (Z.of_nat i) r.1 r.2 = (Some (LevelList.mkElement (Some x)), None)) ∧
  (∀ i, i < 0 ∨ Z.of_nat (length xs) ≤ i → LevelList.Index i r.1 r.2 = (None, None)).
Proof.
  intros Hr Hw Hinfo Hp r xs.
  pose proof (SInv_run entryKey ops 0 _ _ _ (SInv_new db entryKey Hr Hw Hinfo)) as HS.
  rewrite Z.add_0_l in HS. destruct (HS Hp) as (HInv & _).
  fold r xs in HInv. split.
  - by apply (Inv_len _ _ _ _ HInv).
  - by apply (Index_Inv _ _ _ _ HInv).
Qed.

Lemma session_refinement_witness :
  let ops := [Session.RPushOp ["a"; "b"; "c"]; Session.BeginOp; Session.LPushOp ["x"];
              Session.TrimLeftOp 2; Session.CommitOp; Session.RPopOp] in
  let r := Session.run ops empty_db (LevelList.NewLevelList empty_db "k") in
  (rfault empty_db = None ∧ wfault empty_db = None ∧ Session.total_weight ops ≤ max_int) ∧
  LevelList.Len r.2 = 1 ∧
  LevelList.Index 0 r.1 r.2 = (Some (LevelList.mkElement (Some "b")), None).
Proof.
  intros ops r.
  assert (Session.total_weight ops ≤ max_int) as Hp by (vm_compute; discriminate).
  split; [done|].
  destruct (session_refinement empty_db "k" ops eq_refl eq_refl eq_refl Hp) as (Hlen & Hidx & _).
  split; [exact Hlen|]. exact (Hidx 0%nat "b" eq_refl).
Defined.

(** After any such session that leaves no transaction open, a list created
    anew on the resulting store has the cursors of the list that ran the
    session: what [infoValue] persisted is what [initInfo] reads back. *)
Theorem session_reopen (db : DB) (entryKey : string) (ops : list Session.op) :
  rfault db = None → wfault db = None →
  kv db !! LevelList.infoKey (LevelList.mk entryKey 0 (-1) false) = None →
  Session.total_weight ops ≤ max_int →
  let r := Session.run ops db (LevelList.NewLevelList db entryKey) in
  LevelList.inTransaction r.2 = false →
  LevelList.NewLevelList r.1 entryKey = r.2.
Proof.
  intros Hr Hw Hinfo Hp r Htx.
  pose proof (SInv_run entryKey ops 0 _ _ _ (SInv_new db entryKey Hr Hw Hinfo)) as HS.
  rewrite Z.add_0_l in HS. destruct (HS Hp) as (HInv & Hek & _ & HinfoOK).
  fold r in HInv, Hek, HinfoOK. clear HS. clearbody r.
  destruct r as [db' l']. cbn [fst snd] in *.
  destruct HInv as (Hr' & _ & Hlo & Hhi & Hn & Hend & _).
  assert (LevelList.infoKey (LevelList.mk entryKey 0 (-1) false) = LevelList.infoKey l')
    as Hkey by (unfold LevelList.infoKey; cbn; by rewrite Hek).
  assert (LevelList.mk entryKey (LevelList.start l') (LevelList.end_ l') false = l') as Hl'
    by (destruct l'; cbn in *; by subst).
  destruct (HinfoOK Htx) as [Hsome|(Hnone & Hs0 & He0)].
  - unfold LevelList.NewLevelList.
    rewrite (initInfo_infoValue _ l'); [done|done|by rewrite Hkey|..];
      unfold in_range, min_int, max_int in *; lia.
  - rewrite NewLevelList_empty by (by rewrite Hkey).
    by rewrite <-Hl', Hs0, He0.
Qed.

Lemma session_reopen_witness :
  let ops := [Session.RPushOp ["a"; "b"; "c"]; Session.BeginOp; Session.LPushOp ["x"];
              Session.TrimLeftOp 2; Session.CommitOp] in
  let r := Session.run ops empty_db (LevelList.NewLevelList empty_db "k") in
  (rfault empty_db = None ∧ wfault empty_db = None ∧ Session.total_weight ops ≤ max_int ∧
   LevelList.inTransaction r.2 = false) ∧
  LevelList.NewLevelList r.1 "k" = LevelList.mk "k" 1 2 false.
Proof.
  intros ops r.
  assert (Session.total_weight ops ≤ max_int) as Hp by (vm_compute; discriminate).
  split; [done|].
  exact (session_reopen empty_db "k" ops eq_refl eq_refl eq_refl Hp eq_refl).
Defined.

(** ** Byte order of keys and what a scan holds *)

Section key_order.

Lemma append_assoc (a b c : string) : (a +:+ b) +:+ c = a +:+ (b +:+ c).
Proof.
  induction a as [|x a IH]; [done|]. rewrite !append_cons. by rewrite IH.
Qed.

Lemma compare_append (p x y : string) :
  String.compare (p +:+ x) (p +:+ y) = String.compare x y.
Proof.
  induction p as [|c p IH]; [done|]. rewrite !append_cons. cbn [String.compare].
  unfold Ascii.compare. by rewrite N.compare_refl.
Qed.

Lemma leb_append (p x y : string) :
  String.leb (p +:+ x) (p +:+ y) = String.leb x y.
Proof. unfold String.leb. by rewrite compare_append. Qed.

(** A scan returns exactly the entries of the store between its bounds. *)
Lemma elem_of_scan db lo hi d k v :
  (k, v) ∈ scan db lo hi d ↔ kv db !! k = Some v ∧ key_between lo hi k = true.
Proof.
  unfold scan.
  assert ((k, v) ∈ merge_sort key_le
            (filter (λ e, key_between lo hi e.1 = true) (map_to_list (kv db)))
          ↔ kv db !! k = Some v ∧ key_between lo hi k = true) as Hiff.
  { rewrite merge_sort_Permutation, list_elem_of_filter, elem_of_map_to_list. cbn. tauto. }
  destruct d; [done|]. by rewrite elem_of_reverse.
Qed.

Lemma apply_deletes_gone (keys : list string) : ∀ m (k : string),
  k ∈ keys ∨ m !! k = None → apply_batch m (BDelete <$> keys) !! k = None.
Proof.
  induction keys as [|k' keys IH]; intros m k Hk.
  - destruct Hk as [Hk|Hk]; [by apply elem_of_nil in Hk|done].
  - cbn [fmap list_fmap apply_batch foldl apply_op].
    fold (apply_batch (delete k' m) (BDelete <$> keys)). apply IH.
    destruct (decide (k = k')) as [->|Hne]; [right; apply lookup_delete_eq|].
    destruct Hk as [Hk|Hk].
    + left. apply elem_of_cons in Hk as [?|?]; [done|done].
    + right. by rewrite lookup_delete_ne.
Qed.

End key_order.

Section list_drop.
Import LevelList.


Lemma infoKey_outside (l : LevelList.t) :
  key_between (keyPrefix l) (keyPrefix l +:+ MAXBYTE) (infoKey l) = false.
Proof. unfold key_between. apply andb_false_intro1. vm_compute. reflexivity. Qed.

End list_drop.



(** When the engine fails its reads, a pop or an [Index] inside a non-empty
    list returns the engine's error and no element, and changes neither the
    store nor the cursors; a list created on such an engine starts with the
    empty window. *)
Theorem list_read_failure (db : DB) (l : LevelList.t) (e : error) :
  rfault db = Some e →
  (LevelList.len l ≠ 0 →
     LevelList.LPop db l = (db, l, None, Some e) ∧
     LevelList.RPop db l = (db, l, None, Some e)) ∧
  (∀ i, 0 ≤ i < LevelList.len l → LevelList.Index i db l = (None, Some e)) ∧
  (∀ entryKey, LevelList.NewLevelList db entryKey = LevelList.mk entryKey 0 (-1) false).
Proof.
  intros Hr. split_and!.
  - intros Hlen. apply Z.eqb_neq in Hlen.
    unfold LevelList.LPop, LevelList.RPop, Get. by rewrite Hlen, Hr.
  - intros i Hi. unfold LevelList.Index, Get.
    replace (i <? 0) with false by (symmetry; apply Z.ltb_ge; lia).
    replace (i >=? LevelList.len l) with false
      by (symmetry; rewrite Z.geb_leb; apply Z.leb_gt; lia).
    by rewrite Hr.
  - intros entryKey. unfold LevelList.NewLevelList, LevelList.initInfo, Get. by rewrite Hr.
Qed.

(** An engine whose reads fail, holding the list of [two_db]. *)
Lemma list_read_failure_witness :
  let db := mkDB (kv two_db) (Some (EngineError "read refused")) None in
  let l := LevelList.mk "k" 0 1 false in
  rfault db = Some (EngineError "read refused") ∧
  LevelList.Index 1 db l = (None, Some (EngineError "read refused")).
Proof.
  intros db l. split; [reflexivity|].
  destruct (list_read_failure db l (EngineError "read refused") eq_refl) as (_ & Hidx & _).
  apply Hidx. vm_compute. split; [discriminate|reflexivity].
Defined.

(** ** Keys of a sorted set *)

Section zset_keys.
Import LevelZSet.
Context (z : LevelZSet.t).

Lemma memberKey_inj (a b : string) : memberKey z a = memberKey z b → a = b.
Proof.
  unfold memberKey, joinStringBytes. cbn [foldr]. intros H.
  repeat apply String.app_inj in H. by rewrite !append_empty_r in H.
Qed.

Lemma scoreKey_inj (member s1 s2 : string) :
  scoreKey z member s1 = scoreKey z member s2 → s1 = s2.
Proof.
  unfold scoreKey, joinStringBytes. cbn [foldr]. intros H.
  do 6 apply String.app_inj in H. by apply append_inj_r in H.
Qed.

Lemma memberKey_scoreKey (a member score : string) :
  memberKey z a ≠ scoreKey z member score.
Proof.
  unfold memberKey, scoreKey, joinStringBytes. cbn [foldr]. intros H.
  do 4 apply String.app_inj in H. discriminate H.
Qed.

Lemma zsetKey_memberKey (a : string) : zsetKey z ≠ memberKey z a.
Proof. unfold zsetKey, memberKey, joinStringBytes. vm_compute. discriminate. Qed.

Lemma zsetKey_scoreKey (member score : string) : zsetKey z ≠ scoreKey z member score.
Proof. unfold zsetKey, scoreKey, joinStringBytes. vm_compute. discriminate. Qed.

Lemma initOnce_key (db : DB) : key (initOnce db z) = key z.
Proof. unfold initOnce. by repeat case_match. Qed.

End zset_keys.

Lemma wrap64_add_l (a b : Z) : wrap64 (wrap64 a + b) = wrap64 (a + b).
Proof.
  unfold wrap64. f_equal.
  replace ((a + 2 ^ 63) mod 2 ^ 64 - 2 ^ 63 + b + 2 ^ 63)
    with ((a + 2 ^ 63) mod 2 ^ 64 + b) by lia.
  rewrite Z.add_mod_idemp_l by lia. f_equal. lia.
Qed.

(** ** Point operations of the sorted set *)

Section zset_points.
Import LevelZSet.

Lemma Score_lookup (db : DB) (z : LevelZSet.t) (member : string) :
  rfault db = None → Score db z member = kv db !! memberKey z member.
Proof. intros Hr. unfold Score, Get. by rewrite Hr. Qed.

End zset_points.

(** [Add] of one pair on a healthy engine, with the keys it leaves alone. *)
Lemma Add_pair_healthy (db : DB) (z : LevelZSet.t) (score member : string) :
  rfault db = None → wfault db = None →
  let z0 := LevelZSet.initOnce db z in
  let old := kv db !! LevelZSet.memberKey z member in
  let count := match old with
               | Some _ => LevelZSet.totalCount z0
               | None => wrap64 (LevelZSet.totalCount z0 + 1)
               end in
  ∃ db',
    LevelZSet.Add [score; member] db z = Some (db', LevelZSet.set_totalCount z0 count, 1) ∧
    LevelZSet.Score db' z member = Some score ∧
    kv db' !! LevelZSet.scoreKey z member score = Some EmptyString ∧
    (∀ o, old = Some o → o ≠ score → kv db' !! LevelZSet.scoreKey z member o = None) ∧
    kv db' !! LevelZSet.zsetKey z = Some (FormatInt count) ∧
    (∀ m, m ≠ member →
       kv db' !! LevelZSet.memberKey z m = kv db !! LevelZSet.memberKey z m) ∧
    (∀ k, k ≠ LevelZSet.memberKey z member → k ≠ LevelZSet.scoreKey z member score →
       (∀ o, old = Some o → k ≠ LevelZSet.scoreKey z member o) →
       k ≠ LevelZSet.zsetKey z → kv db' !! k = kv db !! k).
Proof.
  intros Hr Hw. destruct z as [kz cz].
  assert (∃ c0, LevelZSet.initOnce db (LevelZSet.mk kz cz) = LevelZSet.mk kz c0)
    as [c0 Hz0] by (unfold LevelZSet.initOnce; repeat case_match; by eexists).
  cbv zeta. unfold LevelZSet.Add. rewrite Hz0.
  unfold LevelZSet.add_loop, Get. rewrite Hr.
  change (LevelZSet.memberKey (LevelZSet.mk kz ?c) ?m)
    with (LevelZSet.memberKey (LevelZSet.mk kz cz) m).
  destruct (kv db !! LevelZSet.memberKey (LevelZSet.mk kz cz) member) as [o|] eqn:Hold;
    unfold Write; rewrite Hw;
    (eexists; split; [reflexivity|]);
    cbn [kv app]; rewrite Score_lookup by done; cbn [kv];
    change (LevelZSet.memberKey (LevelZSet.mk kz ?c) ?m)
      with (LevelZSet.memberKey (LevelZSet.mk kz cz) m);
    change (LevelZSet.scoreKey (LevelZSet.set_totalCount (LevelZSet.mk kz ?c) ?c') ?m ?s)
      with (LevelZSet.scoreKey (LevelZSet.mk kz cz) m s);
    change (LevelZSet.scoreKey (LevelZSet.mk kz ?c) ?m ?s)
      with (LevelZSet.scoreKey (LevelZSet.mk kz cz) m s);
    change (LevelZSet.zsetKey (LevelZSet.set_totalCount (LevelZSet.mk kz ?c) ?c'))
      with (LevelZSet.zsetKey (LevelZSet.mk kz cz));
    change (LevelZSet.zsetKey (LevelZSet.mk kz ?c))
      with (LevelZSet.zsetKey (LevelZSet.mk kz cz));
    cbn [apply_batch foldl apply_op].
  - split_and!.
    + rewrite lookup_insert_ne by apply zsetKey_memberKey.
      rewrite lookup_insert_ne by (apply not_eq_sym, memberKey_scoreKey).
      rewrite lookup_delete_ne by (apply not_eq_sym, memberKey_scoreKey).
      apply lookup_insert_eq.
    + rewrite lookup_insert_ne by apply zsetKey_scoreKey. apply lookup_insert_eq.
    + intros o' [= <-] Hne.
      rewrite lookup_insert_ne by apply zsetKey_scoreKey.
      rewrite lookup_insert_ne by (intros Heq; by apply scoreKey_inj in Heq).
      apply lookup_delete_eq.
    + apply lookup_insert_eq.
    + intros m Hm.
      rewrite lookup_insert_ne by apply zsetKey_memberKey.
      rewrite lookup_insert_ne by (apply not_eq_sym, memberKey_scoreKey).
      rewrite lookup_delete_ne by (apply not_eq_sym, memberKey_scoreKey).
      apply lookup_insert_ne. intros Heq. by apply memberKey_inj in Heq.
    + intros k H1 H2 H3 H4. specialize (H3 _ eq_refl).
      rewrite lookup_insert_ne by congruence. rewrite lookup_insert_ne by congruence.
      rewrite lookup_delete_ne by congruence. by rewrite lookup_insert_ne by congruence.
  - split_and!.
    + rewrite lookup_insert_ne by apply zsetKey_memberKey.
      rewrite lookup_insert_ne by (apply not_eq_sym, memberKey_scoreKey).
      apply lookup_insert_eq.
    + rewrite lookup_insert_ne by apply zsetKey_scoreKey. apply lookup_insert_eq.
    + intros o' [=].
    + apply lookup_insert_eq.
    + intros m Hm.
      rewrite lookup_insert_ne by apply zsetKey_memberKey.
      rewrite lookup_insert_ne by (apply not_eq_sym, memberKey_scoreKey).
      apply lookup_insert_ne. intros Heq. by apply memberKey_inj in Heq.
    + intros k H1 H2 _ H4.
      rewrite lookup_insert_ne by congruence. rewrite lookup_insert_ne by congruence.
      by rewrite lookup_insert_ne by congruence.
Qed.

(** [Remove] of one member on a healthy engine, with the keys it leaves
    alone. *)
Lemma Remove_member_healthy (db : DB) (z : LevelZSet.t) (member : string) :
  rfault db = None → wfault db = None →
  let z0 := LevelZSet.initOnce db z in
  let old := kv db !! LevelZSet.memberKey z member in
  let n := match old with Some _ => 1 | None => 0 end in
  let count := wrap64 (LevelZSet.totalCount z0 - n) in
  ∃ db',
    LevelZSet.Remove [member] db z = (db', LevelZSet.set_totalCount z0 count, n) ∧
    LevelZSet.Score db' z member = None ∧
    (∀ s, old = Some s → kv db' !! LevelZSet.scoreKey z member s = None) ∧
    kv db' !! LevelZSet.zsetKey z
      = (if count =? 0 then None else Some (FormatInt count)) ∧
    (∀ m, m ≠ member →
       kv db' !! LevelZSet.memberKey z m = kv db !! LevelZSet.memberKey z m) ∧
    (∀ k, k ≠ LevelZSet.memberKey z member →
       (∀ s, old = Some s → k ≠ LevelZSet.scoreKey z member s) →
       k ≠ LevelZSet.zsetKey z → kv db' !! k = kv db !! k).
Proof.
  intros Hr Hw. destruct z as [kz cz].
  assert (∃ c0, LevelZSet.initOnce db (LevelZSet.mk kz cz) = LevelZSet.mk kz c0)
    as [c0 Hz0] by (unfold LevelZSet.initOnce; repeat case_match; by eexists).
  cbv zeta. unfold LevelZSet.Remove. rewrite Hz0.
  unfold LevelZSet.remove_loop, Get. rewrite Hr.
  change (LevelZSet.memberKey (LevelZSet.mk kz ?c) ?m)
    with (LevelZSet.memberKey (LevelZSet.mk kz cz) m).
  destruct (kv db !! LevelZSet.memberKey (LevelZSet.mk kz cz) member) as [o|] eqn:Hold;
    cbn [LevelZSet.totalCount LevelZSet.set_totalCount];
    [change (wrap64 (0 + 1)) with 1|];
    (destruct (wrap64 _ =? 0) eqn:Hzero);
    unfold Write; rewrite Hw;
    (eexists; split; [reflexivity|]);
    cbn [kv app]; rewrite Score_lookup by done; cbn [kv];
    change (LevelZSet.scoreKey (LevelZSet.mk kz ?c) ?m ?s)
      with (LevelZSet.scoreKey (LevelZSet.mk kz cz) m s);
    change (LevelZSet.zsetKey (LevelZSet.set_totalCount (LevelZSet.mk kz ?c) ?c'))
      with (LevelZSet.zsetKey (LevelZSet.mk kz cz));
    cbn [apply_batch foldl apply_op].
  - split_and!.
    + rewrite lookup_delete_ne by apply zsetKey_memberKey.
      rewrite lookup_delete_ne by (apply not_eq_sym, memberKey_scoreKey).
      apply lookup_delete_eq.
    + intros s [= <-]. rewrite lookup_delete_ne by apply zsetKey_scoreKey.
      apply lookup_delete_eq.
    + apply lookup_delete_eq.
    + intros m Hm. rewrite lookup_delete_ne by apply zsetKey_memberKey.
      rewrite lookup_delete_ne by (apply not_eq_sym, memberKey_scoreKey).
      apply lookup_delete_ne. intros Heq. by apply memberKey_inj in Heq.
    + intros k H1 H2 H3. specialize (H2 _ eq_refl).
      rewrite lookup_delete_ne by congruence. rewrite lookup_delete_ne by congruence.
      by rewrite lookup_delete_ne by congruence.
  - split_and!.
    + rewrite lookup_insert_ne by apply zsetKey_memberKey.
      rewrite lookup_delete_ne by (apply not_eq_sym, memberKey_scoreKey).
      apply lookup_delete_eq.
    + intros s [= <-]. rewrite lookup_insert_ne by apply zsetKey_scoreKey.
      apply lookup_delete_eq.
    + apply lookup_insert_eq.
    + intros m Hm. rewrite lookup_insert_ne by apply zsetKey_memberKey.
      rewrite lookup_delete_ne by (apply not_eq_sym, memberKey_scoreKey).
      apply lookup_delete_ne. intros Heq. by apply memberKey_inj in Heq.
    + intros k H1 H2 H3. specialize (H2 _ eq_refl).
      rewrite lookup_insert_ne by congruence. rewrite lookup_delete_ne by congruence.
      by rewrite lookup_delete_ne by congruence.
  - split_and!.
    + by rewrite lookup_delete_ne by apply zsetKey_memberKey.
    + intros s [=].
    + apply lookup_delete_eq.
    + intros m Hm. by rewrite lookup_delete_ne by apply zsetKey_memberKey.
    + intros k H1 _ H3. by rewrite lookup_delete_ne by congruence.
  - split_and!.
    + by rewrite lookup_insert_ne by apply zsetKey_memberKey.
    + intros s [=].
    + apply lookup_insert_eq.
    + intros m Hm. by rewrite lookup_insert_ne by apply zsetKey_memberKey.
    + intros k H1 _ H3. by rewrite lookup_insert_ne by congruence.
Qed.

(** [IncrBy] on a healthy engine: a member without a score gets the
    increment as its score, a member with a score gets the sum of the score
    read as decimal text and the increment; afterwards the member has that
    new score, its score-index entry exists, the entry of a different old
    score is gone, and the count record is as it was. *)
Theorem zset_IncrBy_spec (db : DB) (z : LevelZSet.t) (member : string) (incr : Z) :
  rfault db = None → wfault db = None →
  let old := kv db !! LevelZSet.memberKey z member in
  let newscore := match old with
                  | Some s => Int64ToBytes (wrap64 (BytesToInt64 s + incr))
                  | None => Int64ToBytes incr
                  end in
  ∃ db',
    LevelZSet.IncrBy member incr db z = (db', LevelZSet.initOnce db z, newscore) ∧
    LevelZSet.Score db' z member = Some newscore ∧
    kv db' !! LevelZSet.scoreKey z member newscore = Some EmptyString ∧
    (∀ s, old = Some s → s ≠ newscore → kv db' !! LevelZSet.scoreKey z member s = None) ∧
    kv db' !! LevelZSet.zsetKey z = kv db !! LevelZSet.zsetKey z.
Proof.
  intros Hr Hw. destruct z as [kz cz].
  assert (∃ c0, LevelZSet.initOnce db (LevelZSet.mk kz cz) = LevelZSet.mk kz c0)
    as [c0 Hz0] by (unfold LevelZSet.initOnce; repeat case_match; by eexists).
  cbv zeta. unfold LevelZSet.IncrBy. rewrite Hz0, Score_lookup by done.
  change (LevelZSet.memberKey (LevelZSet.mk kz ?c) ?m)
    with (LevelZSet.memberKey (LevelZSet.mk kz cz) m).
  destruct (kv db !! LevelZSet.memberKey (LevelZSet.mk kz cz) member) as [o|] eqn:Hold;
    unfold Write; rewrite Hw;
    (eexists; split; [reflexivity|]);
    cbn [kv app]; rewrite Score_lookup by done; cbn [kv];
    change (LevelZSet.scoreKey (LevelZSet.mk kz ?c) ?m ?s)
      with (LevelZSet.scoreKey (LevelZSet.mk kz cz) m s);
    cbn [apply_batch foldl apply_op].
  - split_and!.
    + rewrite lookup_insert_ne by (apply not_eq_sym, memberKey_scoreKey).
      apply lookup_insert_eq.
    + apply lookup_insert_eq.
    + intros s [= <-] Hne.
      rewrite lookup_insert_ne by (intros Heq; by apply scoreKey_inj in Heq).
      rewrite lookup_insert_ne by apply memberKey_scoreKey.
      apply lookup_delete_eq.
    + rewrite lookup_insert_ne by (apply not_eq_sym, zsetKey_scoreKey).
      rewrite lookup_insert_ne by (apply not_eq_sym, zsetKey_memberKey).
      by rewrite lookup_delete_ne by (apply not_eq_sym, zsetKey_scoreKey).
  - split_and!.
    + rewrite lookup_insert_ne by (apply not_eq_sym, memberKey_scoreKey).
      apply lookup_insert_eq.
    + apply lookup_insert_eq.
    + intros s [=].
    + rewrite lookup_insert_ne by (apply not_eq_sym, zsetKey_scoreKey).
      by rewrite lookup_insert_ne by (apply not_eq_sym, zsetKey_memberKey).
Qed.

Lemma zset_IncrBy_spec_witness :
  (rfault zset_db = None ∧ wfault zset_db = None) ∧
  ∃ db', LevelZSet.IncrBy "a" (-10) zset_db (LevelZSet.NewLevelZSet "k")
         = (db', LevelZSet.mk "k" 1, "-3") ∧
         LevelZSet.Score db' (LevelZSet.NewLevelZSet "k") "a" = Some "-3".
Proof.
  split; [done|].
  destruct (zset_IncrBy_spec zset_db (LevelZSet.NewLevelZSet "k") "a" (-10) eq_refl eq_refl)
    as (db' & Hincr & Hscore & _).
  exists db'. split; [exact Hincr|exact Hscore].
Defined.

(** What the two increments below share: the result of [IncrBy] and the
    score it leaves. *)
Lemma IncrBy_score (db : DB) (z : LevelZSet.t) (member : string) (incr : Z) :
  rfault db = None → wfault db = None →
  let old := kv db !! LevelZSet.memberKey z member in
  let newscore := match old with
                  | Some s => Int64ToBytes (wrap64 (BytesToInt64 s + incr))
                  | None => Int64ToBytes incr
                  end in
  ∃ db',
    LevelZSet.IncrBy member incr db z = (db', LevelZSet.initOnce db z, newscore) ∧
    LevelZSet.Score db' z member = Some newscore.
Proof.
  intros Hr Hw. destruct z as [kz cz].
  assert (∃ c0, LevelZSet.initOnce db (LevelZSet.mk kz cz) = LevelZSet.mk kz c0)
    as [c0 Hz0] by (unfold LevelZSet.initOnce; repeat case_match; by eexists).
  cbv zeta. unfold LevelZSet.IncrBy. rewrite Hz0, Score_lookup by done.
  change (LevelZSet.memberKey (LevelZSet.mk kz ?c) ?m)
    with (LevelZSet.memberKey (LevelZSet.mk kz cz) m).
  destruct (kv db !! LevelZSet.memberKey (LevelZSet.mk kz cz) member) as [o|] eqn:Hold;
    unfold Write; rewrite Hw;
    (eexists; split; [reflexivity|]);
    cbn [kv app]; rewrite Score_lookup by done; cbn [kv];
    change (LevelZSet.scoreKey (LevelZSet.mk kz ?c) ?m ?s)
      with (LevelZSet.scoreKey (LevelZSet.mk kz cz) m s);
    cbn [apply_batch foldl apply_op];
    rewrite lookup_insert_ne by (apply not_eq_sym, memberKey_scoreKey);
    apply lookup_insert_eq.
Qed.

(** Two increments of a member that had no score add up: its score is the
    decimal text of the sum. *)
Theorem zset_IncrBy_twice (db : DB) (z : LevelZSet.t) (member : string) (a b : Z) :
  rfault db = None → wfault db = None →
  kv db !! LevelZSet.memberKey z member = None → in_range a →
  let r1 := LevelZSet.IncrBy member a db z in
  let r2 := LevelZSet.IncrBy member b r1.1.1 r1.1.2 in
  r2.2 = Int64ToBytes (wrap64 (a + b)) ∧
  LevelZSet.Score r2.1.1 z member = Some (Int64ToBytes (wrap64 (a + b))).
Proof.
  intros Hr Hw Habs Ha r1 r2.
  destruct (IncrBy_score db z member a Hr Hw) as (db1 & H1 & Hs1).
  rewrite Habs in H1, Hs1.
  assert (rfault db1 = None ∧ wfault db1 = None) as [Hr1 Hw1].
  { unfold LevelZSet.IncrBy, Write in H1. rewrite Hw in H1.
    repeat case_match; simplify_eq; done. }
  set (z1 := LevelZSet.initOnce db z) in *.
  assert (LevelZSet.key z1 = LevelZSet.key z) as Hk by apply initOnce_key.
  assert (kv db1 !! LevelZSet.memberKey z1 member = Some (Int64ToBytes a)) as Hm1.
  { rewrite Score_lookup in Hs1 by done. rewrite <-Hs1.
    unfold LevelZSet.memberKey. by rewrite Hk. }
  destruct (IncrBy_score db1 z1 member b Hr1 Hw1) as (db2 & H2 & Hs2).
  rewrite Hm1 in H2, Hs2.
  change (BytesToInt64 (Int64ToBytes a)) with (ParseInt (FormatInt a)) in H2, Hs2.
  rewrite ParseInt_FormatInt in H2, Hs2 by done.
  unfold r2, r1. rewrite H1. cbn [fst snd]. rewrite H2. cbn [fst snd].
  split; [done|]. rewrite Score_lookup in Hs2 |- *.
  - rewrite <-Hs2. unfold LevelZSet.memberKey. by rewrite Hk.
  - unfold LevelZSet.IncrBy, Write in H2. rewrite Hw1 in H2.
    repeat case_match; simplify_eq; done.
  - unfold LevelZSet.IncrBy, Write in H2. rewrite Hw1 in H2.
    repeat case_match; simplify_eq; done.
Qed.

Lemma zset_IncrBy_twice_witness :
  let r1 := LevelZSet.IncrBy "m" 5 empty_db (LevelZSet.NewLevelZSet "k") in
  let r2 := LevelZSet.IncrBy "m" (-7) r1.1.1 r1.1.2 in
  (rfault empty_db = None ∧ wfault empty_db = None ∧ in_range 5) ∧
  r2.2 = "-2".
Proof.
  intros r1 r2.
  assert (in_range 5) as H5 by (unfold in_range, min_int, max_int; lia).
  split; [done|].
  exact (proj1 (zset_IncrBy_twice empty_db (LevelZSet.NewLevelZSet "k") "m" 5 (-7)
                  eq_refl eq_refl eq_refl H5)).
Defined.

(** ** [Add] with any number of arguments *)

Section zset_add.
Import LevelZSet ZSetSpec.

Lemma parse_digits_nonneg (s : string) : ∀ acc v,
  0 ≤ acc → parse_digits s acc = Some v → 0 ≤ v.
Proof.
  induction s as [|c s IH]; intros acc v Hacc Hs; cbn in Hs.
  - by injection Hs as <-.
  - destruct (is_digit c) eqn:Hd; [|done]. apply (IH (10 * acc + digit_val c)); [|done].
    unfold is_digit in Hd. apply andb_true_iff in Hd as [Hlo _].
    apply N.leb_le in Hlo. unfold digit_val. lia.
Qed.

(** [strconv.ParseInt] always yields an [int64]. *)
Lemma ParseInt_in_range (s : string) : in_range (ParseInt s).
Proof.
  unfold ParseInt.
  assert (∀ body (neg : bool),
            in_range match body with
                     | EmptyString => 0
                     | String _ _ =>
                         match parse_digits body 0 with
                         | None => 0
                         | Some n =>
                             if neg then (if 2 ^ 63 <? n then min_int else - n)
                             else (if max_int <? n then max_int else n)
                         end
                     end) as Hbody.
  { intros body neg. unfold in_range, min_int, max_int.
    destruct body as [|c body]; [lia|].
    destruct (parse_digits (String c body) 0) as [n|] eqn:Hn; [|lia].
    apply parse_digits_nonneg in Hn; [|done].
    destruct neg.
    - destruct (2 ^ 63 <? n) eqn:Hlt; [lia|]. apply Z.ltb_ge in Hlt. lia.
    - destruct (2 ^ 63 - 1 <? n) eqn:Hlt; [lia|]. apply Z.ltb_ge in Hlt. lia. }
  destruct s as [|c s]; [apply (Hbody EmptyString false)|].
  destruct c as [[] [] [] [] [] [] [] []]; cbv beta iota zeta;
    first [exact (Hbody s true) | exact (Hbody s false)
          | match goal with
            | |- context [parse_digits ?b 0] => exact (Hbody b false)
            end].
Qed.

Lemma initOnce_in_range (db : DB) (z : LevelZSet.t) :
  in_range (totalCount z) → in_range (totalCount (initOnce db z)).
Proof.
  intros Hz. unfold initOnce.
  repeat case_match; cbn;
    first [done | apply ParseInt_in_range | (unfold in_range, min_int, max_int; lia)].
Qed.

Lemma absent_members_key (db : DB) (l l' : LevelZSet.t) scoreMembers :
  key l' = key l → absent_members db l' scoreMembers = absent_members db l scoreMembers.
Proof.
  intros Hk.
  assert (∀ k sms, (length sms ≤ k)%nat →
            absent_members db l' sms = absent_members db l sms) as H.
  { induction k as [|k IH]; intros [|s [|m sms]] Hlen; try done; cbn in Hlen; [lia|].
    cbn [absent_members]. rewrite IH by lia. unfold memberKey. by rewrite Hk. }
  by apply (H (length scoreMembers)).
Qed.

Lemma add_loop_spec (db : DB) (k : nat) : ∀ scoreMembers l batch n,
  rfault db = None → (length scoreMembers ≤ k)%nat →
  in_range (totalCount l) → in_range n →
  if Nat.even (length scoreMembers) then
    ∃ batch',
      add_loop db scoreMembers l batch n
      = Some (set_totalCount l (wrap64 (totalCount l + absent_members db l scoreMembers)),
              batch', wrap64 (n + Z.of_nat (length scoreMembers / 2)))
  else add_loop db scoreMembers l batch n = None.
Proof.
  induction k as [|k IH]; intros sms l batch n Hr Hlen Hc Hn.
  - destruct sms; [|cbn in Hlen; lia]. cbn. exists batch.
    rewrite !Z.add_0_r, !wrap64_id by done. by destruct l.
  - destruct sms as [|score [|member rest]]; [|done|].
    { cbn. exists batch. rewrite !Z.add_0_r, !wrap64_id by done. by destruct l. }
    cbn [length Nat.even]. cbn [length] in Hlen.
    specialize (IH rest). cbn [add_loop]. unfold Get. rewrite Hr.
    assert ((S (S (length rest)) / 2)%nat = S (length rest / 2)) as ->.
    { change (S (S (length rest))) with (2 + length rest)%nat.
      rewrite (Nat.add_comm 2). rewrite <-(Nat.mul_1_l 2) at 1.
      rewrite Nat.div_add by lia. lia. }
    cbn [absent_members].
    destruct (kv db !! memberKey l member) as [old|] eqn:Hold.
    + match goal with |- context [add_loop db rest l ?b ?n'] =>
        specialize (IH l b n' Hr ltac:(lia) Hc (wrap64_in_range _)) end.
      destruct (Nat.even (length rest)); [|done].
      destruct IH as [batch' IH]. rewrite IH. exists batch'.
      do 2 f_equal. rewrite wrap64_add_l. f_equal. lia.
    + match goal with |- context [add_loop db rest ?l' ?b ?n'] =>
        specialize (IH l' b n' Hr ltac:(lia) (wrap64_in_range _) (wrap64_in_range _)) end.
      destruct (Nat.even (length rest)); [|done].
      destruct IH as [batch' IH]. rewrite IH. exists batch'.
      f_equal. f_equal; [f_equal|].
      * destruct l as [kz c]. unfold set_totalCount. cbn [key totalCount].
        f_equal. rewrite wrap64_add_l. f_equal.
        rewrite (absent_members_key db (mk kz c) (mk kz (wrap64 (c + 1)))) by done. lia.
      * rewrite wrap64_add_l. f_equal. lia.
Qed.
End zset_add.

(** [Add] with any arguments, on an engine whose reads succeed.  An odd
    number of arguments is a run-time panic.  Otherwise the call returns the
    number of pairs, and the cached count grows by the number of pairs whose
    member had no score before the call, a member given twice being counted
    twice. *)
Theorem zset_Add_count (db : DB) (z : LevelZSet.t) (scoreMembers : list string) :
  rfault db = None → in_range (LevelZSet.totalCount z) →
  (Nat.odd (length scoreMembers) = true → LevelZSet.Add scoreMembers db z = None) ∧
  (Nat.even (length scoreMembers) = true →
     ∃ db' z',
       LevelZSet.Add scoreMembers db z
       = Some (db', z', wrap64 (Z.of_nat (length scoreMembers / 2))) ∧
       LevelZSet.key z' = LevelZSet.key z ∧
       LevelZSet.totalCount z'
       = wrap64 (LevelZSet.totalCount (LevelZSet.initOnce db z)
                 + ZSetSpec.absent_members db z scoreMembers)).
Proof.
  intros Hr Hz.
  pose proof (add_loop_spec db (length scoreMembers) scoreMembers
                (LevelZSet.initOnce db z) [] 0 Hr (le_n _)
                (initOnce_in_range db z Hz)) as Hloop.
  assert (in_range 0) as H0 by (unfold in_range, min_int, max_int; lia).
  specialize (Hloop H0). unfold LevelZSet.Add. rewrite <-Nat.negb_even. split.
  - intros Hodd. apply negb_true_iff in Hodd. rewrite Hodd in Hloop. by rewrite Hloop.
  - intros Heven. rewrite Heven in Hloop. destruct Hloop as [batch' ->].
    destruct (Write db _) as [db' err]. eexists db', _. split; [done|].
    cbn [LevelZSet.key LevelZSet.totalCount LevelZSet.set_totalCount].
    split; [apply initOnce_key|].
    by rewrite (absent_members_key db z (LevelZSet.initOnce db z)) by apply initOnce_key.
Qed.

Lemma zset_Add_count_witness :
  (rfault zset_db = None ∧ in_range (-1)) ∧
  LevelZSet.Add ["1"; "b"; "2"; "b"; "3"] zset_db (LevelZSet.NewLevelZSet "k") = None ∧
  ∃ db' z', LevelZSet.Add ["1"; "b"; "2"; "b"; "3"; "a"] zset_db (LevelZSet.NewLevelZSet "k")
            = Some (db', z', 3) ∧ LevelZSet.totalCount z' = 3.
Proof.
  assert (in_range (-1)) as H1 by (unfold in_range, min_int, max_int; lia).
  split; [done|].
  split.
  - by apply (zset_Add_count zset_db (LevelZSet.NewLevelZSet "k") ["1"; "b"; "2"; "b"; "3"]
                eq_refl H1).
  - destruct (zset_Add_count zset_db (LevelZSet.NewLevelZSet "k")
                ["1"; "b"; "2"; "b"; "3"; "a"] eq_refl H1) as (_ & Heven).
    destruct (Heven eq_refl) as (db' & z' & Hadd & _ & Hcount).
    exists db', z'. split; [exact Hadd|exact Hcount].
Defined.

(** ** Score-index keys and their parts *)

Section split_keys.
Import LevelZSet.

Lemma prefix_byte (c a : ascii) (s : string) :
  String.prefix (String c EmptyString) (String a s) = Ascii.eqb a c.
Proof.
  cbn [String.prefix]. destruct (ascii_dec c a) as [->|Hne].
  - rewrite Ascii.eqb_refl. by destruct s.
  - symmetry. apply Ascii.eqb_neq. congruence.
Qed.

Lemma last_index_absent (c : ascii) (s : string) : ∀ i acc,
  has_byte c s = false → last_index_from s (String c EmptyString) i acc = acc.
Proof.
  induction s as [|a s IH]; intros i acc Hs; [done|].
  cbn [has_byte] in Hs. apply orb_false_iff in Hs as [Ha Hs].
  cbn [last_index_from]. rewrite prefix_byte, Ha. by apply IH.
Qed.

Lemma last_index_last (c : ascii) (s m : string) : ∀ i acc,
  has_byte c m = false →
  last_index_from (s +:+ String c m) (String c EmptyString) i acc
  = i + Z.of_nat (String.length s).
Proof.
  induction s as [|a s IH]; intros i acc Hm.
  - change (EmptyString +:+ String c m) with (String c m).
    cbn [last_index_from]. rewrite prefix_byte, Ascii.eqb_refl.
    rewrite last_index_absent by done. cbn. lia.
  - rewrite append_cons. cbn [last_index_from]. rewrite IH by done.
    cbn [String.length]. lia.
Qed.

Lemma last_index_nonneg (s sep : string) : ∀ i acc,
  0 ≤ i → 0 ≤ acc → 0 ≤ last_index_from s sep i acc.
Proof.
  induction s as [|a s IH]; intros i acc Hi Hacc; cbn [last_index_from].
  - by case_match.
  - apply IH; [lia|]. by case_match.
Qed.

Lemma last_index_present (c : ascii) (s : string) : ∀ i acc,
  0 ≤ i → has_byte c s = true → 0 ≤ last_index_from s (String c EmptyString) i acc.
Proof.
  induction s as [|a s IH]; intros i acc Hi Hs; [done|].
  cbn [has_byte] in Hs. cbn [last_index_from]. rewrite prefix_byte.
  destruct (Ascii.eqb a c) eqn:Ha.
  - apply last_index_nonneg; lia.
  - apply IH; [lia|done].
Qed.

Lemma has_byte_app (c : ascii) (s t : string) :
  has_byte c (s +:+ t) = has_byte c s || has_byte c t.
Proof.
  induction s as [|a s IH]; [done|].
  rewrite append_cons. cbn [has_byte]. by rewrite IH, orb_assoc.
Qed.

Lemma slice_to_app (s t : string) : slice_to (String.length s) (s +:+ t) = s.
Proof.
  induction s as [|a s IH].
  - by destruct t.
  - rewrite append_cons. cbn [String.length slice_to]. by rewrite IH.
Qed.

Lemma slice_from_app (s t : string) : slice_from (String.length s) (s +:+ t) = t.
Proof.
  induction s as [|a s IH].
  - by destruct t.
  - rewrite append_cons. cbn [String.length slice_from]. by rewrite IH.
Qed.

(** A score-index key is cut back into the score and the member it was
    built from, as long as neither holds the separator. *)
Lemma splitScoreKey_scoreKey (z : LevelZSet.t) (member score : string) :
  has_byte "#" score = false → has_byte "#" member = false →
  splitScoreKey (scoreKey z member score) = Some (score, member).
Proof.
  intros Hs Hm.
  set (p := ZSET_PREFIX +:+ SEP_LEFT +:+ LevelZSet.key z +:+ SEP_RIGHT +:+ "s").
  assert (scoreKey z member score = (p +:+ String "#" score) +:+ String "#" member) as ->.
  { unfold scoreKey, joinStringBytes, p, SEP. cbn [foldr].
    rewrite !append_assoc, append_empty_r. reflexivity. }
  unfold splitScoreKey, LastIndex, SEP, copyBytes.
  rewrite last_index_last by done.
  rewrite Z.add_0_l.
  destruct (Z.ltb_spec (Z.of_nat (String.length (p +:+ String "#" score))) 0) as [?|_]; [lia|].
  rewrite Nat2Z.id, slice_to_app, last_index_last by done.
  replace (Z.to_nat (Z.of_nat (String.length (p +:+ String "#" score)) + 1))
    with (String.length ((p +:+ String "#" score) +:+ "#")).
  2:{ rewrite append_length. cbn. lia. }
  replace ((p +:+ String "#" score) +:+ String "#" member)
    with (((p +:+ String "#" score) +:+ "#") +:+ member).
  2:{ by rewrite append_assoc. }
  rewrite slice_from_app.
  replace (Z.to_nat (0 + Z.of_nat (String.length p) + 1)) with (String.length (p +:+ "#")).
  2:{ rewrite append_length. cbn. lia. }
  replace (p +:+ String "#" score) with ((p +:+ "#") +:+ score).
  2:{ by rewrite append_assoc. }
  by rewrite slice_from_app.
Qed.

End split_keys.

(** ** Enumerations over a window of positions *)

Section windows.
Context {A : Type} (f : string → A → option A) (lo : Z) (hi : option Z).
Context (cb : nat → string → string → option A → option A * bool).
Hypothesis Hcb : ∀ i k v a,
  cb i k v (Some a) =
    if Z.of_nat i <? lo then (Some a, false)
    else if match hi with Some h => h <=? Z.of_nat i | None => false end
         then (Some a, true)
         else match f k a with
              | Some a' => (Some a', false)
              | None => (None, true)
              end.

Lemma foldl_bind_None (es : list (string * string)) :
  foldl (λ st e, st ≫= f e.1) None es = None.
Proof. by induction es. Qed.

Lemma enum_window (es : list (string * string)) : ∀ i a,
  enum_loop cb i es (Some a)
  = foldl (λ st e, st ≫= f e.1) (Some a)
      (ZSetSpec.window (lo - Z.of_nat i) ((λ h, h - Z.of_nat i) <$> hi) es).
Proof.
  unfold ZSetSpec.window.
  induction es as [|[k v] es IH]; intros i a.
  - destruct hi; cbn; by rewrite ?take_nil, ?drop_nil.
  - cbn [enum_loop]. rewrite Hcb.
    destruct (Z.ltb_spec (Z.of_nat i) lo) as [Hlo|Hlo].
    + rewrite IH.
      replace (Z.to_nat (lo - Z.of_nat i)) with (S (Z.to_nat (lo - Z.of_nat (S i)))) by lia.
      destruct hi as [h|]; cbn [fmap option_fmap option_map]; [|done].
      destruct (Z.to_nat (h - Z.of_nat i)) as [|n] eqn:Hn.
      * replace (Z.to_nat (h - Z.of_nat (S i))) with 0%nat by lia.
        by rewrite !take_0, !drop_nil.
      * replace (Z.to_nat (h - Z.of_nat (S i))) with n by lia. done.
    + replace (Z.to_nat (lo - Z.of_nat i)) with 0%nat by lia. rewrite drop_0.
      destruct hi as [h|]; cbn [fmap option_fmap option_map].
      * destruct (Z.leb_spec h (Z.of_nat i)) as [Hhi|Hhi].
        { replace (Z.to_nat (h - Z.of_nat i)) with 0%nat by lia. done. }
        replace (Z.to_nat (h - Z.of_nat i)) with (S (Z.to_nat (h - Z.of_nat (S i)))) by lia.
        cbn [take foldl mbind option_bind fst].
        destruct (f k a) as [a'|]; [|by rewrite foldl_bind_None].
        rewrite IH. cbn [fmap option_fmap option_map].
        replace (Z.to_nat (lo - Z.of_nat (S i))) with 0%nat by lia. by rewrite drop_0.
      * cbn [foldl mbind option_bind fst].
        destruct (f k a) as [a'|]; [|by rewrite foldl_bind_None].
        rewrite IH. cbn [fmap option_fmap option_map].
        replace (Z.to_nat (lo - Z.of_nat (S i))) with 0%nat by lia. by rewrite drop_0.
Qed.

End windows.

(** ** Ranges of a sorted set *)

Section zset_ranges.
Import LevelZSet.

(** Every key between two bounds with a common prefix has that prefix. *)
Lemma key_between_prefix (p : string) : ∀ a b k,
  key_between (p +:+ a) (p +:+ b) k = true → ∃ r, k = p +:+ r.
Proof.
  induction p as [|c p IH]; intros a b k Hk; [by exists k|].
  unfold key_between, String.leb in Hk. apply andb_true_iff in Hk as [H1 H2].
  destruct k as [|d k]; [done|].
  rewrite !append_cons in H1, H2. cbn [String.compare] in H1, H2.
  unfold Ascii.compare in H1, H2.
  destruct (N.compare_spec (N_of_ascii c) (N_of_ascii d)) as [Heq|Hlt|Hgt]; [| |done].
  - assert (c = d) as <-.
    { by rewrite <-(ascii_N_embedding c), <-(ascii_N_embedding d), Heq. }
    rewrite N.compare_refl in H2.
    destruct (IH a b k) as [r ->]; [|by exists r].
    unfold key_between, String.leb. by rewrite andb_true_iff.
  - apply N.compare_gt_iff in Hlt. by rewrite Hlt in H2.
Qed.

Lemma scoreKeyPrefix_sep (z : t) (r : string) :
  has_byte "#" (scoreKeyPrefix z +:+ r) = true.
Proof.
  unfold scoreKeyPrefix, joinStringBytes, SEP. cbn [foldr].
  rewrite !has_byte_app. cbn [has_byte]. rewrite Ascii.eqb_refl.
  cbn [orb]. by rewrite !orb_true_r.
Qed.

(** The keys a range of the score index enumerates can all be split. *)
Lemma splitScoreKey_between (z : t) (a b k : string) :
  key_between (scoreKeyPrefix z +:+ a) (scoreKeyPrefix z +:+ b) k = true →
  is_Some (splitScoreKey k).
Proof.
  intros Hk. apply key_between_prefix in Hk as [r ->].
  unfold splitScoreKey, LastIndex, SEP.
  pose proof (last_index_present "#" (scoreKeyPrefix z +:+ r) 0 (-1) (Z.le_refl 0)
                (scoreKeyPrefix_sep z r)) as Hpos.
  destruct (Z.ltb_spec (last_index_from (scoreKeyPrefix z +:+ r) "#" 0 (-1)) 0); [lia|done].
Qed.

Lemma window_subseteq {B} (lo : Z) (hi : option Z) (es : list B) (e : B) :
  e ∈ ZSetSpec.window lo hi es → e ∈ es.
Proof.
  unfold ZSetSpec.window. intros He. apply list_elem_of_lookup in He as [i He].
  rewrite lookup_drop in He. destruct hi as [h|].
  - apply lookup_take_Some in He as [He _]. by eapply list_elem_of_lookup_2.
  - by eapply list_elem_of_lookup_2.
Qed.

Lemma pairs_of_window (z : t) (db : DB) (a b : string) (d : direction) lo hi :
  is_Some (ZSetSpec.pairs_of
    (ZSetSpec.window lo hi
       (scan db (scoreKeyPrefix z +:+ a) (scoreKeyPrefix z +:+ b) d))).
Proof.
  unfold ZSetSpec.pairs_of. apply mapM_is_Some, Forall_forall.
  intros [k v] He. apply window_subseteq in He.
  apply scan_between in He. cbn. by eapply splitScoreKey_between.
Qed.

Lemma fold_pairs (es : list (string * string)) : ∀ sm : list string,
  foldl (λ st e, st ≫= (λ sm,
           match splitScoreKey e.1 with
           | Some (score, member) => Some (sm ++ [score; member])
           | None => None
           end)) (Some sm) es
  = ps ← ZSetSpec.pairs_of es; Some (sm ++ ZSetSpec.flat ps).
Proof.
  unfold ZSetSpec.pairs_of, ZSetSpec.flat.
  induction es as [|[k v] es IH]; intros sm.
  - cbn. by rewrite app_nil_r.
  - cbn [foldl mbind option_bind fst mapM].
    destruct (splitScoreKey k) as [[score member]|].
    + rewrite IH. cbn [mbind option_bind].
      destruct (mapM (λ e, splitScoreKey e.1) es) as [ps|]; [|done].
      cbn. by rewrite <-app_assoc.
    + cbn. clear IH. by induction es.
Qed.

Lemma fold_removed (z : t) (es : list (string * string)) : ∀ (batch : WriteBatch) (n : Z),
  in_range n →
  foldl (λ st e, st ≫= (λ '(batch, n),
           match splitScoreKey e.1 with
           | Some (score, member) =>
               Some (batch ++ [BDelete (memberKey z member);
                               BDelete (scoreKey z member score)], wrap64 (n + 1))
           | None => None
           end)) (Some (batch, n)) es
  = ps ← ZSetSpec.pairs_of es;
    Some (batch ++ (BDelete <$> ZSetSpec.removed_keys z ps),
          wrap64 (n + Z.of_nat (length ps))).
Proof.
  unfold ZSetSpec.pairs_of, ZSetSpec.removed_keys.
  induction es as [|[k v] es IH]; intros batch n Hn.
  - cbn. by rewrite app_nil_r, Z.add_0_r, wrap64_id.
  - cbn [foldl mbind option_bind fst mapM].
    destruct (splitScoreKey k) as [[score member]|].
    + rewrite IH by apply wrap64_in_range. cbn [mbind option_bind].
      destruct (mapM (λ e, splitScoreKey e.1) es) as [ps|]; [|done].
      cbn -[wrap64 Z.add Z.of_nat memberKey scoreKey].
      rewrite wrap64_add_l, <-app_assoc. do 3 f_equal. lia.
    + cbn. clear IH. by induction es.
Qed.

Lemma range_by_index_cb_window (start stop : Z) i k v (sm : list string) :
  range_by_index_cb start stop i k v (Some sm) =
    if Z.of_nat i <? start then (Some sm, false)
    else if match ZSetSpec.index_bound stop with
            | Some h => h <=? Z.of_nat i
            | None => false
            end
         then (Some sm, true)
         else match (match splitScoreKey k with
                     | Some (score, member) => Some (sm ++ [score; member])
                     | None => None
                     end) with
              | Some a' => (Some a', false)
              | None => (None, true)
              end.
Proof.
  unfold range_by_index_cb, ZSetSpec.index_bound. rewrite Z.geb_leb.
  destruct (Z.ltb_spec (Z.of_nat i) start), (Z.leb_spec start (Z.of_nat i)),
    (Z.eqb_spec stop (-1)), (Z.leb_spec (Z.of_nat i) stop); try lia;
    cbn [andb orb]; try (destruct (Z.leb_spec (stop + 1) (Z.of_nat i)); try lia);
    try done; by destruct (splitScoreKey k) as [[??]|].
Qed.

Lemma range_by_score_cb_window (offset count : Z) i k v (sm : list string) :
  range_by_score_cb offset count i k v (Some sm) =
    if Z.of_nat i <? offset then (Some sm, false)
    else if match ZSetSpec.score_bound offset count with
            | Some h => h <=? Z.of_nat i
            | None => false
            end
         then (Some sm, true)
         else match (match splitScoreKey k with
                     | Some (score, member) => Some (sm ++ [score; member])
                     | None => None
                     end) with
              | Some a' => (Some a', false)
              | None => (None, true)
              end.
Proof.
  unfold range_by_score_cb, ZSetSpec.score_bound. rewrite Z.geb_leb.
  destruct (Z.ltb_spec (Z.of_nat i) offset), (Z.eqb_spec count (-1));
    cbn [andb orb negb]; try done;
    try (destruct (Z.leb_spec (wrap64 (offset + count)) (Z.of_nat i)); try done);
    by destruct (splitScoreKey k) as [[??]|].
Qed.

Lemma remove_by_index_cb_window (z : t) (start stop : Z) i k v (a : WriteBatch * Z) :
  remove_by_index_cb z start stop i k v (Some a) =
    if Z.of_nat i <? start then (Some a, false)
    else if match ZSetSpec.index_bound stop with
            | Some h => h <=? Z.of_nat i
            | None => false
            end
         then (Some a, true)
         else match (let '(batch, n) := a in
                     match splitScoreKey k with
                     | Some (score, member) =>
                         Some (batch ++ [BDelete (memberKey z member);
                                         BDelete (scoreKey z member score)], wrap64 (n + 1))
                     | None => None
                     end) with
              | Some a' => (Some a', false)
              | None => (None, true)
              end.
Proof.
  unfold remove_by_index_cb, remove_entry, ZSetSpec.index_bound. rewrite Z.geb_leb.
  destruct a as [batch n].
  destruct (Z.ltb_spec (Z.of_nat i) start), (Z.leb_spec start (Z.of_nat i)),
    (Z.eqb_spec stop (-1)), (Z.leb_spec (Z.of_nat i) stop); try lia;
    cbn [andb orb]; try (destruct (Z.leb_spec (stop + 1) (Z.of_nat i)); try lia);
    try done; by destruct (splitScoreKey k) as [[??]|].
Qed.

Lemma window_0 {B} (lo : Z) (hi : option Z) (es : list B) :
  ZSetSpec.window (lo - Z.of_nat 0) ((λ h, h - Z.of_nat 0) <$> hi) es
  = ZSetSpec.window lo hi es.
Proof.
  unfold ZSetSpec.window. rewrite Z.sub_0_r.
  destruct hi as [h|]; cbn; by rewrite ?Z.sub_0_r.
Qed.

End zset_ranges.

(** When the keys of some entries split into the pairs [ps], a key built
    from a score and a member free of the separator gives that score and
    member, at the same position. *)
Lemma pairs_of_lookup (z : LevelZSet.t) es ps (i : nat) (member score v : string) :
  ZSetSpec.pairs_of es = Some ps →
  has_byte "#" score = false → has_byte "#" member = false →
  es !! i = Some (LevelZSet.scoreKey z member score, v) → ps !! i = Some (score, member).
Proof.
  unfold ZSetSpec.pairs_of. intros Hps Hs Hm Hi. apply mapM_Some in Hps.
  destruct (Forall2_lookup_l _ _ _ _ _ Hps Hi) as (p & Hp & Hsplit).
  change (LevelZSet.splitScoreKey (LevelZSet.scoreKey z member score) = Some p) in Hsplit.
  rewrite splitScoreKey_scoreKey in Hsplit by done. by injection Hsplit as <-.
Qed.

Lemma pairs_of_length es ps : ZSetSpec.pairs_of es = Some ps → length ps = length es.
Proof.
  unfold ZSetSpec.pairs_of. intros Hps. apply mapM_Some in Hps.
  symmetry. by eapply Forall2_length.
Qed.

Lemma flat_lookup (ps : list (string * string)) : ∀ (i : nat) (score member : string),
  ps !! i = Some (score, member) →
  ZSetSpec.flat ps !! (2 * i)%nat = Some score ∧
  ZSetSpec.flat ps !! (2 * i + 1)%nat = Some member.
Proof.
  unfold ZSetSpec.flat.
  induction ps as [|p ps IH]; intros i score member Hi; [done|].
  destruct i as [|i].
  - injection Hi as ->. done.
  - replace (2 * S i)%nat with (S (S (2 * i))) by lia.
    replace (S (S (2 * i)) + 1)%nat with (S (S (2 * i + 1))) by lia.
    apply (IH i score member Hi).
Qed.



(** [RangeByScore] never fails while splitting a key.  It returns one pair
    for each score-index entry at the positions [offset .. offset+count-1]
    of the scan of the key interval from [min] to [max], in scan order
    ([count = -1]: up to the end): the pair [splitScoreKey] cuts from the key
    of the entry, which for a score and a member free of the separator is
    the score and the member of the entry. *)
Theorem zset_RangeByScore_window (db : DB) (z : LevelZSet.t) (high2low : bool)
    (min max : string) (offset count : Z) :
  let es := ZSetSpec.window offset (ZSetSpec.score_bound offset count)
              (scan db (LevelZSet.scoreKeyPrefix z +:+ min)
                 (LevelZSet.scoreKeyPrefix z +:+ max +:+ MAXBYTE)
                 (if high2low then IteratorBackward else IteratorForward)) in
  ∃ ps,
    ZSetSpec.pairs_of es = Some ps ∧
    LevelZSet.RangeByScore high2low min max offset count db z = Some (ZSetSpec.flat ps) ∧
    length ps = length es ∧
    (∀ (i : nat) member score v,
       has_byte "#" score = false → has_byte "#" member = false →
       es !! i = Some (LevelZSet.scoreKey z member score, v) →
       ps !! i = Some (score, member) ∧
       ZSetSpec.flat ps !! (2 * i)%nat = Some score ∧
       ZSetSpec.flat ps !! (2 * i + 1)%nat = Some member).
Proof.
  intros es. unfold LevelZSet.RangeByScore, Enumerate.
  rewrite (enum_window _ offset (ZSetSpec.score_bound offset count) _
             (range_by_score_cb_window offset count)).
  rewrite window_0, fold_pairs.
  set (d := if high2low then IteratorBackward else IteratorForward) in *.
  destruct (pairs_of_window z db min (max +:+ MAXBYTE) d offset
              (ZSetSpec.score_bound offset count)) as [ps Hps].
  fold es in Hps |- *.
  exists ps. rewrite Hps. split; [done|]. split; [done|].
  split; [by apply pairs_of_length|].
  intros i member score v Hs Hm Hi.
  pose proof (pairs_of_lookup z es ps i member score v Hps Hs Hm Hi) as Hp.
  split; [exact Hp|]. by apply flat_lookup.
Qed.

Lemma zset_RangeByScore_window_witness :
  (has_byte "#" "7" = false ∧ has_byte "#" "a" = false) ∧
  ∃ ps, LevelZSet.RangeByScore false "5" "8" 0 1 zset_db (LevelZSet.NewLevelZSet "k")
        = Some (ZSetSpec.flat ps) ∧
        length ps = 1%nat ∧
        ZSetSpec.flat ps !! 0%nat = Some "7" ∧ ZSetSpec.flat ps !! 1%nat = Some "a".
Proof.
  split; [done|].
  destruct (zset_RangeByScore_window zset_db (LevelZSet.NewLevelZSet "k") false "5" "8" 0 1)
    as (ps & _ & Hrun & Hlen & Hwf).
  destruct (Hwf 0%nat "a" "7" EmptyString eq_refl eq_refl) as (_ & H0 & H1);
    [vm_compute; reflexivity|].
  exists ps. split; [exact Hrun|]. split; [exact Hlen|]. split; [exact H0|exact H1].
Defined.

(** ** Removal by position and by score *)

Section zset_remove.
Import LevelZSet.

Lemma memberKey_key (l l' : t) m : key l = key l' → memberKey l m = memberKey l' m.
Proof. unfold memberKey. by intros ->. Qed.

Lemma scoreKey_key (l l' : t) m s : key l = key l' → scoreKey l m s = scoreKey l' m s.
Proof. unfold scoreKey. by intros ->. Qed.

Lemma zsetKey_key (l l' : t) : key l = key l' → zsetKey l = zsetKey l'.
Proof. unfold zsetKey. by intros ->. Qed.

Lemma scoreKeyPrefix_key (l l' : t) : key l = key l' → scoreKeyPrefix l = scoreKeyPrefix l'.
Proof. unfold scoreKeyPrefix. by intros ->. Qed.

Lemma removed_keys_key (l l' : t) ps :
  key l = key l' → ZSetSpec.removed_keys l ps = ZSetSpec.removed_keys l' ps.
Proof.
  intros Hk. unfold ZSetSpec.removed_keys. f_equal. apply list_fmap_ext.
  intros _ p _. by rewrite (memberKey_key l l'), (scoreKey_key l l').
Qed.

Lemma zsetKey_not_removed (l : t) ps : zsetKey l ∉ ZSetSpec.removed_keys l ps.
Proof.
  unfold ZSetSpec.removed_keys. intros Hin.
  apply list_elem_of_In, in_concat in Hin as (ks & Hks & Hin).
  apply list_elem_of_In in Hks, Hin.
  apply list_elem_of_fmap in Hks as (p & -> & _).
  apply elem_of_cons in Hin as [Hin|Hin]; [by apply zsetKey_memberKey in Hin|].
  apply elem_of_cons in Hin as [Hin|Hin]; [by apply zsetKey_scoreKey in Hin|].
  by apply elem_of_nil in Hin.
Qed.

(** The effect of the common tail of the removals on a healthy engine. *)
Lemma finish_remove_spec (db : DB) (l : t) (keys : list string) (n : Z) :
  wfault db = None → zsetKey l ∉ keys →
  ∃ db' l',
    finish_remove db l (BDelete <$> keys) n = (db', l', n) ∧
    key l' = key l ∧
    totalCount l' = wrap64 (totalCount l - n) ∧
    (∀ k, k ∈ keys → kv db' !! k = None) ∧
    kv db' !! zsetKey l
      = (if totalCount l' =? 0 then None else Some (FormatInt (totalCount l'))) ∧
    (∀ k, k ∉ keys → k ≠ zsetKey l → kv db' !! k = kv db !! k).
Proof.
  intros Hw Hz. unfold finish_remove, Write. rewrite Hw.
  set (l' := set_totalCount l (wrap64 (totalCount l - n))).
  assert (zsetKey l' = zsetKey l) as Hzk by (by apply zsetKey_key).
  assert (totalCount l' = wrap64 (totalCount l - n)) as Hc by done.
  rewrite Hzk. exists (mkDB (apply_batch (kv db)
    ((BDelete <$> keys) ++
       [if totalCount l' =? 0 then BDelete (zsetKey l) else BPut (zsetKey l) (zsetValue l')]))
    (rfault db) None), l'.
  split; [by destruct (totalCount l' =? 0)|].
  split; [done|]. split; [done|]. cbn [kv].
  unfold apply_batch. rewrite foldl_snoc. fold (apply_batch (kv db) (BDelete <$> keys)).
  split_and!.
  - intros k Hk. assert (k ≠ zsetKey l) as Hne by (intros ->; done).
    destruct (totalCount l' =? 0); cbn [apply_op].
    + rewrite lookup_delete_ne by done. apply apply_deletes_gone. by left.
    + rewrite lookup_insert_ne by done. apply apply_deletes_gone. by left.
  - destruct (totalCount l' =? 0); cbn [apply_op].
    + apply lookup_delete_eq.
    + apply lookup_insert_eq.
  - intros k Hk Hne.
    destruct (totalCount l' =? 0); cbn [apply_op].
    + rewrite lookup_delete_ne by done. by apply apply_deletes_other.
    + rewrite lookup_insert_ne by done. by apply apply_deletes_other.
Qed.

(** A well-formed entry of a list of score-index entries is among the pairs
    the list splits into. *)
Lemma pairs_of_elem (z : t) es ps (member score v : string) :
  ZSetSpec.pairs_of es = Some ps →
  has_byte "#" score = false → has_byte "#" member = false →
  (scoreKey z member score, v) ∈ es → (score, member) ∈ ps.
Proof.
  unfold ZSetSpec.pairs_of. intros Hps Hs Hm Hin.
  apply mapM_Some in Hps.
  apply list_elem_of_lookup in Hin as [i Hi].
  destruct (Forall2_lookup_l _ _ _ _ _ Hps Hi) as (p & Hp & Hsplit).
  change (splitScoreKey (scoreKey z member score) = Some p) in Hsplit.
  rewrite splitScoreKey_scoreKey in Hsplit by done.
  injection Hsplit as <-. by eapply list_elem_of_lookup_2.
Qed.

Lemma removed_keys_elem (z : t) ps (member score : string) :
  (score, member) ∈ ps →
  memberKey z member ∈ ZSetSpec.removed_keys z ps ∧
  scoreKey z member score ∈ ZSetSpec.removed_keys z ps.
Proof.
  intros Hin. unfold ZSetSpec.removed_keys.
  split; apply list_elem_of_In, in_concat;
    exists [memberKey z member; scoreKey z member score];
    (split; [|apply list_elem_of_In; set_solver]);
    apply list_elem_of_In, list_elem_of_fmap; by exists (score, member).
Qed.

Lemma remove_by_score_cb_window (z : t) (i : nat) (k v : string) (a : WriteBatch * Z) :
  remove_entry z k (Some a) =
    if Z.of_nat i <? 0 then (Some a, false)
    else if match @None Z with
            | Some h => h <=? Z.of_nat i
            | None => false
            end
         then (Some a, true)
         else match (let '(batch, n) := a in
                     match splitScoreKey k with
                     | Some (score, member) =>
                         Some (batch ++ [BDelete (memberKey z member);
                                         BDelete (scoreKey z member score)], wrap64 (n + 1))
                     | None => None
                     end) with
              | Some a' => (Some a', false)
              | None => (None, true)
              end.
Proof.
  unfold remove_entry. destruct a as [batch n].
  destruct (Z.ltb_spec (Z.of_nat i) 0); [lia|].
  by destruct (splitScoreKey k) as [[??]|].
Qed.

Lemma removed_keys_inv (z : t) ps (k : string) :
  k ∈ ZSetSpec.removed_keys z ps →
  ∃ score member, (score, member) ∈ ps ∧ (k = memberKey z member ∨ k = scoreKey z member score).
Proof.
  unfold ZSetSpec.removed_keys. intros Hin.
  apply list_elem_of_In, in_concat in Hin as (ks & Hks & Hin).
  apply list_elem_of_In in Hks, Hin.
  apply list_elem_of_fmap in Hks as ([score member] & -> & Hp).
  exists score, member. split; [done|]. cbn [fst snd] in Hin.
  apply elem_of_cons in Hin as [Hin|Hin]; [by left|].
  apply elem_of_cons in Hin as [Hin|Hin]; [by right|].
  by apply elem_of_nil in Hin.
Qed.

Lemma pairs_of_inv es ps (score member : string) :
  ZSetSpec.pairs_of es = Some ps → (score, member) ∈ ps →
  ∃ k v, (k, v) ∈ es ∧ splitScoreKey k = Some (score, member).
Proof.
  unfold ZSetSpec.pairs_of. intros Hps Hin. apply mapM_Some in Hps.
  apply list_elem_of_lookup in Hin as [i Hi].
  destruct (Forall2_lookup_r _ _ _ _ _ Hps Hi) as ([k v] & He & Hsplit).
  exists k, v. split; [by eapply list_elem_of_lookup_2|done].
Qed.

(** What a removal over the entries [es] of the score index of [z] does,
    once the enumeration has produced its batch. *)
Lemma remove_entries_spec (db : DB) (z : t) (a b : string) lo hi :
  wfault db = None →
  let es := ZSetSpec.window lo hi
              (scan db (scoreKeyPrefix z +:+ a) (scoreKeyPrefix z +:+ b) IteratorForward) in
  ∃ ps db' z',
    ZSetSpec.pairs_of es = Some ps ∧
    (ps' ← ZSetSpec.pairs_of es;
     Some (finish_remove db (initOnce db z)
             ([] ++ (BDelete <$> ZSetSpec.removed_keys (initOnce db z) ps'))
             (wrap64 (0 + Z.of_nat (length ps')))))
      = Some (db', z', wrap64 (Z.of_nat (length es))) ∧
    key z' = key z ∧
    totalCount z' = wrap64 (totalCount (initOnce db z) - wrap64 (Z.of_nat (length es))) ∧
    (∀ member score v,
       has_byte "#" score = false → has_byte "#" member = false →
       (scoreKey z member score, v) ∈ es →
       kv db' !! scoreKey z member score = None ∧ kv db' !! memberKey z member = None) ∧
    kv db' !! zsetKey z
      = (if totalCount z' =? 0 then None else Some (FormatInt (totalCount z'))) ∧
    (∀ k, k ∉ ZSetSpec.removed_keys z ps → k ≠ zsetKey z → kv db' !! k = kv db !! k) ∧
    (∀ k, k ∈ ZSetSpec.removed_keys z ps → kv db' !! k = None) ∧
    ((∀ k v, (k, v) ∈ es →
        ∃ member score, k = scoreKey z member score ∧
          has_byte "#" score = false ∧ has_byte "#" member = false) →
     ∀ k, k ≠ zsetKey z →
       (∀ member score v, (scoreKey z member score, v) ∈ es →
          k ≠ scoreKey z member score ∧ k ≠ memberKey z member) →
       kv db' !! k = kv db !! k).
Proof.
  intros Hw es.
  destruct (pairs_of_window z db a b IteratorForward lo hi) as [ps Hps].
  fold es in Hps. rewrite Hps. cbn [mbind option_bind app].
  pose proof (initOnce_key z db) as Hk.
  rewrite (removed_keys_key _ z) by done.
  destruct (finish_remove_spec db (initOnce db z) (ZSetSpec.removed_keys z ps)
              (wrap64 (0 + Z.of_nat (length ps))) Hw)
    as (db' & z' & Hfin & Hkey & Hcount & Hgone & Hrec & Hother).
  { rewrite (zsetKey_key _ z) by done. apply zsetKey_not_removed. }
  rewrite Z.add_0_l, (pairs_of_length es ps Hps) in Hfin, Hcount |- *.
  rewrite (zsetKey_key _ z) in Hrec, Hother by done.
  exists ps, db', z'. split; [done|]. split; [by rewrite Hfin|].
  split; [congruence|]. split; [done|]. split; [|split; [done|split; [done|split; [done|]]]].
  - intros member score v Hs Hm Hin.
    destruct (removed_keys_elem z ps member score) as [H1 H2].
    { by eapply pairs_of_elem. }
    split; by apply Hgone.
  - intros Hwf k Hz Hout. apply Hother; [|done].
    intros Hin. apply removed_keys_inv in Hin as (score & member & Hp & Hkey').
    destruct (pairs_of_inv es ps score member Hps Hp) as (k0 & v0 & He & Hsplit).
    destruct (Hwf k0 v0 He) as (member' & score' & -> & Hs' & Hm').
    rewrite splitScoreKey_scoreKey in Hsplit by done. injection Hsplit as -> ->.
    destruct (Hout member score v0 He) as [Hk1 Hk2]. by destruct Hkey'.
Qed.

End zset_remove.

(** [RemoveByIndex] on an engine that accepts the write: it returns the
    number of score-index entries at the positions [start .. stop] of the
    scan of the set and lowers the cached count by it; for each of these
    entries it deletes the member-index key and the score-index key rebuilt
    from the pair [splitScoreKey] cuts from the key of the entry; it deletes
    the count record when the count reaches 0 and rewrites it otherwise; no
    other key changes.  An entry whose score and member are free of the
    separator is deleted itself, with the member-index entry of its member;
    when all entries of the window are such, every key but theirs, those of
    their members and the count record keeps its value. *)
Theorem zset_RemoveByIndex_spec (db : DB) (z : LevelZSet.t) (start stop : Z) :
  wfault db = None →
  let es := ZSetSpec.window start (ZSetSpec.index_bound stop)
              (scan db (LevelZSet.scoreKeyPrefix z) (LevelZSet.scoreKeyPrefix z +:+ MAXBYTE)
                 IteratorForward) in
  ∃ ps db' z',
    ZSetSpec.pairs_of es = Some ps ∧
    LevelZSet.RemoveByIndex start stop db z = Some (db', z', wrap64 (Z.of_nat (length es))) ∧
    LevelZSet.key z' = LevelZSet.key z ∧
    LevelZSet.totalCount z'
      = wrap64 (LevelZSet.totalCount (LevelZSet.initOnce db z) - wrap64 (Z.of_nat (length es))) ∧
    (∀ member score v,
       has_byte "#" score = false → has_byte "#" member = false →
       (LevelZSet.scoreKey z member score, v) ∈ es →
       kv db' !! LevelZSet.scoreKey z member score = None ∧
       kv db' !! LevelZSet.memberKey z member = None) ∧
    kv db' !! LevelZSet.zsetKey z
      = (if LevelZSet.totalCount z' =? 0 then None
         else Some (FormatInt (LevelZSet.totalCount z'))) ∧
    (∀ k, k ∉ ZSetSpec.removed_keys z ps → k ≠ LevelZSet.zsetKey z →
          kv db' !! k = kv db !! k) ∧
    (∀ k, k ∈ ZSetSpec.removed_keys z ps → kv db' !! k = None) ∧
    ((∀ k v, (k, v) ∈ es →
        ∃ member score, k = LevelZSet.scoreKey z member score ∧
          has_byte "#" score = false ∧ has_byte "#" member = false) →
     ∀ k, k ≠ LevelZSet.zsetKey z →
       (∀ member score v, (LevelZSet.scoreKey z member score, v) ∈ es →
          k ≠ LevelZSet.scoreKey z member score ∧ k ≠ LevelZSet.memberKey z member) →
       kv db' !! k = kv db !! k).
Proof.
  intros Hw es.
  destruct (remove_entries_spec db z EmptyString MAXBYTE start (ZSetSpec.index_bound stop) Hw)
    as (ps & db' & z' & Hps & Hrun & Hrest).
  rewrite append_empty_r in Hps, Hrun, Hrest. fold es in Hps, Hrun, Hrest.
  exists ps, db', z'. split; [done|]. split; [|exact Hrest].
  unfold LevelZSet.RemoveByIndex, Enumerate.
  rewrite (enum_window _ start (ZSetSpec.index_bound stop) _
             (remove_by_index_cb_window (LevelZSet.initOnce db z) start stop)).
  rewrite window_0, fold_removed by (unfold in_range, min_int, max_int; lia).
  rewrite (scoreKeyPrefix_key _ z) by apply initOnce_key. fold es.
  destruct (ZSetSpec.pairs_of es) as [ps'|]; [|done].
  cbn [mbind option_bind] in Hrun |- *. exact Hrun.
Qed.

Lemma zset_RemoveByIndex_spec_witness :
  wfault zset_db = None ∧
  ∃ db' z', LevelZSet.RemoveByIndex 0 (-1) zset_db (LevelZSet.NewLevelZSet "k")
            = Some (db', z', 1) ∧
    LevelZSet.totalCount z' = 0 ∧
    kv db' !! "__zset{k}s#7#a" = None ∧ kv db' !! "__zset{k}m#a" = None ∧
    kv db' !! "__key{k}:zset" = None.
Proof.
  split; [reflexivity|].
  destruct (zset_RemoveByIndex_spec zset_db (LevelZSet.NewLevelZSet "k") 0 (-1) eq_refl)
    as (ps & db' & z' & _ & Hrun & _ & Hcount & Hgone & Hrec & _).
  exists db', z'. split; [exact Hrun|]. split; [exact Hcount|].
  destruct (Hgone "a" "7" EmptyString eq_refl eq_refl) as [H1 H2].
  { vm_compute. apply list_elem_of_here. }
  split; [exact H1|]. split; [exact H2|].
  rewrite Hcount in Hrec. exact Hrec.
Defined.

(** [RemoveByScore] on an engine that accepts the write: the same for every
    score-index entry of the key interval from [min] to [max]: the count is
    lowered by their number, the keys rebuilt from the pairs [splitScoreKey]
    cuts from their keys are deleted, the count record is maintained and no
    other key changes; entries whose score and member are free of the
    separator are deleted themselves, with the entries of their members. *)
Theorem zset_RemoveByScore_spec (db : DB) (z : LevelZSet.t) (min max : string) :
  wfault db = None →
  let es := scan db (LevelZSet.scoreKeyPrefix z +:+ min)
              (LevelZSet.scoreKeyPrefix z +:+ max +:+ MAXBYTE) IteratorForward in
  ∃ ps db' z',
    ZSetSpec.pairs_of es = Some ps ∧
    LevelZSet.RemoveByScore min max db z = Some (db', z', wrap64 (Z.of_nat (length es))) ∧
    LevelZSet.key z' = LevelZSet.key z ∧
    LevelZSet.totalCount z'
      = wrap64 (LevelZSet.totalCount (LevelZSet.initOnce db z) - wrap64 (Z.of_nat (length es))) ∧
    (∀ member score v,
       has_byte "#" score = false → has_byte "#" member = false →
       (LevelZSet.scoreKey z member score, v) ∈ es →
       kv db' !! LevelZSet.scoreKey z member score = None ∧
       kv db' !! LevelZSet.memberKey z member = None) ∧
    kv db' !! LevelZSet.zsetKey z
      = (if LevelZSet.totalCount z' =? 0 then None
         else Some (FormatInt (LevelZSet.totalCount z'))) ∧
    (∀ k, k ∉ ZSetSpec.removed_keys z ps → k ≠ LevelZSet.zsetKey z →
          kv db' !! k = kv db !! k) ∧
    (∀ k, k ∈ ZSetSpec.removed_keys z ps → kv db' !! k = None) ∧
    ((∀ k v, (k, v) ∈ es →
        ∃ member score, k = LevelZSet.scoreKey z member score ∧
          has_byte "#" score = false ∧ has_byte "#" member = false) →
     ∀ k, k ≠ LevelZSet.zsetKey z →
       (∀ member score v, (LevelZSet.scoreKey z member score, v) ∈ es →
          k ≠ LevelZSet.scoreKey z member score ∧ k ≠ LevelZSet.memberKey z member) →
       kv db' !! k = kv db !! k).
Proof.
  intros Hw es.
  destruct (remove_entries_spec db z min (max +:+ MAXBYTE) 0 None Hw)
    as (ps & db' & z' & Hps & Hrun & Hrest).
  change (ZSetSpec.window 0 None ?l) with l in Hps, Hrun, Hrest.
  fold es in Hps, Hrun, Hrest.
  exists ps, db', z'. split; [done|]. split; [|exact Hrest].
  unfold LevelZSet.RemoveByScore, Enumerate.
  rewrite (enum_window _ 0 None _
             (remove_by_score_cb_window (LevelZSet.initOnce db z))).
  rewrite window_0, fold_removed by (unfold in_range, min_int, max_int; lia).
  change (ZSetSpec.window 0 None ?l) with l.
  rewrite (scoreKeyPrefix_key _ z) by apply initOnce_key.
  change (String (ascii_of_N 254) EmptyString) with MAXBYTE. fold es.
  destruct (ZSetSpec.pairs_of es) as [ps'|]; [|done].
  cbn [mbind option_bind] in Hrun |- *. exact Hrun.
Qed.

Lemma zset_RemoveByScore_spec_witness :
  wfault zset_db = None ∧
  ∃ db' z', LevelZSet.RemoveByScore "5" "8" zset_db (LevelZSet.NewLevelZSet "k")
            = Some (db', z', 1) ∧
    LevelZSet.totalCount z' = 0 ∧
    kv db' !! "__zset{k}s#7#a" = None ∧ kv db' !! "__zset{k}m#a" = None ∧
    kv db' !! "__key{k}:zset" = None.
Proof.
  split; [reflexivity|].
  destruct (zset_RemoveByScore_spec zset_db (LevelZSet.NewLevelZSet "k") "5" "8" eq_refl)
    as (ps & db' & z' & _ & Hrun & _ & Hcount & Hgone & Hrec & _).
  exists db', z'. split; [exact Hrun|]. split; [exact Hcount|].
  destruct (Hgone "a" "7" EmptyString eq_refl eq_refl) as [H1 H2].
  { vm_compute. apply list_elem_of_here. }
  split; [exact H1|]. split; [exact H2|].
  rewrite Hcount in Hrec. exact Hrec.
Defined.

(** ** Members and scores that hold the separator *)

Section split_exact.
Import LevelZSet.

Lemma has_byte_split (c : ascii) (m : string) :
  has_byte c m = true → ∃ m1 m2, m = m1 +:+ String c m2 ∧ has_byte c m2 = false.
Proof.
  induction m as [|a m IH]; [done|]. cbn [has_byte]. intros Hm.
  destruct (has_byte c m) eqn:Hc.
  - destruct (IH eq_refl) as (m1 & m2 & -> & Hm2). by exists (String a m1), m2.
  - rewrite orb_false_r in Hm. apply Ascii.eqb_eq in Hm as ->.
    by exists EmptyString, m.
Qed.

Lemma splitScoreKey_member (q m2 : string) :
  has_byte "#" m2 = false → ∃ s, splitScoreKey (q +:+ String "#" m2) = Some (s, m2).
Proof.
  intros Hm. unfold splitScoreKey, LastIndex, SEP, copyBytes.
  rewrite last_index_last by done. rewrite Z.add_0_l.
  destruct (Z.ltb_spec (Z.of_nat (String.length q)) 0) as [?|_]; [lia|].
  eexists. f_equal. f_equal.
  replace (Z.to_nat (Z.of_nat (String.length q) + 1)) with (String.length (q +:+ "#")).
  2:{ rewrite append_length. cbn. lia. }
  replace (q +:+ String "#" m2) with ((q +:+ "#") +:+ m2) by (by rewrite append_assoc).
  apply slice_from_app.
Qed.

Lemma splitScoreKey_parts (q s2 m2 : string) :
  has_byte "#" s2 = false → has_byte "#" m2 = false →
  splitScoreKey ((q +:+ String "#" s2) +:+ String "#" m2) = Some (s2, m2).
Proof.
  intros Hs Hm. unfold splitScoreKey, LastIndex, SEP, copyBytes.
  rewrite last_index_last by done. rewrite Z.add_0_l.
  destruct (Z.ltb_spec (Z.of_nat (String.length (q +:+ String "#" s2))) 0) as [?|_]; [lia|].
  rewrite Nat2Z.id, slice_to_app, last_index_last by done.
  replace (Z.to_nat (Z.of_nat (String.length (q +:+ String "#" s2)) + 1))
    with (String.length ((q +:+ String "#" s2) +:+ "#")).
  2:{ rewrite append_length. cbn. lia. }
  replace ((q +:+ String "#" s2) +:+ String "#" m2)
    with (((q +:+ String "#" s2) +:+ "#") +:+ m2) by (by rewrite append_assoc).
  rewrite slice_from_app.
  replace (Z.to_nat (0 + Z.of_nat (String.length q) + 1)) with (String.length (q +:+ "#")).
  2:{ rewrite append_length. cbn. lia. }
  replace (q +:+ String "#" s2) with ((q +:+ "#") +:+ s2) by (by rewrite append_assoc).
  by rewrite slice_from_app.
Qed.

Lemma scoreKey_parts (z : t) (member score : string) :
  scoreKey z member score
  = ((ZSET_PREFIX +:+ SEP_LEFT +:+ key z +:+ SEP_RIGHT +:+ "s") +:+ String "#" score)
      +:+ String "#" member.
Proof.
  unfold scoreKey, joinStringBytes, SEP. cbn [foldr].
  rewrite !append_assoc, append_empty_r. reflexivity.
Qed.

Lemma append_longer (a t : string) (c : ascii) : t ≠ a +:+ String c t.
Proof.
  intros Heq. apply (f_equal String.length) in Heq.
  rewrite append_length in Heq. cbn in Heq. lia.
Qed.

End split_exact.

(** A score-index key is cut back into the score and the member it was
    built from exactly when neither of them holds the separator [#]. *)
Theorem splitScoreKey_round_trip (z : LevelZSet.t) (member score : string) :
  LevelZSet.splitScoreKey (LevelZSet.scoreKey z member score) = Some (score, member)
  ↔ has_byte "#" score = false ∧ has_byte "#" member = false.
Proof.
  split; [|intros [Hs Hm]; by apply splitScoreKey_scoreKey].
  intros Hsplit. rewrite scoreKey_parts in Hsplit.
  set (p := ZSET_PREFIX +:+ SEP_LEFT +:+ LevelZSet.key z +:+ SEP_RIGHT +:+ "s") in Hsplit.
  clearbody p.
  destruct (has_byte "#" member) eqn:Hm.
  - exfalso. apply has_byte_split in Hm as (m1 & m2 & -> & Hm2).
    replace ((p +:+ String "#" score) +:+ String "#" (m1 +:+ String "#" m2))
      with (((p +:+ String "#" score) +:+ String "#" m1) +:+ String "#" m2) in Hsplit
      by (repeat (rewrite append_assoc || rewrite append_cons); reflexivity).
    destruct (splitScoreKey_member ((p +:+ String "#" score) +:+ String "#" m1) m2 Hm2)
      as [s Hs].
    rewrite Hsplit in Hs. injection Hs as _ Hs. symmetry in Hs. by apply append_longer in Hs.
  - destruct (has_byte "#" score) eqn:Hs; [exfalso|done].
    apply has_byte_split in Hs as (s1 & s2 & -> & Hs2).
    replace ((p +:+ String "#" (s1 +:+ String "#" s2)) +:+ String "#" member)
      with (((p +:+ String "#" s1) +:+ String "#" s2) +:+ String "#" member) in Hsplit
      by (repeat (rewrite append_assoc || rewrite append_cons); reflexivity).
    rewrite splitScoreKey_parts in Hsplit by done.
    injection Hsplit as Hsplit. by apply append_longer in Hsplit.
Qed.

Lemma splitScoreKey_round_trip_witness :
  LevelZSet.splitScoreKey (LevelZSet.scoreKey (LevelZSet.NewLevelZSet "k") "a" "7")
  = Some ("7", "a").
Proof.
  apply (splitScoreKey_round_trip (LevelZSet.NewLevelZSet "k") "a" "7").
  split; reflexivity.
Defined.

(** ** Single additions and removals, and the other members *)

Section zset_members.
Import LevelZSet.

(** Score-index keys of two members free of the separator differ. *)
Lemma scoreKey_member_inj (z : t) (m m' s s' : string) :
  has_byte "#" m = false → has_byte "#" m' = false →
  scoreKey z m s = scoreKey z m' s' → m = m'.
Proof.
  intros Hm Hm' Heq. rewrite !scoreKey_parts in Heq.
  match type of Heq with ?q +:+ _ = ?q' +:+ _ =>
    destruct (splitScoreKey_member q m Hm) as [x Hx];
    destruct (splitScoreKey_member q' m' Hm') as [x' Hx']
  end.
  rewrite Heq in Hx. rewrite Hx in Hx'. by injection Hx'.
Qed.

End zset_members.

(** [Add] of one pair on a healthy engine: afterwards the member has the new
    score, its score-index entry for the new score exists and the entry for
    a different old score is gone; the cached count grows by one exactly when
    the member was absent, and the count record holds it.  Every key other
    than the member's member-index key, its score-index keys for the new and
    the old score and the count record keeps its value; so when the member
    is free of the separator, the entries of every other member free of it
    are untouched. *)
Theorem zset_Add_pair (db : DB) (z : LevelZSet.t) (score member : string) :
  rfault db = None → wfault db = None →
  let z0 := LevelZSet.initOnce db z in
  let old := kv db !! LevelZSet.memberKey z member in
  let count := match old with
               | Some _ => LevelZSet.totalCount z0
               | None => wrap64 (LevelZSet.totalCount z0 + 1)
               end in
  ∃ db',
    LevelZSet.Add [score; member] db z = Some (db', LevelZSet.set_totalCount z0 count, 1) ∧
    LevelZSet.Score db' z member = Some score ∧
    kv db' !! LevelZSet.scoreKey z member score = Some EmptyString ∧
    (∀ o, old = Some o → o ≠ score → kv db' !! LevelZSet.scoreKey z member o = None) ∧
    kv db' !! LevelZSet.zsetKey z = Some (FormatInt count) ∧
    (∀ m, m ≠ member →
       kv db' !! LevelZSet.memberKey z m = kv db !! LevelZSet.memberKey z m) ∧
    (∀ k, k ≠ LevelZSet.memberKey z member → k ≠ LevelZSet.scoreKey z member score →
       (∀ o, old = Some o → k ≠ LevelZSet.scoreKey z member o) →
       k ≠ LevelZSet.zsetKey z → kv db' !! k = kv db !! k) ∧
    (has_byte "#" member = false →
     ∀ m s, m ≠ member → has_byte "#" m = false →
       kv db' !! LevelZSet.scoreKey z m s = kv db !! LevelZSet.scoreKey z m s).
Proof.
  intros Hr Hw z0 old count.
  destruct (Add_pair_healthy db z score member Hr Hw)
    as (db' & Hadd & Hscore & Hnew & Hold & Hrec & Hmem & Hframe).
  exists db'. do 6 (split; [done|]). split; [exact Hframe|].
  intros Hm m s Hne Hm'. apply Hframe.
  - apply not_eq_sym, memberKey_scoreKey.
  - intros Heq. by apply scoreKey_member_inj in Heq.
  - intros o _ Heq. by apply scoreKey_member_inj in Heq.
  - apply not_eq_sym, zsetKey_scoreKey.
Qed.

Lemma zset_Add_pair_witness :
  (rfault zset_db = None ∧ wfault zset_db = None ∧ has_byte "#" "b" = false) ∧
  ∃ db', LevelZSet.Add ["3"; "b"] zset_db (LevelZSet.NewLevelZSet "k")
         = Some (db', LevelZSet.mk "k" 2, 1) ∧
         LevelZSet.Score db' (LevelZSet.NewLevelZSet "k") "b" = Some "3" ∧
         kv db' !! "__zset{k}s#7#a" = Some EmptyString.
Proof.
  split; [done|].
  destruct (zset_Add_pair zset_db (LevelZSet.NewLevelZSet "k") "3" "b" eq_refl eq_refl)
    as (db' & Hadd & Hscore & _ & _ & _ & _ & _ & Hothers).
  exists db'. split; [exact Hadd|]. split; [exact Hscore|].
  exact (Hothers eq_refl "a" "7" ltac:(discriminate) eq_refl).
Defined.

(** [Remove] of one member on a healthy engine: afterwards the member has no
    score and its score-index entry is gone; the call returns 1 and the
    cached count drops by one exactly when the member was present; the count
    record is deleted when the count reaches 0 and rewritten otherwise.
    Every key other than the member's member-index key, its score-index key
    and the count record keeps its value; so when the member is free of the
    separator, the entries of every other member free of it are untouched. *)
Theorem zset_Remove_member (db : DB) (z : LevelZSet.t) (member : string) :
  rfault db = None → wfault db = None →
  let z0 := LevelZSet.initOnce db z in
  let old := kv db !! LevelZSet.memberKey z member in
  let n := match old with Some _ => 1 | None => 0 end in
  let count := wrap64 (LevelZSet.totalCount z0 - n) in
  ∃ db',
    LevelZSet.Remove [member] db z = (db', LevelZSet.set_totalCount z0 count, n) ∧
    LevelZSet.Score db' z member = None ∧
    (∀ s, old = Some s → kv db' !! LevelZSet.scoreKey z member s = None) ∧
    kv db' !! LevelZSet.zsetKey z
      = (if count =? 0 then None else Some (FormatInt count)) ∧
    (∀ m, m ≠ member →
       kv db' !! LevelZSet.memberKey z m = kv db !! LevelZSet.memberKey z m) ∧
    (∀ k, k ≠ LevelZSet.memberKey z member →
       (∀ s, old = Some s → k ≠ LevelZSet.scoreKey z member s) →
       k ≠ LevelZSet.zsetKey z → kv db' !! k = kv db !! k) ∧
    (has_byte "#" member = false →
     ∀ m s, m ≠ member → has_byte "#" m = false →
       kv db' !! LevelZSet.scoreKey z m s = kv db !! LevelZSet.scoreKey z m s).
Proof.
  intros Hr Hw z0 old n count.
  destruct (Remove_member_healthy db z member Hr Hw)
    as (db' & Hrem & Hscore & Hold & Hrec & Hmem & Hframe).
  exists db'. do 5 (split; [done|]). split; [exact Hframe|].
  intros Hm m s Hne Hm'. apply Hframe.
  - apply not_eq_sym, memberKey_scoreKey.
  - intros o _ Heq. by apply scoreKey_member_inj in Heq.
  - apply not_eq_sym, zsetKey_scoreKey.
Qed.

Lemma zset_Remove_member_witness :
  (rfault zset_db = None ∧ wfault zset_db = None) ∧
  ∃ db', LevelZSet.Remove ["a"] zset_db (LevelZSet.NewLevelZSet "k")
         = (db', LevelZSet.mk "k" 0, 1) ∧
         kv db' !! LevelZSet.zsetKey (LevelZSet.NewLevelZSet "k") = None.
Proof.
  split; [done|].
  destruct (zset_Remove_member zset_db (LevelZSet.NewLevelZSet "k") "a" eq_refl eq_refl)
    as (db' & Hrem & _ & _ & Hrec & _).
  exists db'. split; [exact Hrem|exact Hrec].
Defined.

(** ** Reading back what [Add] wrote *)

Section zset_add_range.
Import LevelZSet.

Lemma apply_batch_snoc_put_ne m batch (k k' v : string) :
  k' ≠ k → apply_batch m (batch ++ [BPut k' v]) !! k = apply_batch m batch !! k.
Proof. intros Hne. unfold apply_batch. rewrite foldl_snoc. by apply lookup_insert_ne. Qed.

Lemma Add_pair_store (db : DB) (z : t) (score member : string) :
  rfault db = None → wfault db = None →
  ∃ db' z',
    Add [score; member] db z = Some (db', z', 1) ∧ key z' = key z ∧
    kv db' !! scoreKey z member score = Some EmptyString.
Proof.
  intros Hr Hw. pose proof (initOnce_key z db) as Hk.
  unfold Add, add_loop, Get. rewrite Hr.
  destruct (kv db !! memberKey (initOnce db z) member) as [o|];
    unfold Write; rewrite Hw; (eexists _, _; split; [reflexivity|]);
    (split; [exact Hk|]); cbn [kv];
    repeat match goal with
           | |- context [zsetKey ?l] =>
               lazymatch l with z => fail | _ => rewrite (zsetKey_key l z) by exact Hk end
           | |- context [scoreKey ?l _ _] =>
               lazymatch l with z => fail | _ => rewrite (scoreKey_key l z) by exact Hk end
           end;
    rewrite apply_batch_snoc_put_ne by apply zsetKey_scoreKey;
    apply apply_batch_snoc_put.
Qed.

Lemma scoreKey_between (z : t) (member score : string) :
  ZSetSpec.below_max score = true →
  key_between (scoreKeyPrefix z) (scoreKeyPrefix z +:+ MAXBYTE) (scoreKey z member score) = true.
Proof.
  intros Hb.
  assert (scoreKey z member score = scoreKeyPrefix z +:+ (score +:+ String "#" member)) as ->.
  { unfold scoreKey, scoreKeyPrefix, joinStringBytes, SEP. cbn [foldr].
    rewrite !append_assoc, !append_empty_r. reflexivity. }
  unfold key_between. apply andb_true_iff. split.
  - rewrite <-(append_empty_r (scoreKeyPrefix z)) at 1. rewrite leb_append.
    unfold String.leb. by destruct (score +:+ String "#" member).
  - rewrite leb_append. destruct score as [|c s]; [reflexivity|].
    rewrite append_cons. unfold String.leb, MAXBYTE. cbn [String.compare].
    unfold Ascii.compare. rewrite N_ascii_embedding by done.
    cbn [ZSetSpec.below_max] in Hb. apply N.ltb_lt in Hb.
    apply N.compare_lt_iff in Hb. by rewrite Hb.
Qed.

End zset_add_range.

(** A pair written by [Add] on a healthy engine is read back by
    [RangeByIndex] over the whole set, in either direction, when member and
    score are free of the separator and the score sorts before the sentinel
    byte. *)
Theorem zset_Add_then_RangeByIndex (db : DB) (z : LevelZSet.t) (score member : string)
    (high2low : bool) :
  rfault db = None → wfault db = None →
  has_byte "#" score = false → has_byte "#" member = false →
  ZSetSpec.below_max score = true →
  ∃ db' z' ps,
    LevelZSet.Add [score; member] db z = Some (db', z', 1) ∧
    LevelZSet.RangeByIndex high2low 0 (-1) db' z' = Some (ZSetSpec.flat ps) ∧
    (score, member) ∈ ps.
Proof.
  intros Hr Hw Hs Hm Hb.
  destruct (Add_pair_store db z score member Hr Hw) as (db' & z' & Hadd & Hk & Hput).
  set (d := if high2low then IteratorBackward else IteratorForward).
  destruct (pairs_of_window z db' EmptyString MAXBYTE d 0 (ZSetSpec.index_bound (-1)))
    as [ps Hps].
  rewrite append_empty_r in Hps.
  exists db', z', ps. split; [exact Hadd|]. split.
  - unfold LevelZSet.RangeByIndex, Enumerate.
    rewrite (enum_window _ 0 (ZSetSpec.index_bound (-1)) _ (range_by_index_cb_window 0 (-1))).
    rewrite window_0, fold_pairs, (scoreKeyPrefix_key z' z) by done.
    fold d. by rewrite Hps.
  - apply (pairs_of_elem z _ ps member score EmptyString Hps Hs Hm).
    change (ZSetSpec.window 0 (ZSetSpec.index_bound (-1)) ?l) with l.
    apply elem_of_scan. split; [exact Hput|]. by apply scoreKey_between.
Qed.

Lemma zset_Add_then_RangeByIndex_witness :
  (rfault zset_db = None ∧ wfault zset_db = None) ∧
  ∃ db' z' ps,
    LevelZSet.Add ["3"; "b"] zset_db (LevelZSet.NewLevelZSet "k") = Some (db', z', 1) ∧
    LevelZSet.RangeByIndex false 0 (-1) db' z' = Some (ZSetSpec.flat ps) ∧
    ("3", "b") ∈ ps.
Proof.
  split; [split; reflexivity|].
  exact (zset_Add_then_RangeByIndex zset_db (LevelZSet.NewLevelZSet "k") "3" "b" false
           eq_refl eq_refl eq_refl eq_refl eq_refl).
Defined.

(** ** Paths of a document *)

Section doc_paths.
Import MapDocument DocSpec.

Lemma Split_nonempty (s : string) (sep : ascii) : Split s sep ≠ [].
Proof.
  destruct s as [|c s]; [done|]. cbn [Split].
  destruct (Ascii.eqb c sep); [done|]. by destruct (Split s sep).
Qed.

Lemma reach_empty inner : reach inner ∅ = ∅.
Proof. induction inner as [|cur rest IH]; [done|]. cbn. by rewrite lookup_empty. Qed.

Lemma leaf_reach inner key : ∀ m, leaf inner key m = reach inner m !! key.
Proof.
  induction inner as [|cur rest IH]; intros m; [done|]. cbn [leaf reach].
  destruct (m !! cur) as [[| | | | | |sub]|]; try apply IH;
    by rewrite reach_empty, lookup_empty.
Qed.

(** A walk that creates what is missing hands the mapping at [inner] to its
    caller and puts the caller's result in its place. *)
Lemma walk_create {R} (use : gmap string value → gmap string value * R) (absent : R) inner :
  ∀ m, (walk true inner m use absent).2 = (use (reach inner m)).2 ∧
       reach inner (walk true inner m use absent).1 = (use (reach inner m)).1.
Proof.
  induction inner as [|cur rest IH]; intros m; [done|]. cbn [walk reach].
  destruct (m !! cur) as [[| | | | | |sub]|] eqn:Hcur;
    match goal with |- context [walk true rest ?s use absent] =>
      destruct (IH s) as [IH1 IH2]; destruct (walk true rest s use absent) as [sub' r]
    end; cbn [fst snd reach] in *; by rewrite lookup_insert_eq.
Qed.

End doc_paths.

(** ** Writing, appending and deleting at a path *)

Section doc_updates.
Import MapDocument DocSpec.

Lemma RichSet_set_single data field v :
  RichSet (set_update field v) data = set_field field v (data, None).
Proof.
  unfold RichSet, set_update, each_field. rewrite map_to_list_singleton.
  cbn [foldl fst snd mbind option_bind]. unfold rich_entry.
  change (negb (HasPrefix "$set" "$")) with false. cbn match.
  change (String.substring 1 (String.length "$set" - 1) "$set") with "set".
  change ("set" =? "set")%string with true. cbn match.
  cbn [as_map mbind option_bind]. unfold each_field.
  rewrite map_to_list_singleton. done.
Qed.

Lemma RichSet_direct_single data field v :
  HasPrefix field "$" = false →
  RichSet {[ field := v ]} data = set_field field v (data, None).
Proof.
  intros Hp. unfold RichSet, each_field. rewrite map_to_list_singleton.
  cbn [foldl fst snd mbind option_bind]. unfold rich_entry. by rewrite Hp.
Qed.

Lemma RichSet_rpush_single data field elems :
  RichSet (rpush_update field elems) data = rpush_field field (VList elems) (data, None).
Proof.
  unfold RichSet, rpush_update, each_field. rewrite map_to_list_singleton.
  cbn [foldl fst snd mbind option_bind]. unfold rich_entry.
  change (negb (HasPrefix "$rpush" "$")) with false. cbn match.
  change (String.substring 1 (String.length "$rpush" - 1) "$rpush") with "rpush".
  change ("rpush" =? "set")%string with false.
  change ("rpush" =? "rpush")%string with true. cbn match.
  cbn [as_map mbind option_bind]. unfold each_field.
  rewrite map_to_list_singleton. done.
Qed.

Lemma RichSet_del_single data field :
  RichSet (del_update field) data = del_field (VString field) (data, None).
Proof.
  unfold RichSet, del_update, each_field. rewrite map_to_list_singleton.
  cbn [foldl fst snd mbind option_bind]. unfold rich_entry.
  change (negb (HasPrefix "$del" "$")) with false. cbn match.
  change (String.substring 1 (String.length "$del" - 1) "$del") with "del".
  change ("del" =? "set")%string with false.
  change ("del" =? "rpush")%string with false.
  change ("del" =? "inc")%string with false.
  change ("del" =? "del")%string with true. cbn match. done.
Qed.

Lemma walk_del key inner : ∀ m,
  ∃ m', walk false inner m (λ parent, (delete key parent, ())) () = (m', ()) ∧
        leaf inner key m' = None ∧
        (∀ key', key' ≠ key → leaf inner key' m' = leaf inner key' m) ∧
        (leaf inner key m = None → m' = m).
Proof.
  induction inner as [|cur rest IH]; intros m; cbn [walk leaf].
  - exists (delete key m). split; [done|]. split; [apply lookup_delete_eq|].
    split; [intros key' Hne; by apply lookup_delete_ne|].
    intros Hnone. by apply delete_id.
  - destruct (m !! cur) as [[| | | | | |sub]|] eqn:Hcur;
      try (exists m; rewrite Hcur; done).
    destruct (IH sub) as (sub' & -> & Hgone & Hsib & Hid).
    exists (<[cur := VMap sub']> m). rewrite lookup_insert_eq.
    split; [done|]. split; [done|]. split; [done|].
    intros Hnone. rewrite (Hid Hnone). by apply insert_id.
Qed.

End doc_updates.

(** A write at a path, as a plain entry or through [$set]: the leaf holds
    the new value afterwards, whatever was on the way (segments that are
    missing or are not mappings become mappings), and the other leaves of
    the same parent are as they were. *)
Theorem RichSet_set_spec (data : gmap string MapDocument.value) (field : string)
    (v : MapDocument.value) :
  let pairs := Split field MapDocument.dot in
  ∃ data',
    MapDocument.RichSet (DocSpec.set_update field v) data = Some (data', None) ∧
    (HasPrefix field "$" = false →
       MapDocument.RichSet {[ field := v ]} data = Some (data', None)) ∧
    DocSpec.lookup_field data' field = Some v ∧
    (∀ key', key' ≠ List.last pairs EmptyString →
       DocSpec.leaf (removelast pairs) key' data' = DocSpec.leaf (removelast pairs) key' data).
Proof.
  intros pairs. unfold DocSpec.lookup_field. fold pairs.
  set (key := List.last pairs EmptyString). set (inner := removelast pairs).
  set (use := λ parent : gmap string MapDocument.value, (<[key := v]> parent, ())).
  assert (MapDocument.set_field field v (data, None)
          = Some ((MapDocument.walk true inner data use ()).1, None)) as Hset.
  { unfold MapDocument.set_field, MapDocument.findElement. fold pairs key inner.
    cbn [fst snd]. fold use. by destruct (MapDocument.walk true inner data use ()). }
  destruct (walk_create use () inner data) as [_ Hreach].
  exists (MapDocument.walk true inner data use ()).1.
  split; [by rewrite RichSet_set_single|].
  split; [intros Hp; by rewrite RichSet_direct_single|].
  split_and!.
  - rewrite leaf_reach, Hreach. apply lookup_insert_eq.
  - intros key' Hne. rewrite !leaf_reach, Hreach. by apply lookup_insert_ne.
Qed.

Lemma RichSet_set_spec_witness :
  HasPrefix "a.b" "$" = false ∧
  ∃ data',
    MapDocument.RichSet {[ "a.b" := MapDocument.VInt 1 ]} {[ "a" := MapDocument.VInt 0 ]}
    = Some (data', None) ∧
    DocSpec.lookup_field data' "a.b" = Some (MapDocument.VInt 1).
Proof.
  split; [reflexivity|].
  destruct (RichSet_set_spec {[ "a" := MapDocument.VInt 0 ]} "a.b" (MapDocument.VInt 1))
    as (data' & _ & Hdirect & Hleaf & _).
  exists data'. split; [exact (Hdirect eq_refl)|exact Hleaf].
Defined.

(** [$del] of a path never fails: afterwards the path has no leaf, the other
    leaves of the same parent are as they were, and a document in which the
    path had no leaf is unchanged. *)
Theorem RichSet_del_spec (data : gmap string MapDocument.value) (field : string) :
  let pairs := Split field MapDocument.dot in
  ∃ data',
    MapDocument.RichSet (DocSpec.del_update field) data = Some (data', None) ∧
    DocSpec.lookup_field data' field = None ∧
    (∀ key', key' ≠ List.last pairs EmptyString →
       DocSpec.leaf (removelast pairs) key' data' = DocSpec.leaf (removelast pairs) key' data) ∧
    (DocSpec.lookup_field data field = None → data' = data).
Proof.
  intros pairs. unfold DocSpec.lookup_field. fold pairs.
  destruct (walk_del (List.last pairs EmptyString) (removelast pairs) data)
    as (data' & Hwalk & Hrest).
  exists data'. split; [|exact Hrest].
  rewrite RichSet_del_single. unfold MapDocument.del_field, MapDocument.findElement.
  fold pairs. cbn [fst snd]. by rewrite Hwalk.
Qed.

Lemma RichSet_del_spec_witness :
  DocSpec.lookup_field {[ "a" := MapDocument.VInt 0 ]} "b.c" = None ∧
  MapDocument.RichSet (DocSpec.del_update "b.c") {[ "a" := MapDocument.VInt 0 ]}
  = Some ({[ "a" := MapDocument.VInt 0 ]}, None).
Proof.
  split; [reflexivity|].
  destruct (RichSet_del_spec {[ "a" := MapDocument.VInt 0 ]} "b.c")
    as (data' & Hrun & _ & _ & Hid).
  rewrite <-(Hid eq_refl) at 2. exact Hrun.
Defined.

(** [$rpush] at a path: an absent (or nil) leaf becomes the given sequence;
    a leaf that is a sequence gets the given elements appended in order; on
    any other leaf a non-empty push panics. *)
Theorem RichSet_rpush_spec (data : gmap string MapDocument.value) (field : string)
    (elems : list MapDocument.value) :
  let old := DocSpec.lookup_field data field in
  let result := MapDocument.RichSet (DocSpec.rpush_update field elems) data in
  (DocSpec.absent old →
     ∃ data', result = Some (data', None) ∧
       DocSpec.lookup_field data' field = Some (MapDocument.VList elems)) ∧
  (∀ l, old = Some (MapDocument.VList l) →
     ∃ data', result = Some (data', None) ∧
       DocSpec.lookup_field data' field = Some (MapDocument.VList (l ++ elems))) ∧
  (∀ o, old = Some o → o ≠ MapDocument.VNil → (∀ l, o ≠ MapDocument.VList l) →
     elems ≠ [] → result = None).
Proof.
  intros old result. unfold result, old, DocSpec.lookup_field.
  rewrite RichSet_rpush_single.
  unfold MapDocument.rpush_field, MapDocument.findElement. cbn [fst snd].
  set (pairs := Split field MapDocument.dot).
  set (key := List.last pairs EmptyString). set (inner := removelast pairs).
  set (use := λ parent : gmap string MapDocument.value,
         match MapDocument.doRpush parent key elems with
         | Some parent' => (parent', true)
         | None => (parent, false)
         end).
  destruct (walk_create use true inner data) as [Hr Hreach].
  destruct (MapDocument.walk true inner data use true) as [data' r].
  cbn [fst snd] in Hr, Hreach. rewrite !leaf_reach.
  unfold use, MapDocument.doRpush, MapDocument.index in Hr, Hreach.
  split_and!.
  - intros Habs.
    assert (MapDocument.is_nil (default MapDocument.VNil (DocSpec.reach inner data !! key))
            = true) as Hnil by (by destruct Habs as [-> | ->]).
    rewrite Hnil in Hr, Hreach. cbn [fst snd] in Hr, Hreach. subst r.
    exists data'. split; [done|]. rewrite leaf_reach, Hreach. apply lookup_insert_eq.
  - intros l Hl. rewrite Hl in Hr, Hreach. cbn [default MapDocument.is_nil] in Hr, Hreach.
    destruct elems as [|e elems]; cbn [fst snd] in Hr, Hreach; subst r;
      (exists data'; split; [done|]); rewrite leaf_reach, Hreach.
    + by rewrite app_nil_r.
    + apply lookup_insert_eq.
  - intros o Ho Hnil Hlist Helems. rewrite Ho in Hr. cbn [default] in Hr.
    destruct elems as [|e elems]; [done|].
    destruct o; try done; cbn [MapDocument.is_nil snd] in Hr; subst r; try done.
    by destruct (Hlist l).
Qed.

Lemma RichSet_rpush_spec_witness :
  let data : gmap string MapDocument.value :=
    {[ "photos" := MapDocument.VList [MapDocument.VString "a.jpg"] ]} in
  DocSpec.lookup_field data "photos" = Some (MapDocument.VList [MapDocument.VString "a.jpg"]) ∧
  ∃ data',
    MapDocument.RichSet (DocSpec.rpush_update "photos" [MapDocument.VString "b.jpg"]) data
    = Some (data', None) ∧
    DocSpec.lookup_field data' "photos"
    = Some (MapDocument.VList [MapDocument.VString "a.jpg"; MapDocument.VString "b.jpg"]).
Proof.
  intros data. split; [reflexivity|].
  destruct (RichSet_rpush_spec data "photos" [MapDocument.VString "b.jpg"]) as (_ & Happ & _).
  exact (Happ [MapDocument.VString "a.jpg"] eq_refl).
Defined.

(** ** Reading a leaf *)

Section doc_get.
Import MapDocument DocSpec.

Lemma get_loop_leaf key inner : ∀ src dst obj,
  leaf inner key src = Some obj → is_map obj = false →
  leaf inner key (get_loop (inner ++ [key]) key src dst) = Some obj.
Proof.
  induction inner as [|cur rest IH]; intros src dst obj Hleaf Hobj; cbn [leaf app get_loop] in *.
  - rewrite Hleaf. destruct obj; try done; apply lookup_insert_eq.
  - destruct (src !! cur) as [[| | | | | |sub]|] eqn:Hcur; try done.
    rewrite lookup_insert_eq. by apply IH.
Qed.

End doc_get.

(** [RichGet]: the field asked for last is answered with its leaf, when the
    leaf lies under mappings that are all present and is not itself a
    mapping. *)
Theorem RichGet_leaf_spec (data : gmap string MapDocument.value) (fields : list string)
    (field : string) (obj : MapDocument.value) :
  DocSpec.lookup_field data field = Some obj → MapDocument.is_map obj = false →
  DocSpec.lookup_field (MapDocument.RichGet data (fields ++ [field])) field = Some obj.
Proof.
  unfold DocSpec.lookup_field. intros Hleaf Hobj.
  set (pairs := Split field MapDocument.dot) in *.
  assert (MapDocument.RichGet data (fields ++ [field])
          = MapDocument.get_loop pairs (List.last pairs EmptyString) data
              (foldl (λ result f,
                        MapDocument.get_loop (Split f MapDocument.dot)
                          (List.last (Split f MapDocument.dot) EmptyString) data result)
                     ∅ fields)) as ->.
  { unfold MapDocument.RichGet.
    destruct (fields ++ [field]) as [|f fs] eqn:E; [by destruct fields|].
    rewrite <-E. by rewrite foldl_snoc. }
  pose proof (app_removelast_last EmptyString (Split_nonempty field MapDocument.dot))
    as Hsplit.
  fold pairs in Hsplit.
  set (key := List.last pairs EmptyString) in *. set (inner := removelast pairs) in *.
  rewrite Hsplit. by apply get_loop_leaf.
Qed.

Lemma RichGet_leaf_spec_witness :
  let data : gmap string MapDocument.value :=
    {[ "a" := MapDocument.VMap {[ "b" := MapDocument.VInt 1; "c" := MapDocument.VInt 2 ]} ]} in
  (DocSpec.lookup_field data "a.b" = Some (MapDocument.VInt 1) ∧
   MapDocument.is_map (MapDocument.VInt 1) = false) ∧
  DocSpec.lookup_field (MapDocument.RichGet data ["a.c"; "a.b"]) "a.b"
  = Some (MapDocument.VInt 1).
Proof.
  intros data. split; [split; reflexivity|].
  exact (RichGet_leaf_spec data ["a.c"] "a.b" (MapDocument.VInt 1) eq_refl eq_refl).
Defined.

(** Of two fields under the same mapping only the later one is answered:
    the mapping copied for the first is replaced by a fresh one. *)
Example RichGet_later_field_wins :
  MapDocument.RichGet
    {[ "a" := MapDocument.VMap {[ "b" := MapDocument.VInt 1; "c" := MapDocument.VInt 2 ]} ]}
    ["a.c"; "a.b"]
  = {[ "a" := MapDocument.VMap {[ "b" := MapDocument.VInt 1 ]} ]}.
Proof. vm_compute. done. Qed.

(** ** The count record *)

Section zset_count.
Import LevelZSet.

Lemma Len_fresh_put (db : DB) (k : string) (c : Z) :
  rfault db = None → in_range c →
  kv db !! zsetKey (NewLevelZSet k) = Some (FormatInt c) →
  Len db (NewLevelZSet k) = (mk k c, c).
Proof.
  intros Hr Hc Hrec. unfold Len, initOnce, NewLevelZSet, Get in *. cbn [totalCount].
  change (-1 =? -1) with true. cbn match. rewrite Hr, Hrec.
  cbn [set_totalCount key totalCount]. by rewrite ParseInt_FormatInt.
Qed.

Lemma Len_fresh_none (db : DB) (k : string) :
  rfault db = None → kv db !! zsetKey (NewLevelZSet k) = None →
  Len db (NewLevelZSet k) = (mk k 0, 0).
Proof.
  intros Hr Hrec. unfold Len, initOnce, NewLevelZSet, Get in *. cbn [totalCount].
  change (-1 =? -1) with true. cbn match. by rewrite Hr, Hrec.
Qed.

End zset_count.

(** On a healthy engine [Add] and [Remove] leave the count record in step
    with the cached count: a fresh instance of the same set reads back the
    count the writing instance holds. *)
Theorem zset_count_persisted (db : DB) (z : LevelZSet.t) :
  rfault db = None → wfault db = None → in_range (LevelZSet.totalCount z) →
  (∀ scoreMembers, Nat.even (length scoreMembers) = true →
     ∃ db' z' n,
       LevelZSet.Add scoreMembers db z = Some (db', z', n) ∧
       LevelZSet.Len db' (LevelZSet.NewLevelZSet (LevelZSet.key z))
       = (z', LevelZSet.totalCount z')) ∧
  (∀ members,
     let r := LevelZSet.Remove members db z in
     LevelZSet.Len r.1.1 (LevelZSet.NewLevelZSet (LevelZSet.key z))
     = (r.1.2, LevelZSet.totalCount r.1.2)).
Proof.
  intros Hr Hw Hc. pose proof (initOnce_key z db) as Hk. split.
  - intros sms Heven.
    pose proof (add_loop_spec db (length sms) sms (LevelZSet.initOnce db z) [] 0 Hr
                  (le_n _) (initOnce_in_range db z Hc)) as Hloop.
    rewrite Heven in Hloop. destruct Hloop as [batch' Hloop].
    { unfold in_range, min_int, max_int; lia. }
    unfold LevelZSet.Add. rewrite Hloop. unfold Write. rewrite Hw.
    eexists _, _, _. split; [reflexivity|].
    unfold LevelZSet.set_totalCount, LevelZSet.zsetValue.
    cbn [LevelZSet.totalCount]. rewrite Hk.
    apply (Len_fresh_put _ (LevelZSet.key z)); [done|apply wrap64_in_range|].
    cbn [kv]. apply apply_batch_snoc_put.
  - intros members r. unfold r, LevelZSet.Remove.
    destruct (LevelZSet.remove_loop db members (LevelZSet.initOnce db z) [] 0) as [batch n].
    unfold LevelZSet.set_totalCount, LevelZSet.zsetValue.
    cbn [LevelZSet.totalCount]. rewrite Hk.
    set (c := wrap64 (LevelZSet.totalCount (LevelZSet.initOnce db z) - n)).
    unfold Write. rewrite Hw.
    destruct (Z.eqb_spec c 0) as [Hz|Hz]; cbn [fst snd].
    + rewrite Hz. apply (Len_fresh_none _ (LevelZSet.key z)); [done|].
      cbn [kv]. apply apply_batch_snoc_delete.
    + apply (Len_fresh_put _ (LevelZSet.key z)); [done|apply wrap64_in_range|].
      cbn [kv]. apply apply_batch_snoc_put.
Qed.

Lemma zset_count_persisted_witness :
  (rfault zset_db = None ∧ wfault zset_db = None ∧ in_range (-1)) ∧
  ∃ db' z' n,
    LevelZSet.Add ["3"; "b"] zset_db (LevelZSet.NewLevelZSet "k") = Some (db', z', n) ∧
    LevelZSet.Len db' (LevelZSet.NewLevelZSet "k") = (z', LevelZSet.totalCount z').
Proof.
  assert (in_range (-1)) as H1 by (unfold in_range, min_int, max_int; lia).
  split; [done|].
  destruct (zset_count_persisted zset_db (LevelZSet.NewLevelZSet "k") eq_refl eq_refl H1)
    as [Hadd _].
  exact (Hadd ["3"; "b"] eq_refl).
Defined.
